(** * Slide-Extractor: perceptual fingerprint and deduplication pass

    A shallow embedding of [_phash], [_hamming] and [deduplicate] of
    [slide_extractor.py], with the properties of the deduplication
    stage stated over it.

    Python integers are unbounded and are modelled by [Z]; Python floats
    are IEEE binary64 and are modelled by Rocq's primitive floats, so
    that [(1.0 - similarity_threshold) * 256] is evaluated with the
    rounding the interpreter applies.  Paths are strings.  Pillow is an
    external library: what [deduplicate] needs from it is taken as a
    parameter (record [pillow]). *)

From Stdlib Require Import ZArith List Lia Bool String Ascii.
From Stdlib Require Import Floats QArith.
From Stdlib Require Decimal DecimalString DecimalNat.
Import ListNotations.

Local Open Scope Z_scope.

(** ** Outcomes of Python code *)

(** The exceptions that [int(x)] raises on a float. *)
Inductive py_exn : Type :=
| ValueError      (* cannot convert float NaN to integer *)
| OverflowError.  (* cannot convert float infinity to integer *)

Inductive result (A : Type) : Type :=
| Ok (a : A)
| Raise (e : py_exn).

Arguments Ok {A} a.
Arguments Raise {A} e.

(** ** Pillow, as far as [_phash] and [deduplicate] use it *)

(** [Image_open path] is [None] when [Image.open(path)] raises.
    [L_resized img (w, h)] is
    [list(img.convert("L").resize((w, h), Image.LANCZOS).getdata())],
    the luminance values of the resampled image in row-major order, and
    [None] when Pillow raises while decoding the (lazily loaded) file. *)
Record pillow : Type := {
  image : Type;
  Image_open : string -> option image;
  L_resized : image -> nat * nat -> option (list Z)
}.

(** ** Perceptual hash *)

Definition _HASH_SIZE : nat := 16.

(** One iteration of the inner loop of [_phash]; [None] is the
    [IndexError] of an out-of-range [pixels[idx]]. *)
Definition phash_cell (pixels : list Z) (row col : nat) (bits : Z) : option Z :=
  let idx := (row * (_HASH_SIZE + 1) + col)%nat in
  match nth_error pixels idx, nth_error pixels (idx + 1) with
  | Some p, Some q =>
      Some (Z.lor (Z.shiftl bits 1) (if p >? q then 1 else 0))
  | _, _ => None
  end.

(** [for x in xs: acc = body x acc], stopping at the first exception. *)
Fixpoint for_each {A S : Type} (body : A -> S -> option S) (xs : list A)
    (acc : S) : option S :=
  match xs with
  | [] => Some acc
  | x :: rest =>
      match body x acc with
      | Some acc' => for_each body rest acc'
      | None => None
      end
  end.

Definition range (n : nat) : list nat := seq 0 n.

(** The two nested loops of [_phash] over the pixel list. *)
Definition phash_pixels (pixels : list Z) : option Z :=
  for_each
    (fun row bits =>
       for_each (fun col bits' => phash_cell pixels row col bits')
                (range _HASH_SIZE) bits)
    (range _HASH_SIZE) 0.

Definition _phash (P : pillow) (img : image P) : option Z :=
  match L_resized P img ((_HASH_SIZE + 1)%nat, _HASH_SIZE) with
  | Some pixels => phash_pixels pixels
  | None => None
  end.

(** ** Hamming distance *)

(** Binary digits of a positive number, most significant first. *)
Fixpoint bin_digits (p : positive) : string :=
  match p with
  | xH => "1"
  | xO q => bin_digits q ++ "0"
  | xI q => bin_digits q ++ "1"
  end.

(** Python's [bin]. *)
Definition bin (z : Z) : string :=
  match z with
  | Z0 => "0b0"
  | Zpos p => "0b" ++ bin_digits p
  | Zneg p => "-0b" ++ bin_digits p
  end.

(** [s.count(c)] for a one-character [c]. *)
Fixpoint str_count (c : ascii) (s : string) : Z :=
  match s with
  | EmptyString => 0
  | String a rest => (if Ascii.eqb a c then 1 else 0) + str_count c rest
  end.

Definition _hamming (a b : Z) : Z := str_count "1"%char (bin (Z.lxor a b)).

(** ** The Hamming cutoff *)

Local Open Scope float_scope.

(** Python's [int(x)] on a float: truncation toward zero, [ValueError]
    on NaN and [OverflowError] on an infinity. *)
Definition int_of_float (x : float) : result Z :=
  match Prim2SF x with
  | S754_nan => Raise ValueError
  | S754_infinity _ => Raise OverflowError
  | S754_zero _ => Ok 0%Z
  | S754_finite s m e => Ok (cond_Zopp s (Z.shiftl (Zpos m) e))
  end.

(** The implicit [int -> float] conversion of a small non-negative
    integer operand. *)
Definition float_of_nat (n : nat) : float :=
  PrimFloat.of_uint63 (Uint63.of_Z (Z.of_nat n)).

(** [int((1.0 - similarity_threshold) * (_HASH_SIZE * _HASH_SIZE))]. *)
Definition max_dist_of (similarity_threshold : float) : result Z :=
  int_of_float
    ((1.0 - similarity_threshold) * float_of_nat (_HASH_SIZE * _HASH_SIZE)).

Local Close Scope float_scope.

(** ** The deduplication pass *)

Inductive log_record : Type :=
| Info_frames_in (n : nat) (cutoff : Z)
| Warning_skipping (path : string)
| Info_kept (n : nat).

(** The variables of the loop of [deduplicate], and the log. *)
Record loop_state : Type := {
  kept : list string;
  kept_hashes : list Z;
  log : list log_record
}.

Definition initial_state (n : nat) (max_dist : Z) : loop_state :=
  {| kept := []; kept_hashes := []; log := [Info_frames_in n max_dist] |}.

(** [_phash(Image.open(path))] under [try]: [None] stands for any
    exception, which the [except Exception] clause catches. *)
Definition try_phash (P : pillow) (path : string) : option Z :=
  match Image_open P path with
  | Some img => _phash P img
  | None => None
  end.

(** [not kept_hashes or _hamming(h, kept_hashes[-1]) > max_dist]. *)
Definition is_new_slide (max_dist : Z) (kept_hashes : list Z) (h : Z) : bool :=
  match kept_hashes with
  | [] => true
  | _ :: _ => _hamming h (last kept_hashes 0) >? max_dist
  end.

(** The body of [for path in paths]. *)
Definition loop_body (P : pillow) (max_dist : Z) (st : loop_state)
    (path : string) : loop_state :=
  match try_phash P path with
  | None =>
      {| kept := kept st; kept_hashes := kept_hashes st;
         log := log st ++ [Warning_skipping path] |}
  | Some h =>
      if is_new_slide max_dist (kept_hashes st) h then
        {| kept := kept st ++ [path]; kept_hashes := kept_hashes st ++ [h];
           log := log st |}
      else st
  end.

Definition run_loop (P : pillow) (max_dist : Z) (st : loop_state)
    (paths : list string) : loop_state :=
  fold_left (loop_body P max_dist) paths st.

(** The state in which the loop of [deduplicate] ends. *)
Definition final_state (P : pillow) (max_dist : Z) (paths : list string)
    : loop_state :=
  run_loop P max_dist (initial_state (List.length paths) max_dist) paths.

(** [deduplicate] from the cutoff on. *)
Definition dedup_with (P : pillow) (max_dist : Z) (paths : list string)
    : list string :=
  kept (final_state P max_dist paths).

Definition deduplicate (P : pillow) (paths : list string)
    (similarity_threshold : float) : result (list string) :=
  match max_dist_of similarity_threshold with
  | Raise e => Raise e
  | Ok max_dist => Ok (dedup_with P max_dist paths)
  end.

(** The log with which a call of [deduplicate] that returns ends. *)
Definition deduplicate_log (P : pillow) (paths : list string)
    (similarity_threshold : float) : result (list log_record) :=
  match max_dist_of similarity_threshold with
  | Raise e => Raise e
  | Ok max_dist =>
      let st := final_state P max_dist paths in
      Ok (log st ++ [Info_kept (List.length (kept st))])
  end.

(** ** Vocabulary of the statements *)

(** [out] is [l] with some elements left out, the others in place. *)
Inductive subseq {A : Type} : list A -> list A -> Prop :=
| subseq_nil : subseq [] []
| subseq_skip : forall x out l, subseq out l -> subseq out (x :: l)
| subseq_take : forall x out l, subseq out l -> subseq (x :: out) (x :: l).

(** The candidate at [path] can be fingerprinted. *)
Definition readable (P : pillow) (path : string) : bool :=
  match try_phash P path with
  | Some _ => true
  | None => false
  end.

(** Luminance of the resampled image at row [r], column [c]. *)
Definition luminance (pixels : list Z) (r c : nat) : Z :=
  nth (r * (_HASH_SIZE + 1) + c) pixels 0.

(** Number of bits of a fingerprint. *)
Definition hash_bits : Z := Z.of_nat (_HASH_SIZE * _HASH_SIZE).

(** [0.0 <= t <= 1.0] on floats. *)
Definition in_unit_interval (t : float) : Prop :=
  PrimFloat.leb 0%float t = true /\ PrimFloat.leb t 1%float = true.

(** [x] is a zero, or is positive, finite and at most [2 ^ k]. *)
Definition at_most_pow2 (k : Z) (x : spec_float) : Prop :=
  match x with
  | S754_zero _ => True
  | S754_finite false m e => e <= k /\ Zpos m <= 2 ^ (k - e)
  | _ => False
  end.

(** [x] is plus infinity, or is finite, positive and at least [2 ^ k]. *)
Definition at_least_pow2 (k : Z) (x : spec_float) : Prop :=
  match x with
  | S754_infinity false => True
  | S754_finite false m e =>
      (e <= k -> 2 ^ (k - e) <= Zpos m) /\ (k < e -> 1 <= Zpos m)
  | _ => False
  end.

(** [x] is a zero, a negative finite float or minus infinity. *)
Definition not_positive (x : spec_float) : Prop :=
  match x with
  | S754_zero _ => True
  | S754_finite true _ _ => True
  | S754_infinity true => True
  | _ => False
  end.

(** The rational number a float stands for; [None] for NaN and the
    infinities. *)
Definition float_value (x : float) : option Q :=
  match Prim2SF x with
  | S754_zero _ => Some 0%Q
  | S754_finite s m e =>
      Some (if 0 <=? e then inject_Z (cond_Zopp s (Zpos m * 2 ^ e))
            else Qmake (cond_Zopp s (Zpos m)) (Z.to_pos (2 ^ (- e))))
  | _ => None
  end.

(** Python's [round(x)] on a float: to the nearest integer, ties to the
    even one. *)
Definition round_of_float (x : float) : result Z :=
  match Prim2SF x with
  | S754_nan => Raise ValueError
  | S754_infinity _ => Raise OverflowError
  | S754_zero _ => Ok 0
  | S754_finite s m e =>
      Ok (cond_Zopp s
            (if 0 <=? e then Zpos m * 2 ^ e
             else
               let d := 2 ^ (- e) in
               let q := Zpos m / d in
               match 2 * (Zpos m mod d) ?= d with
               | Lt => q
               | Gt => q + 1
               | Eq => if Z.even q then q else q + 1
               end))
  end.

(** The cutoff in the words of the specification:
    [round((1.0 - threshold) * S * S)]. *)
Definition max_distance_spec (threshold : float) : result Z :=
  round_of_float
    ((1.0 - threshold) * float_of_nat (_HASH_SIZE * _HASH_SIZE))%float.

(** [kept_hashes[-1]], when there is one. *)
Definition last_hash (hashes : list Z) : option Z :=
  match hashes with
  | [] => None
  | _ :: _ => Some (last hashes 0)
  end.

(** The pass as a recursive function of the paths still to come and of
    the fingerprint last kept; [run_loop_kept] relates it to the loop. *)
Fixpoint reduce (P : pillow) (max_dist : Z) (baseline : option Z)
    (paths : list string) : list string :=
  match paths with
  | [] => []
  | path :: rest =>
      match try_phash P path with
      | None => reduce P max_dist baseline rest
      | Some h =>
          if match baseline with
             | None => true
             | Some h0 => _hamming h h0 >? max_dist
             end
          then path :: reduce P max_dist (Some h) rest
          else reduce P max_dist baseline rest
      end
  end.

(** The paths that the warnings of a log name, in order. *)
Fixpoint skipped (records : list log_record) : list string :=
  match records with
  | [] => []
  | Warning_skipping path :: rest => path :: skipped rest
  | _ :: rest => skipped rest
  end.

(** ** Concrete frames for the examples *)

Fixpoint lookup_file {A : Type} (files : list (string * A)) (path : string)
    : option A :=
  match files with
  | [] => None
  | (p, a) :: rest => if String.eqb p path then Some a else lookup_file rest path
  end.

(** A directory of greyscale images given by their pixels.  An image
    that already has the requested size resizes to a copy of itself;
    any other one is taken as undecodable here. *)
Definition grid_files (files : list (string * list Z)) : pillow :=
  {| image := list Z;
     Image_open := lookup_file files;
     L_resized := fun img size =>
       if (List.length img =? fst size * snd size)%nat then Some img else None |}.

(** A 17 x 16 image: fifteen black rows above the given last row. *)
Definition with_last_row (row : list Z) : list Z :=
  repeat 0 ((_HASH_SIZE + 1) * (_HASH_SIZE - 1)) ++ row.

Definition black : list Z := repeat 0 ((_HASH_SIZE + 1) * _HASH_SIZE).
Definition white : list Z := repeat 255 ((_HASH_SIZE + 1) * _HASH_SIZE).

(** Images with the fingerprints 7, 24 and 96. *)
Definition img_7 : list Z := with_last_row (repeat 3 14 ++ [2; 1; 0]).
Definition img_24 : list Z := with_last_row (repeat 2 12 ++ [1; 0; 0; 0; 0]).
Definition img_96 : list Z := with_last_row (repeat 2 10 ++ [1; 0; 0; 0; 0; 0; 0]).

Definition four_slides : pillow :=
  grid_files [("slide_000001.png", img_7); ("slide_000002.png", black);
              ("slide_000003.png", img_24); ("slide_000004.png", img_96)]%string.

Definition four_paths : list string :=
  ["slide_000001.png"; "slide_000002.png"; "slide_000003.png";
   "slide_000004.png"]%string.

Definition black_white : pillow :=
  grid_files [("slide_000001.png", black); ("slide_000002.png", black);
              ("slide_000003.png", white)]%string.

Definition three_paths : list string :=
  ["slide_000001.png"; "slide_000002.png"; "slide_000003.png"]%string.
From Stdlib Require Import Qround.

(** ** Vocabulary of the further properties *)

(** The bit positions below [n] at which [a] and [b] differ. *)
Definition differing_bits (n : nat) (a b : Z) : list nat :=
  filter (fun i => xorb (Z.testbit a (Z.of_nat i)) (Z.testbit b (Z.of_nat i)))
         (seq 0 n).

(** The comparison that [_phash] stores for cell [k] of the 16 x 16
    grid, the cells counted in row-major order. *)
Definition cell_bit (pixels : list Z) (k : nat) : bool :=
  luminance pixels (k / _HASH_SIZE) (k mod _HASH_SIZE)
  >? luminance pixels (k / _HASH_SIZE) (k mod _HASH_SIZE + 1).

(** Every path of [out] has a fingerprint, and it lies farther than
    [max_dist] from the fingerprint of the path before it ([baseline]
    for the first path). *)
Fixpoint spaced (P : pillow) (max_dist : Z) (baseline : option Z)
    (out : list string) : Prop :=
  match out with
  | [] => True
  | q :: rest =>
      exists h,
        try_phash P q = Some h /\
        match baseline with
        | None => True
        | Some h0 => _hamming h h0 > max_dist
        end /\
        spaced P max_dist (Some h) rest
  end.

(** ** Exporting the selected images *)

(** [ValueError("No images selected.")], and whatever [os.makedirs] and
    [shutil.copy2] raise. *)
Inductive export_exn : Type :=
| No_images_selected
| OS_error (message : string).

(** A call into the operating system returns or raises; either way it
    leaves a file system behind. *)
Inductive os_result (S : Type) : Type :=
| Returned (s : S)
| Failed (message : string) (s : S).

Arguments Returned {S} s.
Arguments Failed {S} message s.

(** The file system and the path functions, as far as [export_images]
    uses them: [read] is the content of a file, [makedirs st path] is
    [os.makedirs(path, exist_ok=True)], [copy2] is [shutil.copy2],
    [path_suffix src] is [Path(src).suffix] and [path_join] is
    [os.path.join]. *)
Record file_system : Type := {
  fs : Type;
  content : Type;
  read : fs -> string -> option content;
  makedirs : fs -> string -> os_result fs;
  copy2 : fs -> string -> string -> os_result fs;
  path_suffix : string -> string;
  path_join : string -> string -> string
}.

Fixpoint pad_zeros (k : nat) (d : Decimal.uint) : Decimal.uint :=
  match k with
  | O => d
  | S k' => Decimal.D0 (pad_zeros k' d)
  end.

(** [f"{i:03d}"] for a non-negative [i]: decimal, padded with zeros to
    three digits. *)
Definition format_03d (i : nat) : string :=
  let d := Nat.to_uint i in
  DecimalString.NilEmpty.string_of_uint
    (pad_zeros (3 - Decimal.nb_digits d) d).

(** [f"slide_{i:03d}{ext}"]. *)
Definition slide_file_name (i : nat) (ext : string) : string :=
  ("slide_" ++ format_03d i ++ ext)%string.

(** [Path(src).suffix or ".png"]. *)
Definition suffix_or_png (O : file_system) (src : string) : string :=
  if String.eqb (path_suffix O src) EmptyString then ".png"%string
  else path_suffix O src.

(** The destination of the image that [enumerate] numbers [i]. *)
Definition export_dest (O : file_system) (dest_folder : string) (i : nat)
    (src : string) : string :=
  path_join O dest_folder (slide_file_name i (suffix_or_png O src)).

(** [for i, src in enumerate(image_paths, start=i): ... copy2(src, dest)],
    up to the first exception. *)
Fixpoint export_loop (O : file_system) (dest_folder : string) (i : nat)
    (image_paths : list string) (st : fs O) : fs O * option export_exn :=
  match image_paths with
  | [] => (st, None)
  | src :: rest =>
      match copy2 O st src (export_dest O dest_folder i src) with
      | Failed message st' => (st', Some (OS_error message))
      | Returned st' => export_loop O dest_folder (S i) rest st'
      end
  end.

(** [export_images]: the file system it leaves and the exception it
    raises, if any. *)
Definition export_images (O : file_system) (st : fs O)
    (image_paths : list string) (dest_folder : string)
    : fs O * option export_exn :=
  match image_paths with
  | [] => (st, Some No_images_selected)
  | _ :: _ =>
      match makedirs O st dest_folder with
      | Failed message st' => (st', Some (OS_error message))
      | Returned st' => export_loop O dest_folder 1 image_paths st'
      end
  end.

(** The destinations of a call, in the order of the images. *)
Fixpoint export_dests (O : file_system) (dest_folder : string) (i : nat)
    (image_paths : list string) : list string :=
  match image_paths with
  | [] => []
  | src :: rest =>
      export_dest O dest_folder i src :: export_dests O dest_folder (S i) rest
  end.

(** Each string is below all later ones in the order of strings. *)
Fixpoint strictly_increasing (l : list string) : bool :=
  match l with
  | [] => true
  | s :: rest => forallb (String.ltb s) rest && strictly_increasing rest
  end.

(** A file system for the examples: files in a list, the last write
    first; directories are not recorded.  [copy2] fails on a missing
    source. *)
Definition list_fs : file_system :=
  {| fs := list (string * string);
     content := string;
     read := fun st path => lookup_file st path;
     makedirs := fun st _ => Returned st;
     copy2 := fun st src dest =>
       match lookup_file st src with
       | Some c => Returned ((dest, c) :: st)
       | None => Failed "No such file or directory" st
       end;
     path_suffix := fun src =>
       if String.eqb (substring (String.length src - 4) 4 src) ".png"
       then ".png"%string else EmptyString;
     path_join := fun folder name => (folder ++ "/" ++ name)%string |}.

(** ** The review window *)

Definition THUMB_W : Z := 220.
Definition THUMB_H : Z := 140.
Definition GRID_COLS : nat := 4.

(** [str(n)] for a non-negative integer. *)
Definition str_of_nat (n : nat) : string :=
  DecimalString.NilEmpty.string_of_uint (Nat.to_uint n).

(** The state of a [SlideCard] that the program logic reads. *)
Record SlideCard : Type := {
  img_path : string;
  index : nat;
  selected : bool
}.

(** [ReviewWindow]: its cards, and the text of the count label. *)
Record ReviewWindow : Type := {
  _image_paths : list string;
  _video_path : string;
  _cards : list SlideCard;
  _count_label : string
}.

(** Where [_load_thumb] pastes a thumbnail of the given size. *)
Definition thumb_offset (width height : Z) : Z * Z :=
  ((THUMB_W - width) / 2, (THUMB_H - height) / 2).

(** [row=i // GRID_COLS, column=i % GRID_COLS]. *)
Definition grid_cell (i : nat) : nat * nat :=
  ((i / GRID_COLS)%nat, (i mod GRID_COLS)%nat).

(** [for i, path in enumerate(image_paths)], counting from [i]: each
    card starts selected. *)
Fixpoint make_cards (i : nat) (image_paths : list string) : list SlideCard :=
  match image_paths with
  | [] => []
  | path :: rest =>
      {| img_path := path; index := i; selected := true |}
      :: make_cards (S i) rest
  end.

(** [sum(c.selected for c in self._cards)]. *)
Definition sum_selected (cards : list SlideCard) : nat :=
  fold_left (fun acc c => (acc + (if selected c then 1 else 0))%nat) cards 0%nat.

(** [f"{sel} / {len(self._cards)} slides selected"]. *)
Definition count_text (sel total : nat) : string :=
  (str_of_nat sel ++ " / " ++ str_of_nat total ++ " slides selected")%string.

Definition _update_count (w : ReviewWindow) : ReviewWindow :=
  {| _image_paths := _image_paths w; _video_path := _video_path w;
     _cards := _cards w;
     _count_label :=
       count_text (sum_selected (_cards w)) (List.length (_cards w)) |}.

(** The window once [__init__] and [_build_ui] have run. *)
Definition new_window (image_paths : list string) (video_path : string)
    : ReviewWindow :=
  _update_count
    {| _image_paths := image_paths; _video_path := video_path;
       _cards := make_cards 0 image_paths; _count_label := EmptyString |}.

Definition set_selected (b : bool) (c : SlideCard) : SlideCard :=
  {| img_path := img_path c; index := index c; selected := b |}.

(** [SlideCard._toggle] on card [k] of the window, with the
    [_on_card_toggle] it triggers. *)
Definition _toggle (k : nat) (w : ReviewWindow) : ReviewWindow :=
  _update_count
    {| _image_paths := _image_paths w; _video_path := _video_path w;
       _cards :=
         map (fun c => if (index c =? k)%nat
                       then set_selected (negb (selected c)) c else c)
             (_cards w);
       _count_label := _count_label w |}.

Definition _select_all (w : ReviewWindow) : ReviewWindow :=
  _update_count
    {| _image_paths := _image_paths w; _video_path := _video_path w;
       _cards := map (set_selected true) (_cards w);
       _count_label := _count_label w |}.

Definition _deselect_all (w : ReviewWindow) : ReviewWindow :=
  _update_count
    {| _image_paths := _image_paths w; _video_path := _video_path w;
       _cards := map (set_selected false) (_cards w);
       _count_label := _count_label w |}.

(** [[c.img_path for c in self._cards if c.selected]]. *)
Definition selected_paths (w : ReviewWindow) : list string :=
  map img_path (filter selected (_cards w)).

(** What the user does in the window before pressing a button. *)
Inductive user_action : Type :=
| Click (k : nat)
| Select_all
| Deselect_all.

Definition perform (w : ReviewWindow) (a : user_action) : ReviewWindow :=
  match a with
  | Click k => _toggle k w
  | Select_all => _select_all w
  | Deselect_all => _deselect_all w
  end.

(** What [_generate_pdf] and [_save_images] go on to do, given the
    answer of the file dialog (empty when the user cancels). *)
Inductive button_outcome : Type :=
| Warn_nothing_selected
| Dialog_cancelled
| Call_build_pdf (selected : list string) (pdf_path : string)
| Call_export_images (selected : list string) (dest_folder : string).

Definition _generate_pdf (w : ReviewWindow) (pdf_path : string)
    : button_outcome :=
  match selected_paths w with
  | [] => Warn_nothing_selected
  | _ :: _ =>
      if String.eqb pdf_path EmptyString then Dialog_cancelled
      else Call_build_pdf (selected_paths w) pdf_path
  end.

Definition _save_images (w : ReviewWindow) (dest_folder : string)
    : button_outcome :=
  match selected_paths w with
  | [] => Warn_nothing_selected
  | _ :: _ =>
      if String.eqb dest_folder EmptyString then Dialog_cancelled
      else Call_export_images (selected_paths w) dest_folder
  end.

(** ** Extraction and the main window *)

Definition newline : string := String "010"%char EmptyString.

(** [s[-n:]], for [n] above zero. *)
Definition last_chars (n : nat) (s : string) : string :=
  substring (String.length s - n) n s.

(** [str(exc)] for what [int()] raises in [deduplicate]. *)
Definition str_of_exn (e : py_exn) : string :=
  match e with
  | ValueError => "cannot convert float NaN to integer"
  | OverflowError => "cannot convert float infinity to integer"
  end.

(** [subprocess.run]: it raises (with [str(exc)]), or returns a return
    code and the decoded standard error. *)
Inductive subprocess_outcome : Type :=
| Run_raised (message : string)
| Completed (returncode : Z) (stderr : string).

(** What [run] meets outside the program: whether [os.makedirs] raises,
    what FFmpeg does, and the frames the sorted glob finds afterwards. *)
Record extraction_env : Type := {
  makedirs_raised : option string;
  ffmpeg : subprocess_outcome;
  glob_frames : list string
}.

(** The three progress texts of [run]. *)
Inductive progress_text : Type :=
| Pass_1_of_2
| Pass_2_of_2 (frames : nat)
| Done_unique (slides : nat).

(** The calls [run] makes to its callbacks, in order. *)
Inductive callback : Type :=
| Progress (text : progress_text)
| Done (images : list string) (error : option string).

(** [if cb: cb(...)]. *)
Definition call (cb : bool) (e : callback) : list callback :=
  if cb then [e] else [].

Definition no_frames_message : string :=
  ("FFmpeg produced no frames." ++ newline
   ++ "Try lowering the scene detection threshold.")%string.

(** The body of the worker thread of [extract_slides]; the callbacks
    are taken to return. *)
Definition run (P : pillow) (E : extraction_env)
    (similarity_threshold : float) (progress_cb done_cb : bool)
    : list callback :=
  match makedirs_raised E with
  | Some message => call done_cb (Done [] (Some message))
  | None =>
      call progress_cb (Progress Pass_1_of_2) ++
      match ffmpeg E with
      | Run_raised message => call done_cb (Done [] (Some message))
      | Completed returncode stderr =>
          if negb (returncode =? 0) then
            call done_cb
              (Done [] (Some ("FFmpeg failed:" ++ newline
                              ++ last_chars 2000 stderr)%string))
          else
            match glob_frames E with
            | [] => call done_cb (Done [] (Some no_frames_message))
            | _ :: _ =>
                call progress_cb
                  (Progress (Pass_2_of_2 (List.length (glob_frames E)))) ++
                match deduplicate P (glob_frames E) similarity_threshold with
                | Raise e => call done_cb (Done [] (Some (str_of_exn e)))
                | Ok unique =>
                    call progress_cb
                      (Progress (Done_unique (List.length unique))) ++
                    call done_cb (Done unique None)
                end
            end
      end
  end.

(** What [finish] does with the report of [run]. *)
Inductive finish_outcome : Type :=
| Show_error (error : string)
| No_slides_detected
| Open_review (w : ReviewWindow).

Definition finish (path : string) (images : list string)
    (error : option string) : finish_outcome :=
  match error with
  | Some (String c rest) => Show_error (String c rest)
  | _ =>
      match images with
      | [] => No_slides_detected
      | _ :: _ => Open_review (new_window images path)
      end
  end.

Inductive process_outcome : Type :=
| Warn_no_file
| Finished (outcomes : list finish_outcome).

(** [App._process] on the stripped path, given whether it is a file. *)
Definition _process (P : pillow) (E : extraction_env) (path : string)
    (isfile : bool) (similarity_thresh : float) : process_outcome :=
  if String.eqb path EmptyString || negb isfile then Warn_no_file
  else
    Finished
      (flat_map
         (fun e =>
            match e with
            | Progress _ => []
            | Done images error => [finish path images error]
            end)
         (run P E similarity_thresh true true)).

(** An example run: FFmpeg wrote the three frames of [black_white]. *)
Definition three_frames_env : extraction_env :=
  {| makedirs_raised := None;
     ffmpeg := Completed 0 EmptyString;
     glob_frames := three_paths |}.

(** ** The cutoff without rounding *)

(** The floor of [(1 - q) * 256] over the rationals. *)
Definition exact_cutoff (q : Q) : Z :=
  Qfloor ((1 - q) * inject_Z hash_bits).

(** The ends of the similarity slider, [from_=0.70, to=0.99], as the
    binary64 values Python reads the two literals as. *)
Definition similarity_from : float := 0x1.6666666666666p-1.
Definition similarity_to : float := 0x1.fae147ae147aep-1.

(** * Properties *)

(** ** Hamming distance *)

Lemma str_count_nonneg (c : ascii) (s : string) : 0 <= str_count c s.
Proof.
  induction s as [|a s IH]; simpl; [lia|].
  destruct (Ascii.eqb a c); lia.
Qed.

Lemma str_count_app (c : ascii) (s1 s2 : string) :
  str_count c (s1 ++ s2) = str_count c s1 + str_count c s2.
Proof.
  induction s1 as [|a s1 IH]; simpl; [reflexivity|].
  rewrite IH. lia.
Qed.

Lemma size_log2 (p : positive) : Zpos (Pos.size p) = Z.log2 (Zpos p) + 1.
Proof. destruct p; simpl; lia. Qed.

Lemma ones_of_digits (p : positive) :
  1 <= str_count "1" (bin_digits p) <= Zpos (Pos.size p).
Proof.
  induction p as [q IH|q IH|]; simpl.
  - rewrite str_count_app. simpl. lia.
  - rewrite str_count_app. simpl. lia.
  - lia.
Qed.

Lemma hamming_nonneg (a b : Z) : 0 <= _hamming a b.
Proof. apply str_count_nonneg. Qed.

Lemma hamming_self (h : Z) : _hamming h h = 0.
Proof. unfold _hamming. rewrite Z.lxor_nilpotent. reflexivity. Qed.

Lemma hamming_zero_eq (a b : Z) : _hamming a b = 0 -> a = b.
Proof.
  unfold _hamming. intros H.
  apply Z.lxor_eq.
  destruct (Z.lxor a b) as [|p|p]; [reflexivity| |];
    simpl in H; pose proof (ones_of_digits p); lia.
Qed.

Lemma hamming_le_bits (n a b : Z) :
  0 <= n -> 0 <= a < 2 ^ n -> 0 <= b < 2 ^ n -> _hamming a b <= n.
Proof.
  intros Hn Ha Hb. unfold _hamming.
  assert (Hx : 0 <= Z.lxor a b) by (apply Z.lxor_nonneg; lia).
  destruct (Z.lxor a b) as [|p|p] eqn:E; [simpl; lia| |lia].
  simpl. pose proof (ones_of_digits p) as Hp.
  rewrite size_log2 in Hp.
  assert (Z.log2 (Zpos p) < n); [|lia].
  rewrite <- E.
  eapply Z.le_lt_trans; [apply Z.log2_lxor; lia|].
  apply Z.max_lub_lt.
  - destruct (Z.eq_dec a 0) as [->|]; [simpl|apply Z.log2_lt_pow2]; try lia.
    destruct (Z.eq_dec n 0) as [->|]; [|lia].
    rewrite Z.lxor_0_l in E. subst b. simpl in Hb. lia.
  - destruct (Z.eq_dec b 0) as [->|]; [simpl|apply Z.log2_lt_pow2]; try lia.
    destruct (Z.eq_dec n 0) as [->|]; [|lia].
    rewrite Z.lxor_0_r in E. subst a. simpl in Ha. lia.
Qed.

(** ** Bits pushed by a loop *)

Section BlockLoop.
Variable w : Z.
Variable body : nat -> Z -> option Z.
Variable bit : nat -> Z -> bool.
Hypothesis w_pos : 0 < w.

(** When every iteration shifts the accumulator by [w] bits and puts
    the bits [bit x] below, [n] iterations build [n] such blocks, the
    last one lowest. *)
Lemma for_each_blocks (n a : nat) (acc : Z) :
  0 <= acc ->
  (forall x acc0, (a <= x < a + n)%nat -> 0 <= acc0 ->
     exists acc', body x acc0 = Some acc' /\ 0 <= acc' /\
       forall i, 0 <= i ->
         Z.testbit acc' i = if i <? w then bit x i else Z.testbit acc0 (i - w)) ->
  exists acc', for_each body (seq a n) acc = Some acc' /\ 0 <= acc' /\
    forall i, 0 <= i ->
      Z.testbit acc' i =
        if i <? Z.of_nat n * w
        then bit (a + (n - 1 - Z.to_nat (i / w)))%nat (i mod w)
        else Z.testbit acc (i - Z.of_nat n * w).
Proof.
  revert a acc. induction n as [|n IH]; intros a acc Hacc Hbody.
  - exists acc. simpl. repeat split; [assumption|].
    intros i Hi. destruct (Z.ltb_spec i 0); [lia|]. f_equal. lia.
  - destruct (Hbody a acc ltac:(lia) Hacc) as (acc1 & E1 & P1 & B1).
    destruct (IH (S a) acc1 P1) as (acc2 & E2 & P2 & B2).
    { intros x acc0 Hx. apply Hbody. lia. }
    exists acc2. cbn [seq for_each]. rewrite E1. repeat split; [exact E2|exact P2|].
    intros i Hi. rewrite (B2 i Hi).
    destruct (Z.ltb_spec i (Z.of_nat n * w)) as [Hlt|Hge].
    + assert (Hq : 0 <= i / w < Z.of_nat n).
      { split; [apply Z.div_pos; lia|apply Z.div_lt_upper_bound; nia]. }
      destruct (Z.ltb_spec i (Z.of_nat (S n) * w)); [|nia].
      f_equal. lia.
    + rewrite (B1 (i - Z.of_nat n * w)) by lia.
      destruct (Z.ltb_spec (i - Z.of_nat n * w) w) as [Hlt|Hge'];
        destruct (Z.ltb_spec i (Z.of_nat (S n) * w)); try nia.
      * assert (Hq : i / w = Z.of_nat n).
        { symmetry. apply (Z.div_unique i w _ (i - Z.of_nat n * w)); lia. }
        assert (Hr : i mod w = i - Z.of_nat n * w).
        { symmetry. apply (Z.mod_unique i w (Z.of_nat n)); lia. }
        rewrite Hq, Hr. f_equal. lia.
      * f_equal. lia.
Qed.
End BlockLoop.

(** ** The fingerprint *)

Lemma phash_cell_bits (pixels : list Z) (row col : nat) (bits : Z) :
  List.length pixels = ((_HASH_SIZE + 1) * _HASH_SIZE)%nat ->
  (row < _HASH_SIZE)%nat -> (col < _HASH_SIZE)%nat -> 0 <= bits ->
  exists bits', phash_cell pixels row col bits = Some bits' /\ 0 <= bits' /\
    forall i, 0 <= i ->
      Z.testbit bits' i =
        if i <? 1 then luminance pixels row col >? luminance pixels row (col + 1)
        else Z.testbit bits (i - 1).
Proof.
  unfold phash_cell, luminance, _HASH_SIZE. intros Hlen Hr Hc Hb.
  set (idx := (row * (16 + 1) + col)%nat).
  assert (Hidx : (idx + 1 < List.length pixels)%nat) by (subst idx; lia).
  destruct (nth_error pixels idx) as [p|] eqn:Ep;
    [|apply nth_error_None in Ep; lia].
  destruct (nth_error pixels (idx + 1)) as [q|] eqn:Eq;
    [|apply nth_error_None in Eq; lia].
  replace (row * (16 + 1) + (col + 1))%nat with (idx + 1)%nat by (subst idx; lia).
  rewrite (nth_error_nth _ _ 0 Ep), (nth_error_nth _ _ 0 Eq).
  eexists. split; [reflexivity|]. split.
  - apply Z.lor_nonneg. split; [apply Z.shiftl_nonneg; lia|].
    destruct (p >? q); lia.
  - intros i Hi. rewrite Z.lor_spec, Z.shiftl_spec by lia.
    destruct (Z.ltb_spec i 1) as [Hlt|Hge].
    + assert (i = 0) by lia. subst i.
      rewrite (Z.testbit_neg_r bits) by lia.
      destruct (p >? q); reflexivity.
    + replace (Z.testbit (if p >? q then 1 else 0) i) with false.
      * apply orb_false_r.
      * destruct (p >? q); destruct i as [|i|i]; try lia; reflexivity.
Qed.

(** The fingerprint of a 17 x 16 pixel list: a non-negative number whose
    bit [r * 16 + c], counted from bit 255 downwards, compares the
    luminance at [(r, c)] with the one to its right. *)
Lemma phash_pixels_bits (pixels : list Z) :
  List.length pixels = ((_HASH_SIZE + 1) * _HASH_SIZE)%nat ->
  exists bits, phash_pixels pixels = Some bits /\ 0 <= bits /\
    (forall i, hash_bits <= i -> Z.testbit bits i = false) /\
    forall r c, (r < _HASH_SIZE)%nat -> (c < _HASH_SIZE)%nat ->
      Z.testbit bits (hash_bits - 1 - Z.of_nat (r * _HASH_SIZE + c)) =
        (luminance pixels r c >? luminance pixels r (c + 1)).
Proof.
  intros Hlen. unfold phash_pixels, range.
  destruct (for_each_blocks 16
              (fun row bits =>
                 for_each (fun col bits' => phash_cell pixels row col bits')
                          (seq 0 _HASH_SIZE) bits)
              (fun row i =>
                 luminance pixels row (_HASH_SIZE - 1 - Z.to_nat i) >?
                 luminance pixels row (_HASH_SIZE - 1 - Z.to_nat i + 1))
              ltac:(lia) _HASH_SIZE 0%nat 0 ltac:(lia))
    as (bits & E & Pos & B).
  { intros row acc0 Hrow Hacc0.
    destruct (for_each_blocks 1 (phash_cell pixels row)
                (fun col _ =>
                   luminance pixels row col >? luminance pixels row (col + 1))
                ltac:(lia) _HASH_SIZE 0%nat acc0 Hacc0)
      as (acc' & E' & Pos' & B').
    { intros col acc1 Hcol Hacc1.
      apply phash_cell_bits; auto; lia. }
    exists acc'. repeat split; [exact E'|exact Pos'|].
    intros i Hi. rewrite (B' i Hi). unfold _HASH_SIZE. simpl Z.of_nat.
    rewrite Z.mul_1_r, Z.div_1_r.
    destruct (Z.ltb_spec i 16); [|f_equal; lia].
    replace (0 + (16 - 1 - Z.to_nat i))%nat with (16 - 1 - Z.to_nat i)%nat by lia.
    reflexivity. }
  exists bits. repeat split; [exact E|exact Pos| |].
  - intros i Hi. unfold hash_bits, _HASH_SIZE in Hi. simpl in Hi.
    rewrite (B i) by lia. unfold _HASH_SIZE. simpl Z.of_nat.
    destruct (Z.ltb_spec i (16 * 16)); [lia|].
    apply Z.testbit_0_l.
  - intros r c Hr Hc. unfold hash_bits, _HASH_SIZE in *. simpl Z.of_nat at 1.
    set (i := 256 - 1 - Z.of_nat (r * 16 + c)).
    assert (Hq : i / 16 = 15 - Z.of_nat r).
    { symmetry. apply (Z.div_unique i 16 _ (15 - Z.of_nat c)); subst i; lia. }
    assert (Hm : i mod 16 = 15 - Z.of_nat c).
    { symmetry. apply (Z.mod_unique i 16 (15 - Z.of_nat r)); subst i; lia. }
    rewrite (B i) by (subst i; lia). simpl Z.of_nat.
    destruct (Z.ltb_spec i (16 * 16)); [|subst i; lia].
    rewrite Hq, Hm.
    replace (0 + (16 - 1 - Z.to_nat (15 - Z.of_nat r)))%nat with r by lia.
    replace (16 - 1 - Z.to_nat (15 - Z.of_nat c))%nat with c by lia.
    reflexivity.
Qed.

Lemma high_bits_zero_lt (a n : Z) :
  0 <= n -> 0 <= a -> (forall i, n <= i -> Z.testbit a i = false) -> a < 2 ^ n.
Proof.
  intros Hn Ha Hbits.
  destruct (Z.eq_dec a 0) as [->|Hne]; [apply Z.pow_pos_nonneg; lia|].
  apply Z.log2_lt_pow2; [lia|].
  destruct (Z_lt_le_dec (Z.log2 a) n) as [|Hle]; [assumption|].
  pose proof (Z.bit_log2 a ltac:(lia)) as Hb.
  rewrite (Hbits _ Hle) in Hb. discriminate.
Qed.

Lemma lt_pow2_high_bits (a k i : Z) :
  0 <= a < 2 ^ k -> k <= i -> Z.testbit a i = false.
Proof.
  intros Ha Hi.
  destruct (Z.eq_dec a 0) as [->|Hne]; [apply Z.testbit_0_l|].
  assert (0 <= k).
  { destruct (Z_lt_le_dec k 0) as [Hk|]; [|assumption].
    rewrite (Z.pow_neg_r 2 k Hk) in Ha. lia. }
  apply Z.bits_above_log2; [lia|].
  assert (Z.log2 a < k) by (apply Z.log2_lt_pow2; lia). lia.
Qed.

Lemma for_each_range {A : Type} (w : Z) (body : A -> Z -> option Z) :
  0 <= w ->
  (forall x acc acc' k, 0 <= k -> body x acc = Some acc' ->
     0 <= acc < 2 ^ k -> 0 <= acc' < 2 ^ (k + w)) ->
  forall xs acc acc' k, 0 <= k -> for_each body xs acc = Some acc' ->
    0 <= acc < 2 ^ k -> 0 <= acc' < 2 ^ (k + Z.of_nat (List.length xs) * w).
Proof.
  intros Hw Hbody xs. induction xs as [|x xs IH]; intros acc acc' k Hk E Hacc.
  - cbn in *. injection E as <-. rewrite Z.add_0_r. exact Hacc.
  - cbn [for_each] in E. destruct (body x acc) as [acc1|] eqn:E1; [|discriminate].
    pose proof (Hbody _ _ _ _ Hk E1 Hacc) as H1.
    pose proof (IH _ _ (k + w) ltac:(lia) E H1) as H2.
    replace (k + Z.of_nat (List.length (x :: xs)) * w)
      with (k + w + Z.of_nat (List.length xs) * w); [exact H2|].
    cbn [List.length]. lia.
Qed.

Lemma phash_cell_range (pixels : list Z) (row col : nat) (bits bits' k : Z) :
  0 <= k -> phash_cell pixels row col bits = Some bits' ->
  0 <= bits < 2 ^ k -> 0 <= bits' < 2 ^ (k + 1).
Proof.
  unfold phash_cell. intros Hk E Hb.
  destruct (nth_error pixels _) as [p|]; [|discriminate].
  destruct (nth_error pixels _) as [q|]; [|discriminate].
  assert (Eb : bits' = Z.lor (Z.shiftl bits 1) (if p >? q then 1 else 0))
    by congruence.
  subst bits'. clear E.
  assert (Hpos : 0 <= Z.lor (Z.shiftl bits 1) (if p >? q then 1 else 0)).
  { apply Z.lor_nonneg. split; [apply Z.shiftl_nonneg; lia|].
    destruct (p >? q); lia. }
  split; [exact Hpos|].
  apply high_bits_zero_lt; [lia|exact Hpos|].
  intros i Hi. rewrite Z.lor_spec, Z.shiftl_spec by lia.
  rewrite (lt_pow2_high_bits bits k (i - 1)) by lia.
  destruct (p >? q); destruct i as [|i|i]; try lia; reflexivity.
Qed.

(** Fingerprints are [hash_bits]-bit numbers. *)
Lemma phash_pixels_range (pixels : list Z) (bits : Z) :
  phash_pixels pixels = Some bits -> 0 <= bits < 2 ^ hash_bits.
Proof.
  unfold phash_pixels. intros E.
  apply (for_each_range 16
           (fun row bits =>
              for_each (fun col bits' => phash_cell pixels row col bits')
                       (range _HASH_SIZE) bits)
           ltac:(lia)) with (k := 0) in E; [exact E| |lia|simpl; lia].
  intros row acc acc' k Hk E' Hacc.
  apply (for_each_range 1 (phash_cell pixels row) ltac:(lia))
    with (k := k) in E'; [exact E'| |exact Hk|exact Hacc].
  intros col a a' k'. apply phash_cell_range.
Qed.

Lemma phash_range (P : pillow) (img : image P) (h : Z) :
  _phash P img = Some h -> 0 <= h < 2 ^ hash_bits.
Proof.
  unfold _phash. destruct (L_resized P img _); [|discriminate].
  apply phash_pixels_range.
Qed.

Lemma try_phash_range (P : pillow) (path : string) (h : Z) :
  try_phash P path = Some h -> 0 <= h < 2 ^ hash_bits.
Proof.
  unfold try_phash. destruct (Image_open P path); [|discriminate].
  apply phash_range.
Qed.

(** ** The loop of [deduplicate] *)

Lemma run_loop_app (P : pillow) (m : Z) (st : loop_state) (a b : list string) :
  run_loop P m st (a ++ b) = run_loop P m (run_loop P m st a) b.
Proof. apply fold_left_app. Qed.

Lemma run_loop_cons (P : pillow) (m : Z) (st : loop_state) (p : string)
    (ps : list string) :
  run_loop P m st (p :: ps) = run_loop P m (loop_body P m st p) ps.
Proof. reflexivity. Qed.

Lemma last_snoc {A : Type} (l : list A) (x d : A) : last (l ++ [x]) d = x.
Proof.
  induction l as [|a l IH]; [reflexivity|].
  cbn [app]. destruct (l ++ [x]) eqn:E; [destruct l; discriminate|].
  exact IH.
Qed.

Lemma last_hash_snoc (hs : list Z) (h : Z) : last_hash (hs ++ [h]) = Some h.
Proof.
  unfold last_hash. destruct (hs ++ [h]) eqn:E; [destruct hs; discriminate|].
  rewrite <- E. f_equal. apply last_snoc.
Qed.

Lemma is_new_slide_last_hash (m : Z) (hs : list Z) (h : Z) :
  is_new_slide m hs h =
    match last_hash hs with
    | None => true
    | Some h0 => _hamming h h0 >? m
    end.
Proof. destruct hs; reflexivity. Qed.

(** What one iteration does to [kept] and [kept_hashes]. *)
Lemma loop_body_cases (P : pillow) (m : Z) (st : loop_state) (p : string) :
  (try_phash P p = None /\
   kept (loop_body P m st p) = kept st /\
   kept_hashes (loop_body P m st p) = kept_hashes st /\
   log (loop_body P m st p) = log st ++ [Warning_skipping p]) \/
  (exists h, try_phash P p = Some h /\
     is_new_slide m (kept_hashes st) h = true /\
     kept (loop_body P m st p) = kept st ++ [p] /\
     kept_hashes (loop_body P m st p) = kept_hashes st ++ [h] /\
     log (loop_body P m st p) = log st) \/
  (exists h, try_phash P p = Some h /\
     is_new_slide m (kept_hashes st) h = false /\
     loop_body P m st p = st).
Proof.
  unfold loop_body. destruct (try_phash P p) as [h|].
  - destruct (is_new_slide m (kept_hashes st) h) eqn:E.
    + right. left. exists h. auto.
    + right. right. exists h. auto.
  - left. auto.
Qed.

(** The loop and its recursive reading agree. *)
Lemma run_loop_kept (P : pillow) (m : Z) (paths : list string) (st : loop_state) :
  kept (run_loop P m st paths) =
    kept st ++ reduce P m (last_hash (kept_hashes st)) paths.
Proof.
  revert st. induction paths as [|p ps IH]; intros st.
  - cbn. symmetry. apply app_nil_r.
  - rewrite run_loop_cons, IH. cbn [reduce].
    destruct (loop_body_cases P m st p)
      as [(E & K & H & _)|[(h & E & N & K & H & _)|(h & E & N & S)]];
      rewrite E.
    + rewrite K, H. reflexivity.
    + rewrite is_new_slide_last_hash in N. rewrite N, K, H, last_hash_snoc.
      rewrite <- app_assoc. reflexivity.
    + rewrite is_new_slide_last_hash in N. rewrite N, S. reflexivity.
Qed.

Lemma dedup_with_reduce (P : pillow) (m : Z) (paths : list string) :
  dedup_with P m paths = reduce P m None paths.
Proof. unfold dedup_with, final_state. rewrite run_loop_kept. reflexivity. Qed.

(** The stored fingerprints are those of the stored paths. *)
Lemma loop_body_paired (P : pillow) (m : Z) (st : loop_state) (p : string) :
  Forall2 (fun q h => try_phash P q = Some h) (kept st) (kept_hashes st) ->
  Forall2 (fun q h => try_phash P q = Some h)
    (kept (loop_body P m st p)) (kept_hashes (loop_body P m st p)).
Proof.
  intros Inv.
  destruct (loop_body_cases P m st p)
    as [(E & K & H & _)|[(h & E & N & K & H & _)|(h & E & N & S)]].
  - rewrite K, H. exact Inv.
  - rewrite K, H. apply Forall2_app; [exact Inv|]. constructor; [exact E|constructor].
  - rewrite S. exact Inv.
Qed.

Lemma run_loop_paired (P : pillow) (m : Z) (paths : list string) (st : loop_state) :
  Forall2 (fun q h => try_phash P q = Some h) (kept st) (kept_hashes st) ->
  Forall2 (fun q h => try_phash P q = Some h)
    (kept (run_loop P m st paths)) (kept_hashes (run_loop P m st paths)).
Proof.
  revert st. induction paths as [|p ps IH]; intros st Inv; [exact Inv|].
  rewrite run_loop_cons. apply IH, loop_body_paired, Inv.
Qed.

Lemma Forall2_last {A B : Type} (R : A -> B -> Prop) (l : list A) (l' : list B)
    (d : A) (d' : B) :
  Forall2 R l l' -> l <> [] -> R (last l d) (last l' d').
Proof.
  induction 1 as [|a b l l' Hab Hl IH]; intros Hne; [congruence|].
  destruct Hl as [|a' b' l l' Hab' Hl]; [exact Hab|].
  apply IH. discriminate.
Qed.

(** ** Subsequences *)

Lemma subseq_length {A : Type} (out l : list A) :
  subseq out l -> (List.length out <= List.length l)%nat.
Proof. induction 1; cbn; lia. Qed.

Lemma subseq_In {A : Type} (out l : list A) (x : A) :
  subseq out l -> In x out -> In x l.
Proof.
  induction 1 as [|y out l H IH|y out l H IH]; cbn; intros Hin; auto.
  destruct Hin; auto.
Qed.

Lemma subseq_NoDup {A : Type} (out l : list A) :
  subseq out l -> NoDup l -> NoDup out.
Proof.
  induction 1 as [|y out l H IH|y out l H IH]; intros Hnd.
  - constructor.
  - inversion Hnd; auto.
  - inversion Hnd as [|? ? Hnotin Hnd']; subst. constructor; auto.
    intros Hin. apply Hnotin. eapply subseq_In; eauto.
Qed.

Lemma reduce_subseq (P : pillow) (m : Z) (paths : list string) (b : option Z) :
  subseq (reduce P m b paths) paths.
Proof.
  revert b. induction paths as [|p ps IH]; intros b; cbn [reduce].
  - constructor.
  - destruct (try_phash P p) as [h|]; [|apply subseq_skip, IH].
    destruct (match b with None => true | Some h0 => _hamming h h0 >? m end).
    + apply subseq_take, IH.
    + apply subseq_skip, IH.
Qed.

(** ** Binary64 rounding, as far as the cutoff needs it *)

Lemma pow2_split (a b : Z) : 0 <= a -> 0 <= b -> 2 ^ (a + b) = 2 ^ a * 2 ^ b.
Proof. intros. apply Z.pow_add_r; assumption. Qed.

Lemma pow2_pos (a : Z) : 0 <= a -> 0 < 2 ^ a.
Proof. intros. apply Z.pow_pos_nonneg; lia. Qed.

(** One right shift of a non-negative mantissa halves it and records
    whether anything was lost. *)
Lemma shr_1_step (m j : Z) (mrs : shr_record) :
  0 <= m -> 0 <= j ->
  shr_m mrs = m / 2 ^ j ->
  (m mod 2 ^ j = 0 -> shr_r mrs = false /\ shr_s mrs = false) ->
  shr_m (shr_1 mrs) = m / 2 ^ (j + 1) /\
  (m mod 2 ^ (j + 1) = 0 ->
   shr_r (shr_1 mrs) = false /\ shr_s (shr_1 mrs) = false).
Proof.
  intros Hm Hj Hdiv Hex.
  assert (Hp : 0 < 2 ^ j) by (apply pow2_pos; lia).
  assert (Hdd : m / 2 ^ (j + 1) = m / 2 ^ j / 2).
  { rewrite pow2_split, Z.pow_1_r by lia. symmetry. apply Z.div_div; lia. }
  assert (Hmod : m mod 2 ^ (j + 1) = 0 ->
                 m mod 2 ^ j = 0 /\ (m / 2 ^ j) mod 2 = 0).
  { rewrite pow2_split, Z.pow_1_r by lia. intros H0.
    rewrite Z.rem_mul_r in H0 by lia.
    pose proof (Z.mod_pos_bound m (2 ^ j) Hp).
    pose proof (Z.mod_pos_bound (m / 2 ^ j) 2 ltac:(lia)). nia. }
  rewrite Hdd.
  destruct mrs as [mm r s]. cbn [shr_m shr_r shr_s] in *.
  assert (Hmm : 0 <= mm) by (rewrite Hdiv; apply Z.div_pos; lia).
  rewrite <- Hdiv in *.
  destruct mm as [|[p|p|]|p]; cbn [shr_1 shr_m shr_r shr_s]; try lia.
  - split; [reflexivity|]. intros H0. destruct (Hmod H0) as [H1 _].
    destruct (Hex H1) as [-> ->]. auto.
  - split.
    + rewrite Pos2Z.inj_xI. apply (Z.div_unique _ 2 _ 1); lia.
    + intros H0. destruct (Hmod H0) as [_ H2].
      rewrite Pos2Z.inj_xI in H2.
      rewrite Z.add_comm, Z.mul_comm, Z.mod_add in H2 by lia. discriminate.
  - split.
    + rewrite Pos2Z.inj_xO. apply (Z.div_unique _ 2 _ 0); lia.
    + intros H0. destruct (Hmod H0) as [H1 _].
      destruct (Hex H1) as [-> ->]. auto.
  - split; [reflexivity|]. intros H0. destruct (Hmod H0) as [_ H2]. discriminate.
Qed.

Lemma iter_shr_1 (m : Z) (p : positive) : 0 <= m ->
  forall (j : Z) (mrs : shr_record), 0 <= j ->
  shr_m mrs = m / 2 ^ j ->
  (m mod 2 ^ j = 0 -> shr_r mrs = false /\ shr_s mrs = false) ->
  shr_m (SpecFloat.iter_pos shr_1 p mrs) = m / 2 ^ (j + Zpos p) /\
  (m mod 2 ^ (j + Zpos p) = 0 ->
   shr_r (SpecFloat.iter_pos shr_1 p mrs) = false /\ shr_s (SpecFloat.iter_pos shr_1 p mrs) = false).
Proof.
  intros Hm. induction p as [p IH|p IH|]; intros j mrs Hj Hdiv Hex;
    cbn [SpecFloat.iter_pos].
  - destruct (shr_1_step m j mrs Hm Hj Hdiv Hex) as [D1 E1].
    destruct (IH (j + 1) _ ltac:(lia) D1 E1) as [D2 E2].
    destruct (IH (j + 1 + Zpos p) _ ltac:(lia) D2 E2) as [D3 E3].
    replace (j + Zpos p~1) with (j + 1 + Zpos p + Zpos p) by lia. auto.
  - destruct (IH j _ Hj Hdiv Hex) as [D2 E2].
    destruct (IH (j + Zpos p) _ ltac:(lia) D2 E2) as [D3 E3].
    replace (j + Zpos p~0) with (j + Zpos p + Zpos p) by lia. auto.
  - apply shr_1_step; assumption.
Qed.

(** [shr] from an exact record: the exponent grows by some [j], the
    mantissa is divided by [2 ^ j]. *)
Lemma shr_exact (m e n : Z) : 0 <= m ->
  exists j, 0 <= j /\ j = Z.max 0 n /\
    snd (shr (shr_record_of_loc m loc_Exact) e n) = e + j /\
    shr_m (fst (shr (shr_record_of_loc m loc_Exact) e n)) = m / 2 ^ j /\
    (m mod 2 ^ j = 0 ->
     loc_of_shr_record (fst (shr (shr_record_of_loc m loc_Exact) e n)) = loc_Exact).
Proof.
  intros Hm. unfold shr. destruct n as [|p|p].
  - exists 0. cbn. rewrite Z.div_1_r. repeat split; auto; lia.
  - exists (Zpos p). cbn [fst snd].
    destruct (iter_shr_1 m p Hm 0 (shr_record_of_loc m loc_Exact) ltac:(lia))
      as [D E].
    + cbn. rewrite Z.div_1_r. reflexivity.
    + cbn. auto.
    + rewrite Z.add_0_l in D, E. repeat split; auto; try lia.
      intros H0. destruct (E H0) as [Hr Hs].
      destruct (SpecFloat.iter_pos shr_1 p _) as [mm r s]. cbn in Hr, Hs. subst. reflexivity.
  - exists 0. cbn. rewrite Z.div_1_r. repeat split; auto; lia.
Qed.

Lemma round_nearest_even_cases (m : Z) (l : location) :
  (round_nearest_even m l = m \/ round_nearest_even m l = m + 1) /\
  (l = loc_Exact -> round_nearest_even m l = m).
Proof.
  destruct l as [|[| |]]; cbn [round_nearest_even].
  - split; auto.
  - destruct (Z.even m); split; auto; discriminate.
  - split; auto.
  - split; [auto|discriminate].
Qed.

Lemma digits2_pos_lower (m : positive) : 2 ^ (Zpos (digits2_pos m) - 1) <= Zpos m.
Proof.
  induction m as [m IH|m IH|]; cbn [digits2_pos]; [| |cbn; lia].
  - rewrite Pos2Z.inj_succ, Pos2Z.inj_xI.
    replace (Z.succ (Zpos (digits2_pos m)) - 1)
      with (Zpos (digits2_pos m) - 1 + 1) by lia.
    rewrite pow2_split, Z.pow_1_r by lia. lia.
  - rewrite Pos2Z.inj_succ, Pos2Z.inj_xO.
    replace (Z.succ (Zpos (digits2_pos m)) - 1)
      with (Zpos (digits2_pos m) - 1 + 1) by lia.
    rewrite pow2_split, Z.pow_1_r by lia. lia.
Qed.

Lemma digits2_pos_upper (m : positive) : Zpos m < 2 ^ Zpos (digits2_pos m).
Proof.
  induction m as [m IH|m IH|]; cbn [digits2_pos]; [| |cbn; lia].
  - rewrite Pos2Z.inj_succ, Pos2Z.inj_xI, Z.pow_succ_r by lia. lia.
  - rewrite Pos2Z.inj_succ, Pos2Z.inj_xO, Z.pow_succ_r by lia. lia.
Qed.

(** Dividing a mantissa by [2 ^ j] and rounding it keeps it below a
    power of two that the shifted exponent can still express. *)
Lemma round_below_pow2 (m e k j m2 : Z) :
  0 <= m <= 2 ^ (k - e) -> 0 <= j -> e + j <= k ->
  (m2 = m / 2 ^ j \/ m2 = m / 2 ^ j + 1) ->
  (m mod 2 ^ j = 0 -> m2 = m / 2 ^ j) ->
  0 <= m2 <= 2 ^ (k - (e + j)).
Proof.
  intros Hm Hj Hk Hm2 Hex.
  assert (Hp : 0 < 2 ^ j) by (apply pow2_pos; lia).
  assert (Hq : 0 < 2 ^ (k - (e + j))) by (apply pow2_pos; lia).
  assert (Hs : 2 ^ (k - e) = 2 ^ (k - (e + j)) * 2 ^ j).
  { rewrite <- pow2_split by lia. f_equal. lia. }
  assert (Hd : 0 <= m / 2 ^ j <= 2 ^ (k - (e + j))).
  { split; [apply Z.div_pos; lia|].
    apply Z.div_le_upper_bound; [lia|]. rewrite Z.mul_comm. lia. }
  destruct (Z.eq_dec (m / 2 ^ j) (2 ^ (k - (e + j)))) as [Heq|Hne].
  - assert (m = 2 ^ (k - e)).
    { pose proof (Z.mul_div_le m (2 ^ j) Hp). nia. }
    rewrite Hex; [lia|]. subst m. rewrite Hs. apply Z.mod_mul. lia.
  - destruct Hm2; lia.
Qed.

Lemma shift_below_pow2 (m e k j : Z) :
  0 <= m <= 2 ^ (k - e) -> e <= k -> 0 <= j ->
  m / 2 ^ j = 0 \/ (e + j <= k /\ 0 < m / 2 ^ j <= 2 ^ (k - (e + j))).
Proof.
  intros Hm Hk Hj.
  assert (Hp : 0 < 2 ^ j) by (apply pow2_pos; lia).
  destruct (Z_lt_le_dec k (e + j)) as [Hlt|Hle].
  - left. apply Z.div_small. split; [lia|].
    eapply Z.le_lt_trans; [apply Hm|]. apply Z.pow_lt_mono_r; lia.
  - assert (0 <= m / 2 ^ j) by (apply Z.div_pos; lia).
    destruct (Z.eq_dec (m / 2 ^ j) 0); [auto|right].
    split; [lia|]. split; [lia|].
    apply Z.div_le_upper_bound; [lia|]. rewrite <- pow2_split by lia.
    replace (j + (k - (e + j))) with (k - e) by lia. lia.
Qed.

(** Rounding a positive mantissa whose value is at most [2 ^ k] gives a
    zero or a finite positive float that is at most [2 ^ k]. *)
Lemma binary_round_aux_at_most (mz : positive) (ez k : Z) :
  -1074 <= k <= 971 -> ez <= k -> Zpos mz <= 2 ^ (k - ez) ->
  at_most_pow2 k (binary_round_aux prec emax false (Zpos mz) ez loc_Exact).
Proof.
  intros Hk Hez Hmz. unfold binary_round_aux, shr_fexp.
  set (n := fexp prec emax (Zdigits2 (Zpos mz) + ez) - ez).
  destruct (shr_exact (Zpos mz) ez n ltac:(lia))
    as (j & Hj & Hjn & He1 & Hm1 & Hx1).
  destruct (shr (shr_record_of_loc (Zpos mz) loc_Exact) ez n) as [mrs1 e1].
  cbn [fst snd] in *.
  destruct (round_nearest_even_cases (shr_m mrs1) (loc_of_shr_record mrs1))
    as [Hr Hrx].
  set (m2 := round_nearest_even (shr_m mrs1) (loc_of_shr_record mrs1)) in *.
  assert (Hle1 : ez + j <= k).
  { subst j n.
    unfold fexp, SpecFloat.emin, prec, emax, Zdigits2.
    pose proof (digits2_pos_lower mz) as Hd.
    assert (Zpos (digits2_pos mz) - 1 <= k - ez).
    { apply (Z.pow_le_mono_r_iff 2); lia. }
    lia. }
  assert (Hm2 : 0 <= m2 <= 2 ^ (k - e1)).
  { subst e1. apply (round_below_pow2 (Zpos mz)); [lia|lia|lia| |].
    - rewrite <- Hm1. exact Hr.
    - intros H0. rewrite <- Hm1. apply Hrx, Hx1, H0. }
  set (n2 := fexp prec emax (Zdigits2 m2 + e1) - e1).
  destruct (shr_exact m2 e1 n2 ltac:(lia)) as (j2 & Hj2 & _ & He2 & Hm3 & _).
  destruct (shr (shr_record_of_loc m2 loc_Exact) e1 n2) as [mrs2 e2].
  cbn [fst snd] in *.
  destruct (shift_below_pow2 m2 e1 k j2 Hm2 ltac:(lia) Hj2) as [H0|(Hle2 & Hpos & Hub)].
  - rewrite Hm3, H0. exact I.
  - rewrite Hm3. destruct (m2 / 2 ^ j2) as [|m3|m3] eqn:E3; try lia.
    assert (Hemax : (e2 <=? emax - prec) = true).
    { apply Z.leb_le. unfold emax, prec. lia. }
    rewrite Hemax. cbn. subst e2. auto.
Qed.

Lemma iter_xO (m d : positive) : Zpos (Pos.iter xO m d) = Zpos m * 2 ^ Zpos d.
Proof.
  induction d as [|d IH] using Pos.peano_ind.
  - cbn. lia.
  - rewrite Pos.iter_succ, Pos2Z.inj_xO, IH, Pos2Z.inj_succ, Z.pow_succ_r by lia.
    lia.
Qed.

Lemma shl_align_spec (mx : positive) (ex ex' : Z) :
  snd (shl_align mx ex ex') <= ex /\
  (ex' <= ex -> snd (shl_align mx ex ex') = ex') /\
  Zpos (fst (shl_align mx ex ex')) = Zpos mx * 2 ^ (ex - snd (shl_align mx ex ex')).
Proof.
  unfold shl_align. destruct (ex' - ex) as [|d|d] eqn:E; cbn [fst snd].
  - rewrite Z.sub_diag. cbn. lia.
  - rewrite Z.sub_diag. cbn. lia.
  - rewrite iter_xO. replace (ex - ex') with (Zpos d) by lia. lia.
Qed.

Lemma binary_round_at_most (m : positive) (e k : Z) :
  -1074 <= k <= 971 -> e <= k -> Zpos m <= 2 ^ (k - e) ->
  at_most_pow2 k (binary_round prec emax false m e).
Proof.
  intros Hk He Hm. unfold binary_round.
  destruct (shl_align_spec m e (fexp prec emax (Zpos (digits2_pos m) + e)))
    as (Hle & _ & Hmz).
  destruct (shl_align m e _) as [mz ez]. cbn [fst snd] in *.
  apply binary_round_aux_at_most; [exact Hk|lia|].
  rewrite Hmz. replace (k - ez) with (k - e + (e - ez)) by lia.
  rewrite pow2_split by lia.
  apply Z.mul_le_mono_nonneg_r; [apply Z.pow_nonneg|]; lia.
Qed.

(** A binary64 mantissa has at most 53 bits, and exactly 53 above the
    least exponent. *)
Lemma valid_binary_digits (s : bool) (m : positive) (e : Z) :
  valid_binary (S754_finite s m e) = true ->
  Zpos m < 2 ^ 53 /\ -1074 <= e /\ (-1074 < e -> 2 ^ 52 <= Zpos m).
Proof.
  unfold SpecFloat.valid_binary, bounded, canonical_mantissa, fexp,
    SpecFloat.emin, prec, emax.
  intros H. apply andb_true_iff in H. destruct H as [H _].
  apply Z.eqb_eq in H.
  pose proof (digits2_pos_upper m) as Hu.
  pose proof (digits2_pos_lower m) as Hl.
  split; [|split; [lia|]].
  - eapply Z.lt_le_trans; [exact Hu|]. apply Z.pow_le_mono_r; lia.
  - intros He. replace (Zpos (digits2_pos m)) with 53 in Hl by lia. exact Hl.
Qed.

(** [1.0 - t] for [0.0 <= t <= 1.0] is a zero or lies in (0, 1]. *)
Lemma one_minus_at_most (t : float) :
  in_unit_interval t -> at_most_pow2 0 (Prim2SF (1 - t)%float).
Proof.
  intros [H0 H1]. rewrite leb_spec in H0, H1. rewrite sub_spec.
  pose proof (Prim2SF_valid t) as Hv.
  change (Prim2SF 0%float) with (S754_zero false) in H0.
  change (Prim2SF 1%float) with (S754_finite false 4503599627370496 (-52)) in *.
  destruct (Prim2SF t) as [s|s| |s m e].
  - cbn. split; [lia|]. cbn. lia.
  - destruct s; discriminate.
  - discriminate.
  - destruct s; [discriminate|].
    apply valid_binary_digits in Hv. destruct Hv as (Hm & He & _).
    unfold SFleb, SFcompare in H1.
    assert (Hle : e <= -52 /\ Zpos m <= 2 ^ (- e)).
    { destruct (Z.compare_spec e (-52)) as [->|Hlt|Hgt]; [| |discriminate].
      - split; [lia|].
        rewrite Pos.compare_cont_spec in H1.
        change (2 ^ (- -52)) with 4503599627370496.
        destruct (Pos.compare_spec m 4503599627370496) as [Heq|Hl|Hg];
          cbn [Pos.switch_Eq] in H1; [| |discriminate H1].
        + rewrite Heq. apply Z.le_refl.
        + apply Z.lt_le_incl, Pos2Z.pos_lt_pos, Hl.
      - split; [lia|].
        assert (2 ^ 53 <= 2 ^ (- e)) by (apply Z.pow_le_mono_r; lia). lia. }
    destruct Hle as [He52 Hme]. clear H0 H1.
    unfold SF64sub, SFsub, cond_Zopp.
    rewrite Z.min_r by lia.
    destruct (shl_align_spec 4503599627370496 (-52) e) as (_ & E1 & V1).
    destruct (shl_align_spec m e e) as (_ & E2 & V2).
    rewrite E1 in V1 by lia. rewrite E2, Z.sub_diag in V2 by lia.
    rewrite V1, V2.
    assert (Hone : 4503599627370496 * 2 ^ (-52 - e) = 2 ^ (- e)).
    { change 4503599627370496 with (2 ^ 52). rewrite <- pow2_split by lia.
      f_equal. lia. }
    rewrite Hone, Z.pow_0_r, Z.mul_1_r.
    destruct (2 ^ (- e) - Zpos m) as [|p|p] eqn:Ed; cbn [binary_normalize]; try lia.
    + exact I.
    + apply binary_round_at_most; [lia|lia|]. rewrite Z.sub_0_l. lia.
Qed.

(** Multiplying such a value by 256 gives a zero or a value in (0, 256]. *)
Lemma times_256_at_most (x : float) :
  at_most_pow2 0 (Prim2SF x) ->
  at_most_pow2 8 (Prim2SF (x * float_of_nat (_HASH_SIZE * _HASH_SIZE))%float).
Proof.
  rewrite mul_spec.
  change (Prim2SF (float_of_nat (_HASH_SIZE * _HASH_SIZE)))
    with (S754_finite false 4503599627370496 (-44)).
  destruct (Prim2SF x) as [s|s| |s m e]; cbn [at_most_pow2]; try contradiction.
  - intros _. exact I.
  - destruct s; [contradiction|]. intros [He Hm].
    unfold SF64mul, SFmul. cbn [xorb].
    apply binary_round_aux_at_most; [lia|lia|].
    rewrite Pos2Z.inj_mul. change (Zpos 4503599627370496) with (2 ^ 52).
    replace (8 - (e + -44)) with (0 - e + 52) by lia.
    rewrite pow2_split by lia.
    apply Z.mul_le_mono_nonneg_r; lia.
Qed.

(** [int(x)] of such a value. *)
Lemma int_of_float_at_most (k : Z) (x : float) :
  0 <= k -> at_most_pow2 k (Prim2SF x) ->
  exists m, int_of_float x = Ok m /\ 0 <= m <= 2 ^ k.
Proof.
  intros Hk. unfold int_of_float.
  destruct (Prim2SF x) as [s|s| |s m e]; cbn [at_most_pow2]; try contradiction.
  - intros _. exists 0. split; [reflexivity|]. pose proof (pow2_pos k Hk). lia.
  - destruct s; [contradiction|]. intros [He Hm].
    eexists. split; [reflexivity|]. cbn [cond_Zopp].
    destruct (Z_lt_le_dec e 0) as [Hneg|Hpos].
    + rewrite Z.shiftl_div_pow2 by lia.
      assert (Hp : 0 < 2 ^ (- e)) by (apply pow2_pos; lia).
      split; [apply Z.div_pos; lia|].
      apply Z.div_le_upper_bound; [lia|]. rewrite <- pow2_split by lia.
      replace (- e + k) with (k - e) by lia. exact Hm.
    + rewrite Z.shiftl_mul_pow2 by lia.
      assert (Hp : 0 < 2 ^ e) by (apply pow2_pos; lia).
      split; [lia|].
      replace (2 ^ k) with (2 ^ (k - e) * 2 ^ e)
        by (rewrite <- pow2_split by lia; f_equal; lia).
      apply Z.mul_le_mono_nonneg_r; lia.
Qed.

(** ** The cutoff of a threshold in the unit interval *)

Lemma max_dist_of_unit (t : float) :
  in_unit_interval t ->
  exists m, max_dist_of t = Ok m /\ 0 <= m <= hash_bits.
Proof.
  intros Ht. unfold max_dist_of.
  apply (int_of_float_at_most 8); [lia|].
  apply times_256_at_most, one_minus_at_most, Ht.
Qed.

(** ** Thresholds outside the unit interval *)

(** Rounding keeps the sign and never gives NaN. *)
Lemma binary_round_aux_sign (s : bool) (mz : positive) (ez : Z) :
  match binary_round_aux prec emax s (Zpos mz) ez loc_Exact with
  | S754_zero s' | S754_infinity s' | S754_finite s' _ _ => s' = s
  | S754_nan => False
  end.
Proof.
  unfold binary_round_aux, shr_fexp.
  set (n := fexp prec emax (Zdigits2 (Zpos mz) + ez) - ez).
  destruct (shr_exact (Zpos mz) ez n ltac:(lia)) as (j & Hj & _ & _ & Hm1 & _).
  destruct (shr (shr_record_of_loc (Zpos mz) loc_Exact) ez n) as [mrs1 e1].
  cbn [fst snd] in *.
  destruct (round_nearest_even_cases (shr_m mrs1) (loc_of_shr_record mrs1))
    as [Hr _].
  set (m2 := round_nearest_even (shr_m mrs1) (loc_of_shr_record mrs1)) in *.
  assert (Hm2 : 0 <= m2).
  { assert (0 <= Zpos mz / 2 ^ j) by (apply Z.div_pos; [lia|apply pow2_pos; lia]).
    lia. }
  set (n2 := fexp prec emax (Zdigits2 m2 + e1) - e1).
  destruct (shr_exact m2 e1 n2 Hm2) as (j2 & Hj2 & _ & _ & Hm3 & _).
  destruct (shr (shr_record_of_loc m2 loc_Exact) e1 n2) as [mrs2 e2].
  cbn [fst snd] in *.
  assert (0 <= shr_m mrs2).
  { rewrite Hm3. apply Z.div_pos; [lia|apply pow2_pos; lia]. }
  destruct (shr_m mrs2) as [|m3|m3]; [reflexivity| |lia].
  destruct (e2 <=? emax - prec); reflexivity.
Qed.

Lemma binary_round_sign (s : bool) (m : positive) (e : Z) :
  match binary_round prec emax s m e with
  | S754_zero s' | S754_infinity s' | S754_finite s' _ _ => s' = s
  | S754_nan => False
  end.
Proof.
  unfold binary_round. destruct (shl_align m e _) as [mz ez].
  apply binary_round_aux_sign.
Qed.

(** [1.0 - t] for [t > 1.0] is not positive. *)
Lemma one_minus_not_positive (t : float) :
  PrimFloat.ltb 1%float t = true -> not_positive (Prim2SF (1 - t)%float).
Proof.
  intros H1. rewrite ltb_spec in H1. rewrite sub_spec.
  pose proof (Prim2SF_valid t) as Hv.
  change (Prim2SF 1%float) with (S754_finite false 4503599627370496 (-52)) in *.
  destruct (Prim2SF t) as [s|s| |s m e].
  - destruct s; discriminate.
  - destruct s; [discriminate|exact I].
  - discriminate.
  - destruct s; [discriminate|].
    apply valid_binary_digits in Hv. destruct Hv as (Hm & He & Hnorm).
    unfold SFltb, SFcompare in H1.
    assert (Hgt : -52 <= e /\ 2 ^ 52 < Zpos m * 2 ^ (e + 52)).
    { destruct (Z.compare_spec (-52) e) as [Heq|Hlt|Hgt]; [| |discriminate].
      - subst e. split; [lia|].
        rewrite Pos.compare_cont_spec in H1.
        change (2 ^ (-52 + 52)) with 1. rewrite Z.mul_1_r.
        destruct (Pos.compare_spec 4503599627370496 m) as [Heq|Hl|Hg];
          cbn [Pos.switch_Eq] in H1; try discriminate H1.
        apply Pos2Z.pos_lt_pos, Hl.
      - split; [lia|].
        specialize (Hnorm ltac:(lia)).
        assert (2 ^ 1 <= 2 ^ (e + 52)) by (apply Z.pow_le_mono_r; lia).
        change (2 ^ 1) with 2 in *. change (2 ^ 52) with 4503599627370496 in *.
        nia. }
    destruct Hgt as [He52 Hbig]. clear H1.
    unfold SF64sub, SFsub, cond_Zopp.
    rewrite Z.min_l by lia.
    destruct (shl_align_spec 4503599627370496 (-52) (-52)) as (_ & E1 & V1).
    destruct (shl_align_spec m e (-52)) as (_ & E2 & V2).
    rewrite E1, Z.sub_diag in V1 by lia. rewrite E2 in V2 by lia.
    rewrite V1, V2. replace (e - -52) with (e + 52) by lia.
    change (Zpos 4503599627370496 * 2 ^ 0) with (2 ^ 52).
    destruct (2 ^ 52 - Zpos m * 2 ^ (e + 52)) as [|p|p] eqn:Ed;
      cbn [binary_normalize]; try lia.
    pose proof (binary_round_sign true p (-52)) as Hs.
    destruct (binary_round prec emax true p (-52)) as [s|s| |s m' e'];
      try contradiction; subst s; exact I.
Qed.

Lemma times_256_not_positive (x : float) :
  not_positive (Prim2SF x) ->
  not_positive (Prim2SF (x * float_of_nat (_HASH_SIZE * _HASH_SIZE))%float).
Proof.
  rewrite mul_spec.
  change (Prim2SF (float_of_nat (_HASH_SIZE * _HASH_SIZE)))
    with (S754_finite false 4503599627370496 (-44)).
  destruct (Prim2SF x) as [s|s| |s m e]; cbn [not_positive]; try contradiction.
  - intros _. exact I.
  - destruct s; [|contradiction]. intros _. exact I.
  - destruct s; [|contradiction]. intros _.
    unfold SF64mul, SFmul. cbn [xorb].
    pose proof (binary_round_aux_sign true (m * 4503599627370496) (e + -44))
      as Hs.
    destruct (binary_round_aux prec emax true _ _ loc_Exact) as [s|s| |s m' e'];
      try contradiction; subst s; exact I.
Qed.

(** [int(x)] of such a value: zero or negative, unless [x] is infinite. *)
Lemma int_of_float_not_positive (x : float) :
  not_positive (Prim2SF x) ->
  int_of_float x = Raise OverflowError \/
  exists m, int_of_float x = Ok m /\ m <= 0.
Proof.
  unfold int_of_float.
  destruct (Prim2SF x) as [s|s| |s m e]; cbn [not_positive]; try contradiction.
  - intros _. right. exists 0. split; [reflexivity|lia].
  - intros _. left. reflexivity.
  - destruct s; [|contradiction]. intros _. right.
    eexists. split; [reflexivity|]. cbn [cond_Zopp].
    assert (0 <= Z.shiftl (Zpos m) e) by (apply Z.shiftl_nonneg; lia). lia.
Qed.

(** Dividing a mantissa by [2 ^ j] keeps it above a power of two that
    the shifted exponent can express. *)
Lemma shift_above_pow2 (m e k j : Z) :
  (e <= k -> 2 ^ (k - e) <= m) -> 0 <= j -> e + j <= k ->
  2 ^ (k - (e + j)) <= m / 2 ^ j.
Proof.
  intros Hm Hj Hk.
  assert (Hp : 0 < 2 ^ j) by (apply pow2_pos; lia).
  apply Z.div_le_lower_bound; [lia|].
  rewrite <- pow2_split by lia.
  replace (j + (k - (e + j))) with (k - e) by lia. apply Hm. lia.
Qed.

(** A mantissa shifted down to 53 bits does not vanish. *)
Lemma shift_to_precision (m : positive) (j : Z) :
  0 <= j <= Zpos (digits2_pos m) - 53 -> 1 <= Zpos m / 2 ^ j.
Proof.
  intros Hj. pose proof (digits2_pos_lower m) as Hl.
  assert (Hp : 0 < 2 ^ j) by (apply pow2_pos; lia).
  apply Z.div_le_lower_bound; [lia|]. rewrite Z.mul_1_r.
  eapply Z.le_trans; [|exact Hl]. apply Z.pow_le_mono_r; lia.
Qed.

(** One shift of [shr_fexp], on a mantissa whose value is at least
    [2 ^ k]. *)
Lemma shr_fexp_above (m : positive) (e k : Z) :
  -1074 <= k ->
  (e <= k -> 2 ^ (k - e) <= Zpos m) ->
  let j := Z.max 0 (fexp prec emax (Zdigits2 (Zpos m) + e) - e) in
  (e + j <= k -> 2 ^ (k - (e + j)) <= Zpos m / 2 ^ j) /\
  (k < e + j -> 1 <= Zpos m / 2 ^ j).
Proof.
  intros Hk Hm j. split.
  - intros Hle. apply shift_above_pow2; [exact Hm|subst j; lia|exact Hle].
  - intros Hlt. subst j.
    unfold fexp, SpecFloat.emin, prec, emax, Zdigits2 in *.
    destruct (Z.max_spec 0
                (Z.max (Zpos (digits2_pos m) + e - 53) (3 - 1024 - 53) - e))
      as [[Hc Hj]|[Hc Hj]]; rewrite Hj in *.
    + apply shift_to_precision. lia.
    + rewrite Z.pow_0_r, Z.div_1_r. lia.
Qed.

(** Rounding a positive mantissa whose value is at least [2 ^ k] gives
    plus infinity or a finite positive float that is at least [2 ^ k]. *)
Lemma binary_round_aux_at_least (mz : positive) (ez k : Z) :
  -1074 <= k ->
  (ez <= k -> 2 ^ (k - ez) <= Zpos mz) ->
  at_least_pow2 k (binary_round_aux prec emax false (Zpos mz) ez loc_Exact).
Proof.
  intros Hk Hmz. unfold binary_round_aux, shr_fexp.
  pose proof (shr_fexp_above mz ez k Hk Hmz) as Habove. cbv zeta in Habove.
  set (n := fexp prec emax (Zdigits2 (Zpos mz) + ez) - ez) in *.
  destruct (shr_exact (Zpos mz) ez n ltac:(lia))
    as (j & Hj & Hjn & He1 & Hm1 & _).
  rewrite <- Hjn in Habove.
  destruct (shr (shr_record_of_loc (Zpos mz) loc_Exact) ez n) as [mrs1 e1].
  cbn [fst snd] in *.
  destruct (round_nearest_even_cases (shr_m mrs1) (loc_of_shr_record mrs1))
    as [Hr _].
  set (m2 := round_nearest_even (shr_m mrs1) (loc_of_shr_record mrs1)) in *.
  rewrite <- Hm1, <- He1 in Habove. destruct Habove as [Hlow Hone].
  assert (Hm2 : (e1 <= k -> 2 ^ (k - e1) <= m2) /\ 1 <= m2).
  { assert (0 < 2 ^ (k - e1) \/ k < e1).
    { destruct (Z_lt_le_dec k e1); [auto|left; apply pow2_pos; lia]. }
    split; [intros Hle; specialize (Hlow Hle); lia|].
    destruct (Z_lt_le_dec k e1) as [Hlt|Hle].
    - specialize (Hone Hlt). lia.
    - specialize (Hlow Hle). pose proof (pow2_pos (k - e1) ltac:(lia)). lia. }
  destruct Hm2 as [Hlow2 Hpos2].
  destruct m2 as [|p2|p2] eqn:Em2; try lia.
  pose proof (shr_fexp_above p2 e1 k Hk Hlow2) as Habove2. cbv zeta in Habove2.
  set (n2 := fexp prec emax (Zdigits2 (Zpos p2) + e1) - e1) in *.
  destruct (shr_exact (Zpos p2) e1 n2 ltac:(lia))
    as (j2 & Hj2 & Hjn2 & He2 & Hm3 & _).
  rewrite <- Hjn2 in Habove2.
  destruct (shr (shr_record_of_loc (Zpos p2) loc_Exact) e1 n2) as [mrs2 e2].
  cbn [fst snd] in *.
  rewrite <- Hm3, <- He2 in Habove2. destruct Habove2 as [Hlow3 Hone3].
  assert (Hpos3 : 1 <= shr_m mrs2).
  { destruct (Z_lt_le_dec k e2) as [Hlt|Hle]; [apply Hone3, Hlt|].
    specialize (Hlow3 Hle). pose proof (pow2_pos (k - e2) ltac:(lia)). lia. }
  destruct (shr_m mrs2) as [|m3|m3]; try lia.
  destruct (e2 <=? emax - prec); cbn [at_least_pow2]; auto.
Qed.

Lemma binary_round_at_least (m : positive) (e k : Z) :
  -1074 <= k -> (e <= k -> 2 ^ (k - e) <= Zpos m) ->
  at_least_pow2 k (binary_round prec emax false m e).
Proof.
  intros Hk Hm. unfold binary_round.
  destruct (shl_align_spec m e (fexp prec emax (Zpos (digits2_pos m) + e)))
    as (Hle & _ & Hmz).
  destruct (shl_align m e _) as [mz ez]. cbn [fst snd] in *.
  apply binary_round_aux_at_least; [exact Hk|].
  intros Hez. rewrite Hmz.
  assert (Hp : 0 < 2 ^ (e - ez)) by (apply pow2_pos; lia).
  destruct (Z_lt_le_dec k e) as [Hlt|Hek].
  - eapply Z.le_trans; [apply (Z.pow_le_mono_r 2 (k - ez) (e - ez)); lia|]. nia.
  - replace (k - ez) with (k - e + (e - ez)) by lia.
    rewrite pow2_split by lia.
    apply Z.mul_le_mono_nonneg_r; [lia|apply Hm, Hek].
Qed.

(** [1.0 - t] for [t < 0.0] is at least 1, or plus infinity. *)
Lemma one_minus_at_least (t : float) :
  PrimFloat.ltb t 0%float = true -> at_least_pow2 0 (Prim2SF (1 - t)%float).
Proof.
  intros H0. rewrite ltb_spec in H0. rewrite sub_spec.
  change (Prim2SF 0%float) with (S754_zero false) in H0.
  change (Prim2SF 1%float) with (S754_finite false 4503599627370496 (-52)) in *.
  destruct (Prim2SF t) as [s|s| |s m e].
  - discriminate.
  - destruct s; [exact I|discriminate].
  - discriminate.
  - destruct s; [|discriminate]. clear H0.
    unfold SF64sub, SFsub, cond_Zopp.
    set (ez := Z.min (-52) e).
    destruct (shl_align_spec 4503599627370496 (-52) ez) as (_ & E1 & V1).
    destruct (shl_align_spec m e ez) as (_ & E2 & V2).
    rewrite E1 in V1 by (subst ez; lia). rewrite E2 in V2 by (subst ez; lia).
    rewrite V1, V2.
    assert (Hone : 4503599627370496 * 2 ^ (-52 - ez) = 2 ^ (- ez)).
    { change 4503599627370496 with (2 ^ 52).
      rewrite <- pow2_split by (subst ez; lia). f_equal. lia. }
    rewrite Hone.
    assert (Hq : 0 < 2 ^ (- ez)) by (apply pow2_pos; subst ez; lia).
    assert (Hr : 0 < Zpos m * 2 ^ (e - ez)).
    { apply Z.mul_pos_pos; [lia|apply pow2_pos; subst ez; lia]. }
    destruct (2 ^ (- ez) - - (Zpos m * 2 ^ (e - ez))) as [|p|p] eqn:Ed;
      cbn [binary_normalize]; try lia.
    apply binary_round_at_least; [lia|].
    intros _. rewrite Z.sub_0_l. lia.
Qed.

Lemma times_256_at_least (x : float) :
  at_least_pow2 0 (Prim2SF x) ->
  at_least_pow2 8 (Prim2SF (x * float_of_nat (_HASH_SIZE * _HASH_SIZE))%float).
Proof.
  rewrite mul_spec.
  change (Prim2SF (float_of_nat (_HASH_SIZE * _HASH_SIZE)))
    with (S754_finite false 4503599627370496 (-44)).
  destruct (Prim2SF x) as [s|s| |s m e]; cbn [at_least_pow2]; try contradiction.
  - destruct s; [contradiction|]. intros _. exact I.
  - destruct s; [contradiction|]. intros [Hlow Hone].
    unfold SF64mul, SFmul. cbn [xorb].
    apply binary_round_aux_at_least; [lia|].
    intros He. rewrite Pos2Z.inj_mul. change (Zpos 4503599627370496) with (2 ^ 52).
    destruct (Z_lt_le_dec 0 e) as [Hpos|Hneg].
    + specialize (Hone Hpos).
      eapply Z.le_trans; [apply (Z.pow_le_mono_r 2 _ 52); lia|].
      assert (0 < 2 ^ 52) by (apply pow2_pos; lia). nia.
    + specialize (Hlow Hneg).
      replace (8 - (e + -44)) with (0 - e + 52) by lia.
      rewrite pow2_split by lia.
      apply Z.mul_le_mono_nonneg_r; lia.
Qed.

(** [int(x)] of a value that is at least [2 ^ k]. *)
Lemma int_of_float_at_least (k : Z) (x : float) :
  0 <= k -> at_least_pow2 k (Prim2SF x) ->
  int_of_float x = Raise OverflowError \/
  exists m, int_of_float x = Ok m /\ 2 ^ k <= m.
Proof.
  intros Hk. unfold int_of_float.
  destruct (Prim2SF x) as [s|s| |s m e]; cbn [at_least_pow2]; try contradiction.
  - intros _. left. reflexivity.
  - destruct s; [contradiction|]. intros [Hlow Hone]. right.
    eexists. split; [reflexivity|]. cbn [cond_Zopp].
    destruct (Z_lt_le_dec e 0) as [Hneg|Hpos].
    + rewrite Z.shiftl_div_pow2 by lia.
      assert (Hp : 0 < 2 ^ (- e)) by (apply pow2_pos; lia).
      apply Z.div_le_lower_bound; [lia|]. rewrite <- pow2_split by lia.
      replace (- e + k) with (k - e) by lia. apply Hlow. lia.
    + rewrite Z.shiftl_mul_pow2 by lia.
      assert (Hp : 0 < 2 ^ e) by (apply pow2_pos; lia).
      destruct (Z_lt_le_dec k e) as [Hlt|Hle].
      * specialize (Hone Hlt).
        assert (2 ^ k <= 2 ^ e) by (apply Z.pow_le_mono_r; lia). nia.
      * specialize (Hlow Hle).
        replace (2 ^ k) with (2 ^ (k - e) * 2 ^ e)
          by (rewrite <- pow2_split by lia; f_equal; lia).
        apply Z.mul_le_mono_nonneg_r; lia.
Qed.

(** The cutoff of a threshold above 1.0, of one below 0.0, and of NaN. *)
Lemma max_dist_of_above_one (t : float) :
  PrimFloat.ltb 1%float t = true ->
  max_dist_of t = Raise OverflowError \/
  exists m, max_dist_of t = Ok m /\ m <= 0.
Proof.
  intros Ht. unfold max_dist_of.
  apply int_of_float_not_positive, times_256_not_positive,
    one_minus_not_positive, Ht.
Qed.

Lemma max_dist_of_below_zero (t : float) :
  PrimFloat.ltb t 0%float = true ->
  max_dist_of t = Raise OverflowError \/
  exists m, max_dist_of t = Ok m /\ hash_bits <= m.
Proof.
  intros Ht. unfold max_dist_of.
  apply (int_of_float_at_least 8); [lia|].
  apply times_256_at_least, one_minus_at_least, Ht.
Qed.

Lemma max_dist_of_nan (t : float) :
  Prim2SF t = S754_nan -> max_dist_of t = Raise ValueError.
Proof.
  intros Ht. unfold max_dist_of, int_of_float.
  rewrite mul_spec, sub_spec, Ht.
  change (Prim2SF 1%float) with (S754_finite false 4503599627370496 (-52)).
  reflexivity.
Qed.

(** A float outside [0.0, 1.0] is NaN, above 1.0 or below 0.0. *)
Lemma outside_unit_cases (t : float) :
  ~ in_unit_interval t ->
  Prim2SF t = S754_nan \/ PrimFloat.ltb 1%float t = true \/
  PrimFloat.ltb t 0%float = true.
Proof.
  unfold in_unit_interval. rewrite !leb_spec, !ltb_spec.
  change (Prim2SF 0%float) with (S754_zero false).
  change (Prim2SF 1%float) with (S754_finite false 4503599627370496 (-52)).
  intros Hout.
  destruct (Prim2SF t) as [s|s| |s m e]; [| |auto|].
  - exfalso. apply Hout. destruct s; split; reflexivity.
  - destruct s; [right; right; reflexivity|right; left; reflexivity].
  - destruct s; [right; right; reflexivity|]. right. left.
    unfold SFltb, SFleb, SFcompare in *.
    rewrite (Z.compare_antisym e (-52)).
    pose proof (Pos.compare_cont_antisym m 4503599627370496 Eq) as Hanti.
    change (CompOpp Eq) with Eq in Hanti. rewrite <- Hanti. clear Hanti.
    destruct (e ?= -52); cbn [CompOpp] in *.
    + destruct (Pos.compare_cont Eq m 4503599627370496); cbn [CompOpp];
        try reflexivity; exfalso; apply Hout; split; reflexivity.
    + exfalso. apply Hout. split; reflexivity.
    + reflexivity.
Qed.

(** ** The pass, read recursively *)

Lemma readable_true (P : pillow) (p : string) :
  readable P p = true <-> exists h, try_phash P p = Some h.
Proof.
  unfold readable. destruct (try_phash P p) as [h|]; split; intros H;
    try discriminate; eauto.
  destruct H as [h H]. discriminate.
Qed.

Lemma readable_false (P : pillow) (p : string) :
  readable P p = false <-> try_phash P p = None.
Proof.
  unfold readable. destruct (try_phash P p); split; intros; congruence.
Qed.

(** Unreadable paths do not matter. *)
Lemma reduce_filter (P : pillow) (m : Z) (paths : list string) (b : option Z) :
  reduce P m b paths = reduce P m b (filter (readable P) paths).
Proof.
  revert b. induction paths as [|p ps IH]; intros b; [reflexivity|].
  cbn [reduce filter]. unfold readable at 1.
  destruct (try_phash P p) as [h|] eqn:E; [|apply IH].
  cbn [reduce]. rewrite E.
  destruct (match b with None => true | Some h0 => _hamming h h0 >? m end);
    [f_equal|]; apply IH.
Qed.

Lemma reduce_all_unreadable (P : pillow) (m : Z) (paths : list string)
    (b : option Z) :
  Forall (fun q => readable P q = false) paths -> reduce P m b paths = [].
Proof.
  induction 1 as [|p ps Hp _ IH]; [reflexivity|].
  cbn [reduce]. apply readable_false in Hp. rewrite Hp. exact IH.
Qed.

Lemma reduce_readable (P : pillow) (m : Z) (paths : list string) (b : option Z) :
  Forall (fun q => readable P q = true) (reduce P m b paths).
Proof.
  revert b. induction paths as [|p ps IH]; intros b; cbn [reduce]; [constructor|].
  destruct (try_phash P p) as [h|] eqn:E; [|apply IH].
  destruct (match b with None => true | Some h0 => _hamming h h0 >? m end);
    [|apply IH].
  constructor; [|apply IH]. apply readable_true. eauto.
Qed.

(** Without a baseline the first readable path is kept. *)
Lemma reduce_first (P : pillow) (m : Z) (p : string) (ps : list string) (h : Z) :
  try_phash P p = Some h ->
  reduce P m None (p :: ps) = p :: reduce P m (Some h) ps.
Proof. intros E. cbn [reduce]. rewrite E. reflexivity. Qed.

(** A negative cutoff keeps every readable path. *)
Lemma reduce_negative (P : pillow) (m : Z) (paths : list string) (b : option Z) :
  m < 0 -> reduce P m b paths = filter (readable P) paths.
Proof.
  intros Hm. revert b. induction paths as [|p ps IH]; intros b; [reflexivity|].
  cbn [reduce filter]. unfold readable at 1.
  destruct (try_phash P p) as [h|]; [|apply IH].
  replace (match b with None => true | Some h0 => _hamming h h0 >? m end)
    with true.
  - f_equal. apply IH.
  - destruct b as [h0|]; [|reflexivity]. symmetry. apply Z.gtb_lt.
    pose proof (hamming_nonneg h h0). lia.
Qed.

(** A cutoff of [hash_bits] or more keeps nothing after a baseline. *)
Lemma reduce_far (P : pillow) (m h0 : Z) (paths : list string) :
  hash_bits <= m -> 0 <= h0 < 2 ^ hash_bits -> reduce P m (Some h0) paths = [].
Proof.
  intros Hm H0. induction paths as [|p ps IH]; [reflexivity|].
  cbn [reduce]. destruct (try_phash P p) as [h|] eqn:E; [|exact IH].
  apply try_phash_range in E.
  replace (_hamming h h0 >? m) with false; [exact IH|].
  symmetry. rewrite Z.gtb_ltb. apply Z.ltb_ge.
  pose proof (hamming_le_bits hash_bits h h0 ltac:(cbn; lia) E H0). lia.
Qed.

Lemma reduce_far_first (P : pillow) (m : Z) (paths : list string) :
  hash_bits <= m ->
  reduce P m None paths = firstn 1 (filter (readable P) paths).
Proof.
  intros Hm. induction paths as [|p ps IH]; [reflexivity|].
  cbn [reduce filter]. unfold readable at 1.
  destruct (try_phash P p) as [h|] eqn:E; [|exact IH].
  cbn [firstn]. f_equal. apply reduce_far; [exact Hm|].
  apply try_phash_range in E. exact E.
Qed.

Lemma reduce_first_readable (P : pillow) (m : Z) (paths : list string) :
  (List.length (firstn 1 (filter (readable P) paths))
   <= List.length (reduce P m None paths))%nat.
Proof.
  induction paths as [|p ps IH]; [cbn; lia|].
  cbn [reduce filter]. unfold readable at 1.
  destruct (try_phash P p) as [h|]; [|exact IH].
  cbn. lia.
Qed.

(** Against cutoff 0 a non-negative cutoff keeps at most as many paths,
    from the same baseline, and at most one more from any other. *)
Lemma reduce_count_zero (P : pillow) (m : Z) (paths : list string) :
  0 <= m ->
  (forall b,
     (List.length (reduce P m b paths) <= List.length (reduce P 0 b paths))%nat) /\
  (forall b b',
     (List.length (reduce P m b paths)
      <= S (List.length (reduce P 0 b' paths)))%nat).
Proof.
  intros Hm. induction paths as [|p ps [IH1 IH2]]; [cbn; split; intros; lia|].
  cbn [reduce]. destruct (try_phash P p) as [h|]; [|split; intros; auto].
  split.
  - intros b. destruct b as [h0|].
    + destruct (Z.gtb_spec (_hamming h h0) m) as [Hfar|Hnear].
      * destruct (Z.gtb_spec (_hamming h h0) 0); [|lia].
        cbn [List.length]. specialize (IH1 (Some h)). lia.
      * destruct (Z.gtb_spec (_hamming h h0) 0).
        -- cbn [List.length]. apply IH2.
        -- apply IH1.
    + cbn [List.length]. specialize (IH1 (Some h)). lia.
  - intros b b'.
    assert (Hkeep : (List.length (p :: reduce P m (Some h) ps)
                     <= S (List.length
                             (if match b' with
                                 | None => true
                                 | Some h0 => _hamming h h0 >? 0
                                 end
                              then p :: reduce P 0 (Some h) ps
                              else reduce P 0 b' ps)))%nat).
    { cbn [List.length]. specialize (IH1 (Some h)).
      destruct b' as [h0|]; [|cbn [List.length]; lia].
      destruct (Z.gtb_spec (_hamming h h0) 0) as [|Hz]; [cbn [List.length]; lia|].
      assert (h = h0).
      { apply hamming_zero_eq. pose proof (hamming_nonneg h h0). lia. }
      subst h0. lia. }
    assert (Hskip : (List.length (reduce P m b ps)
                     <= S (List.length
                             (if match b' with
                                 | None => true
                                 | Some h0 => _hamming h h0 >? 0
                                 end
                              then p :: reduce P 0 (Some h) ps
                              else reduce P 0 b' ps)))%nat).
    { destruct (match b' with None => true | Some h0 => _hamming h h0 >? 0 end).
      - cbn [List.length]. specialize (IH2 b (Some h)). lia.
      - apply IH2. }
    destruct (match b with None => true | Some h0 => _hamming h h0 >? m end);
      assumption.
Qed.

(** One decision is monotone in the cutoff. *)
Lemma is_new_slide_mono (m1 m2 : Z) (hs : list Z) (h : Z) :
  m1 <= m2 -> is_new_slide m2 hs h = true -> is_new_slide m1 hs h = true.
Proof.
  intros Hle. destruct hs as [|h0 hs]; [reflexivity|].
  unfold is_new_slide. rewrite !Z.gtb_ltb, !Z.ltb_lt. lia.
Qed.

(** Copies of one fingerprint after it are dropped. *)
Lemma reduce_copies (P : pillow) (m hx : Z) (xs rest : list string) :
  0 <= m -> Forall (fun q => try_phash P q = Some hx) xs ->
  reduce P m (Some hx) (xs ++ rest) = reduce P m (Some hx) rest.
Proof.
  intros Hm. induction 1 as [|q xs Hq _ IH]; [reflexivity|].
  cbn [app reduce]. rewrite Hq, hamming_self.
  destruct (Z.gtb_spec 0 m); [lia|exact IH].
Qed.

(** ** The loop: decisions and baseline *)

Lemma run_from_initial_paired (P : pillow) (m : Z) (n : nat) (pre : list string) :
  Forall2 (fun q h => try_phash P q = Some h)
    (kept (run_loop P m (initial_state n m) pre))
    (kept_hashes (run_loop P m (initial_state n m) pre)).
Proof. apply run_loop_paired. constructor. Qed.

(** The test of the loop compares with the fingerprint of the last path
    in [kept]. *)
Lemma decision_baseline (P : pillow) (m : Z) (st : loop_state) (h : Z) :
  Forall2 (fun q h0 => try_phash P q = Some h0) (kept st) (kept_hashes st) ->
  is_new_slide m (kept_hashes st) h = true <->
  (kept st = [] \/
   exists h0, try_phash P (last (kept st) EmptyString) = Some h0 /\
              _hamming h h0 > m).
Proof.
  intros Inv. destruct (kept st) as [|q ks] eqn:Ek.
  - inversion Inv. cbn. split; auto.
  - assert (Hl : try_phash P (last (q :: ks) EmptyString)
                 = Some (last (kept_hashes st) 0)).
    { apply (Forall2_last _ _ _ _ _ Inv). discriminate. }
    inversion Inv as [|? h1 ? hs' ? ? E1 E2]; subst.
    rewrite <- E2 in *. unfold is_new_slide. rewrite Z.gtb_ltb, Z.ltb_lt.
    split.
    + intros Hgt. right. exists (last (h1 :: hs') 0).
      split; [exact Hl|apply Z.lt_gt, Hgt].
    + intros [Hnil|(h0 & Hh0 & Hgt)]; [discriminate|].
      rewrite Hl in Hh0. injection Hh0 as <-. apply Z.gt_lt, Hgt.
Qed.

(** ** The log *)

Lemma skipped_app (l1 l2 : list log_record) :
  skipped (l1 ++ l2) = skipped l1 ++ skipped l2.
Proof.
  induction l1 as [|r l1 IH]; [reflexivity|].
  destruct r; cbn [app skipped]; rewrite IH; reflexivity.
Qed.

(** One warning for each unreadable path, in the order of the paths. *)
Lemma run_loop_skipped (P : pillow) (m : Z) (paths : list string)
    (st : loop_state) :
  skipped (log (run_loop P m st paths)) =
    skipped (log st) ++ filter (fun q => negb (readable P q)) paths.
Proof.
  revert st. induction paths as [|p ps IH]; intros st.
  - cbn. symmetry. apply app_nil_r.
  - rewrite run_loop_cons, IH. cbn [filter]. unfold readable at 2.
    destruct (loop_body_cases P m st p)
      as [(E & _ & _ & L)|[(h & E & _ & _ & _ & L)|(h & E & _ & S)]];
      rewrite E; cbn [negb].
    + rewrite L, skipped_app, <- app_assoc. reflexivity.
    + rewrite L. reflexivity.
    + rewrite S. reflexivity.
Qed.

(** ** [int] and [round] on a non-negative float *)

(** [int(x)] is the floor of a non-negative [x]; [round(x)] is that or
    one more, and they agree exactly when the fraction is below one
    half, or is one half with an even floor. *)
Lemma int_round_nonneg (k : Z) (x : float) :
  at_most_pow2 k (Prim2SF x) ->
  exists n v r,
    int_of_float x = Ok n /\ float_value x = Some v /\
    round_of_float x = Ok r /\
    (inject_Z n <= v)%Q /\ (v < inject_Z n + 1)%Q /\
    n <= r <= n + 1 /\
    (r = n <->
     (v - inject_Z n < 1 # 2)%Q \/
     ((v - inject_Z n == 1 # 2)%Q /\ Z.even n = true)).
Proof.
  unfold int_of_float, float_value, round_of_float.
  destruct (Prim2SF x) as [s|s| |s m e]; cbn [at_most_pow2]; try contradiction.
  - intros _. exists 0, 0%Q, 0.
    split; [reflexivity|]. split; [reflexivity|]. split; [reflexivity|].
    split; [apply Qle_refl|]. split; [reflexivity|]. split; [lia|].
    split; [intros _; left; reflexivity|reflexivity].
  - destruct s; [contradiction|]. intros _. cbn [cond_Zopp].
    destruct (Z.leb_spec 0 e) as [Hpos|Hneg].
    + rewrite Z.shiftl_mul_pow2 by lia.
      exists (Zpos m * 2 ^ e), (inject_Z (Zpos m * 2 ^ e)), (Zpos m * 2 ^ e).
      split; [reflexivity|]. split; [reflexivity|]. split; [reflexivity|].
      split; [apply Qle_refl|].
      split; [unfold Qlt, Qplus, inject_Z; cbn [Qnum Qden]; lia|].
      split; [lia|]. split; [|reflexivity].
      intros _. left. unfold Qlt, Qminus, Qplus, Qopp, inject_Z.
      cbn [Qnum Qden]. lia.
    + rewrite Z.shiftl_div_pow2 by lia.
      assert (HD : 0 < 2 ^ (- e)) by (apply pow2_pos; lia).
      set (D := 2 ^ (- e)) in *.
      assert (Hd : Zpos (Z.to_pos D) = D) by (apply Z2Pos.id; exact HD).
      pose proof (Z.div_mod (Zpos m) D ltac:(lia)) as Hdm.
      pose proof (Z.mod_pos_bound (Zpos m) D HD) as Hrem.
      set (n := Zpos m / D) in *. set (rem := Zpos m mod D) in *.
      assert (Hnd : n * D = Zpos m - rem) by lia.
      eexists n, _, _. split; [reflexivity|]. split; [reflexivity|].
      split; [reflexivity|].
      unfold Qle, Qlt, Qeq, Qminus, Qplus, Qopp, inject_Z. cbn [Qnum Qden].
      rewrite ?Pos2Z.inj_mul, ?Hd, ?Z.mul_1_r, ?Z.mul_1_l.
      replace (- n * D) with (- (n * D)) by ring.
      replace ((n + 1) * D) with (n * D + D) by ring.
      rewrite Hnd.
      destruct (Z.compare_spec (2 * rem) D) as [Heq|Hlt|Hgt].
      * split; [lia|]. split; [lia|]. destruct (Z.even n) eqn:Ev.
        -- split; [lia|].
           split; [intros _; right; split; [lia|reflexivity]|reflexivity].
        -- split; [lia|]. split; [lia|].
           intros [Hl|[_ Hf]]; [lia|discriminate].
      * split; [lia|]. split; [lia|]. split; [lia|].
        split; [intros _; left; lia|reflexivity].
      * split; [lia|]. split; [lia|]. split; [lia|]. split; [lia|].
        intros [Hl|[Hl _]]; lia.
Qed.

Lemma Forall2_nth_pair {A B : Type} (R : A -> B -> Prop) (l : list A)
    (l' : list B) (d : A) (d' : B) (i : nat) :
  Forall2 R l l' -> (i < List.length l)%nat -> R (nth i l d) (nth i l' d').
Proof.
  intros H. revert i. induction H as [|a b l l' Hab _ IH]; intros i Hi.
  - cbn in Hi. lia.
  - destruct i as [|i]; [exact Hab|]. cbn in *. apply IH. lia.
Qed.

Lemma snoc_neq {A : Type} (l : list A) (x : A) : l ++ [x] <> l.
Proof.
  intros H. apply (f_equal (@List.length A)) in H.
  rewrite length_app in H. cbn in H. lia.
Qed.

(** * The claims *)

(** Closed facts about concrete thresholds, settled by evaluation. *)
Ltac in_unit := split; vm_compute; reflexivity.


(** C1.  When the loop reaches a candidate [p] that can be fingerprinted
    (fingerprint [h]), it appends [p] to [kept] if and only if nothing
    has been kept yet or [h] is at Hamming distance strictly greater
    than the cutoff from the fingerprint of the last path in [kept],
    the most recently retained one, whatever came in between.  A
    distance of at most the cutoff, the cutoff itself included, leaves
    the whole state as it was; the stored baseline changes, to [h],
    only when [p] is kept.  What is kept at that point stays in the
    result. *)
Theorem retained_iff_new_or_far (P : pillow) (m : Z) (pre post : list string)
    (p : string) (h : Z) :
  try_phash P p = Some h ->
  let st :=
    run_loop P m (initial_state (List.length (pre ++ p :: post)) m) pre in
  let st' := loop_body P m st p in
  ((kept st = [] \/
    exists h0, try_phash P (last (kept st) EmptyString) = Some h0 /\
               _hamming h h0 > m)
   <-> kept st' = kept st ++ [p]) /\
  ((kept st' = kept st ++ [p] /\ kept_hashes st' = kept_hashes st ++ [h] /\
    last_hash (kept_hashes st') = Some h)
   \/ st' = st) /\
  (forall h0, kept st <> [] ->
     try_phash P (last (kept st) EmptyString) = Some h0 ->
     _hamming h h0 <= m -> st' = st) /\
  final_state P m (pre ++ p :: post) = run_loop P m st' post /\
  exists tail, dedup_with P m (pre ++ p :: post) = kept st' ++ tail.
Proof.
  intros E st st'.
  pose proof (run_from_initial_paired P m
                (List.length (pre ++ p :: post)) pre) as Inv.
  fold st in Inv.
  pose proof (decision_baseline P m st h Inv) as Dec.
  assert (Hfin : final_state P m (pre ++ p :: post) = run_loop P m st' post).
  { unfold final_state. rewrite run_loop_app. reflexivity. }
  assert (Htail : exists tail,
             dedup_with P m (pre ++ p :: post) = kept st' ++ tail).
  { unfold dedup_with. rewrite Hfin, run_loop_kept. eauto. }
  destruct (loop_body_cases P m st p)
    as [(E' & _)|[(h' & E' & N & K & H & _)|(h' & E' & N & S)]];
    subst st'; [congruence| |];
    assert (h' = h) by congruence; subst h'.
  - split; [split; [intros _; exact K|intros _; apply Dec, N]|].
    split; [left; rewrite H; auto using last_hash_snoc|].
    split; [|split; assumption].
    intros h0 Hne Hh0 Hle. apply Dec in N.
    destruct N as [Hnil|(h1 & Hh1 & Hgt)]; [contradiction|].
    assert (h1 = h0) by congruence. subst h1. lia.
  - split; [split|].
    + intros Hc. apply Dec in Hc. congruence.
    + intros Hk. rewrite S in Hk. symmetry in Hk.
      apply snoc_neq in Hk. contradiction.
    + split; [right; exact S|]. split; [intros; exact S|split; assumption].
Qed.

Lemma retained_iff_new_or_far_witness :
  try_phash four_slides "slide_000003.png" = Some 24 /\
  let st :=
    run_loop four_slides 3 (initial_state 4 3)
      ["slide_000001.png"; "slide_000002.png"]%string in
  kept (loop_body four_slides 3 st "slide_000003.png")
  = kept st ++ ["slide_000003.png"%string].
Proof.
  assert (E : try_phash four_slides "slide_000003.png" = Some 24)
    by (vm_compute; reflexivity).
  split; [exact E|].
  destruct (retained_iff_new_or_far four_slides 3
              ["slide_000001.png"; "slide_000002.png"]%string
              ["slide_000004.png"%string] "slide_000003.png" 24 E)
    as (Hiff & _).
  apply Hiff. right. exists 7. split; vm_compute; reflexivity.
Defined.

(** C10.  At every point of the pass [kept] and [kept_hashes] have the
    same length, the i-th stored fingerprint is the fingerprint of the
    i-th kept path, and the test of the loop compares a new fingerprint
    with the fingerprint of the last path currently in [kept]. *)
Theorem kept_hashes_in_step (P : pillow) (m : Z) (pre post : list string) :
  let st := run_loop P m (initial_state (List.length (pre ++ post)) m) pre in
  List.length (kept st) = List.length (kept_hashes st) /\
  (forall i, (i < List.length (kept st))%nat ->
     try_phash P (nth i (kept st) EmptyString)
     = Some (nth i (kept_hashes st) 0)) /\
  (forall h,
     is_new_slide m (kept_hashes st) h = true <->
     (kept st = [] \/
      exists h0, try_phash P (last (kept st) EmptyString) = Some h0 /\
                 _hamming h h0 > m)).
Proof.
  intros st.
  pose proof (run_from_initial_paired P m (List.length (pre ++ post)) pre)
    as Inv.
  fold st in Inv. repeat split.
  - apply (Forall2_length Inv).
  - intros i Hi.
    apply (Forall2_nth_pair _ _ _ EmptyString 0 i Inv Hi).
  - apply decision_baseline, Inv.
  - apply decision_baseline, Inv.
Qed.

Lemma kept_hashes_in_step_witness :
  let st := run_loop four_slides 3 (initial_state 4 3) four_paths in
  kept st = ["slide_000001.png"; "slide_000003.png"; "slide_000004.png"]%string /\
  kept_hashes st = [7; 24; 96] /\
  try_phash four_slides (nth 2 (kept st) EmptyString)
  = Some (nth 2 (kept_hashes st) 0).
Proof.
  pose proof (kept_hashes_in_step four_slides 3 four_paths []) as (_ & Hnth & _).
  rewrite app_nil_r in Hnth. intros st.
  split; [vm_compute; reflexivity|]. split; [vm_compute; reflexivity|].
  apply Hnth. vm_compute. lia.
Defined.

(** C2 (counterexample).  At the threshold 1021/1024, which binary64
    holds exactly, [(1.0 - threshold) * 256] is 0.75: [deduplicate]
    uses the cutoff [int(0.75) = 0], the rounded value is 1. *)
Lemma cutoff_is_not_rounded :
  in_unit_interval 0.9970703125%float /\
  max_dist_of 0.9970703125%float = Ok 0 /\
  max_distance_spec 0.9970703125%float = Ok 1.
Proof. repeat split; vm_compute; reflexivity. Qed.

(** C2 (amended).  For every threshold in [0.0, 1.0] the cutoff is
    [int((1.0 - threshold) * 256)]: the floor of the binary64 product,
    a number from 0 to 256, equal to the rounded product or one less
    than it, and equal to it exactly when the fraction of the product
    is below one half (or is one half and the floor is even).  It is a
    function of the threshold alone, computed before the loop and used
    for the whole pass. *)
Theorem cutoff_truncates (P : pillow) (paths : list string) (t : float) :
  in_unit_interval t ->
  exists m v r,
    max_dist_of t = Ok m /\ 0 <= m <= hash_bits /\
    float_value ((1 - t) * float_of_nat (_HASH_SIZE * _HASH_SIZE))%float
    = Some v /\
    (inject_Z m <= v)%Q /\ (v < inject_Z m + 1)%Q /\
    max_distance_spec t = Ok r /\ m <= r <= m + 1 /\
    (r = m <->
     (v - inject_Z m < 1 # 2)%Q \/
     ((v - inject_Z m == 1 # 2)%Q /\ Z.even m = true)) /\
    deduplicate P paths t = Ok (dedup_with P m paths).
Proof.
  intros Ht.
  destruct (max_dist_of_unit t Ht) as (m & Em & Hm).
  destruct (int_round_nonneg 8 _
              (times_256_at_most _ (one_minus_at_most t Ht)))
    as (n & v & r & En & Ev & Er & Hle & Hlt & Hr & Hiff).
  assert (n = m) by (unfold max_dist_of in Em; congruence). subst n.
  exists m, v, r. unfold deduplicate, max_distance_spec. rewrite Em.
  repeat split; auto; try lia; apply Hiff.
Qed.

Lemma cutoff_truncates_witness :
  in_unit_interval 0.9375%float /\
  exists m v r,
    max_dist_of 0.9375%float = Ok m /\ 0 <= m <= hash_bits /\
    float_value ((1 - 0.9375) * float_of_nat (_HASH_SIZE * _HASH_SIZE))%float
    = Some v /\
    (inject_Z m <= v)%Q /\ (v < inject_Z m + 1)%Q /\
    max_distance_spec 0.9375%float = Ok r /\ m <= r <= m + 1 /\
    (r = m <->
     (v - inject_Z m < 1 # 2)%Q \/
     ((v - inject_Z m == 1 # 2)%Q /\ Z.even m = true)) /\
    deduplicate four_slides four_paths 0.9375%float
    = Ok (dedup_with four_slides m four_paths).
Proof.
  assert (H : in_unit_interval 0.9375%float)
    by in_unit.
  split; [exact H|]. apply (cutoff_truncates four_slides four_paths _ H).
Defined.

(** C3 (counterexample).  Four frames with the fingerprints 7, 0, 24
    and 96: at threshold 253/256 (cutoff 3) three are kept, at the
    higher threshold 127/128 (cutoff 2) only two. *)
Lemma kept_count_not_monotone :
  in_unit_interval 0.98828125%float /\ in_unit_interval 0.9921875%float /\
  PrimFloat.ltb 0.98828125%float 0.9921875%float = true /\
  deduplicate four_slides four_paths 0.98828125%float
  = Ok ["slide_000001.png"; "slide_000003.png"; "slide_000004.png"]%string /\
  deduplicate four_slides four_paths 0.9921875%float
  = Ok ["slide_000001.png"; "slide_000002.png"]%string.
Proof. repeat split; vm_compute; reflexivity. Qed.

(** C3 (amended).  For a fixed candidate sequence and every threshold
    in [0.0, 1.0], the number of paths kept is at least the number kept
    at threshold 0.0 and at most the number kept at threshold 1.0; and
    a single test of the loop, against a fixed baseline, that keeps a
    frame under some cutoff keeps it under every smaller cutoff. *)
Theorem kept_count_between_extremes (P : pillow) (paths : list string)
    (t : float) :
  in_unit_interval t ->
  (exists out0 out out1,
     deduplicate P paths 0%float = Ok out0 /\
     deduplicate P paths t = Ok out /\
     deduplicate P paths 1%float = Ok out1 /\
     (List.length out0 <= List.length out <= List.length out1)%nat) /\
  (forall m1 m2 hs h, m1 <= m2 ->
     is_new_slide m2 hs h = true -> is_new_slide m1 hs h = true).
Proof.
  intros Ht. split; [|apply is_new_slide_mono].
  destruct (max_dist_of_unit t Ht) as (m & Em & Hm).
  assert (E0 : max_dist_of 0%float = Ok hash_bits) by (vm_compute; reflexivity).
  assert (E1 : max_dist_of 1%float = Ok 0) by (vm_compute; reflexivity).
  unfold deduplicate. rewrite E0, E1, Em.
  do 3 eexists. repeat split; try reflexivity; rewrite !dedup_with_reduce.
  - rewrite reduce_far_first by lia. apply reduce_first_readable.
  - apply reduce_count_zero. lia.
Qed.

Lemma kept_count_between_extremes_witness :
  in_unit_interval 0.9921875%float /\
  exists out0 out out1,
    deduplicate four_slides four_paths 0%float = Ok out0 /\
    deduplicate four_slides four_paths 0.9921875%float = Ok out /\
    deduplicate four_slides four_paths 1%float = Ok out1 /\
    (List.length out0 <= List.length out <= List.length out1)%nat.
Proof.
  assert (H : in_unit_interval 0.9921875%float)
    by in_unit.
  split; [exact H|].
  apply (kept_count_between_extremes four_slides four_paths _ H).
Defined.

(** C4.  Whatever the threshold, what [deduplicate] returns is a
    subsequence of its input: the same relative order, nothing that is
    not in the input, and no position of the input taken twice (so no
    repetition when the input has none).  For a threshold in
    [0.0, 1.0] it does return. *)
Theorem deduplicate_subsequence (P : pillow) (paths : list string) (t : float) :
  (forall out, deduplicate P paths t = Ok out ->
     subseq out paths /\
     (forall x, In x out -> In x paths) /\
     (NoDup paths -> NoDup out) /\
     (List.length out <= List.length paths)%nat) /\
  (in_unit_interval t -> exists out, deduplicate P paths t = Ok out).
Proof.
  split.
  - unfold deduplicate. intros out E.
    destruct (max_dist_of t) as [m|]; [|discriminate].
    injection E as <-. rewrite dedup_with_reduce.
    pose proof (reduce_subseq P m paths None) as Hs.
    repeat split.
    + exact Hs.
    + intros x. apply subseq_In, Hs.
    + apply subseq_NoDup, Hs.
    + apply subseq_length, Hs.
  - intros Ht. destruct (max_dist_of_unit t Ht) as (m & Em & _).
    unfold deduplicate. rewrite Em. eauto.
Qed.

Lemma deduplicate_subsequence_witness :
  in_unit_interval 0.98828125%float /\
  deduplicate four_slides four_paths 0.98828125%float
  = Ok ["slide_000001.png"; "slide_000003.png"; "slide_000004.png"]%string /\
  subseq ["slide_000001.png"; "slide_000003.png"; "slide_000004.png"]%string
    four_paths.
Proof.
  assert (E : deduplicate four_slides four_paths 0.98828125%float
              = Ok ["slide_000001.png"; "slide_000003.png";
                    "slide_000004.png"]%string)
    by (vm_compute; reflexivity).
  split; [in_unit|]. split; [exact E|].
  apply (deduplicate_subsequence four_slides four_paths 0.98828125%float), E.
Defined.

(** C5.  When the candidates can all be fingerprinted (it is enough
    that the first one can), the first candidate is the first path of
    the result, under every cutoff and so for every threshold in
    [0.0, 1.0]; a single candidate is returned alone. *)
Theorem first_frame_kept (P : pillow) (p : string) (ps : list string)
    (t : float) :
  Forall (fun q => readable P q = true) (p :: ps) ->
  (forall m, exists rest, dedup_with P m (p :: ps) = p :: rest) /\
  (forall m, dedup_with P m [p] = [p]) /\
  (in_unit_interval t ->
   (exists rest, deduplicate P (p :: ps) t = Ok (p :: rest)) /\
   deduplicate P [p] t = Ok [p]).
Proof.
  intros Hall. inversion Hall as [|? ? Hp _]; subst.
  apply readable_true in Hp. destruct Hp as [h Hp].
  assert (H1 : forall m, exists rest, dedup_with P m (p :: ps) = p :: rest).
  { intros m. rewrite dedup_with_reduce, (reduce_first _ _ _ _ _ Hp). eauto. }
  assert (H2 : forall m, dedup_with P m [p] = [p]).
  { intros m. rewrite dedup_with_reduce, (reduce_first _ _ _ _ _ Hp).
    reflexivity. }
  split; [exact H1|]. split; [exact H2|]. intros Ht.
  destruct (max_dist_of_unit t Ht) as (m & Em & _).
  unfold deduplicate. rewrite Em, H2. destruct (H1 m) as [rest ->]. eauto.
Qed.

Lemma first_frame_kept_witness :
  Forall (fun q => readable four_slides q = true) four_paths /\
  in_unit_interval 0.9921875%float /\
  exists rest,
    deduplicate four_slides four_paths 0.9921875%float
    = Ok ("slide_000001.png"%string :: rest).
Proof.
  assert (Hall : Forall (fun q => readable four_slides q = true) four_paths)
    by (repeat constructor).
  assert (Ht : in_unit_interval 0.9921875%float)
    by in_unit.
  split; [exact Hall|]. split; [exact Ht|].
  apply (first_frame_kept four_slides _ _ 0.9921875%float Hall), Ht.
Defined.

(** C6.  A candidate whose fingerprinting fails changes neither [kept]
    nor [kept_hashes], and the loop goes on with the next candidate:
    the result is the one the readable candidates alone would give, it
    holds readable candidates only, and when no candidate is readable
    [deduplicate] returns the empty list.  The log names each skipped
    candidate once. *)
Theorem unreadable_frames_skipped (P : pillow) (paths : list string)
    (t : float) :
  in_unit_interval t ->
  exists m out records,
    max_dist_of t = Ok m /\ deduplicate P paths t = Ok out /\
    out = dedup_with P m (filter (readable P) paths) /\
    Forall (fun q => readable P q = true) out /\
    (forall pre p post, paths = pre ++ p :: post -> readable P p = false ->
       let st := run_loop P m (initial_state (List.length paths) m) pre in
       kept (loop_body P m st p) = kept st /\
       kept_hashes (loop_body P m st p) = kept_hashes st /\
       final_state P m paths = run_loop P m (loop_body P m st p) post) /\
    (Forall (fun q => readable P q = false) paths -> out = []) /\
    deduplicate_log P paths t = Ok records /\
    skipped records = filter (fun q => negb (readable P q)) paths.
Proof.
  intros Ht. destruct (max_dist_of_unit t Ht) as (m & Em & _).
  exists m, (dedup_with P m paths). eexists.
  unfold deduplicate, deduplicate_log. rewrite Em.
  split; [reflexivity|]. split; [reflexivity|].
  rewrite !dedup_with_reduce.
  split; [apply reduce_filter|]. split; [apply reduce_readable|].
  split; [|split; [apply reduce_all_unreadable|split; [reflexivity|]]].
  - intros pre p post -> Hp. set (st := run_loop P m _ pre).
    apply readable_false in Hp.
    destruct (loop_body_cases P m st p)
      as [(_ & K & H & _)|[(h & E & _)|(h & E & _)]]; try congruence.
    repeat split; auto.
    unfold final_state. rewrite run_loop_app. reflexivity.
  - unfold final_state. rewrite skipped_app, run_loop_skipped. cbn.
    apply app_nil_r.
Qed.

Lemma unreadable_frames_skipped_witness :
  in_unit_interval 0.9375%float /\
  Forall (fun q => readable black_white q = false)
    ["a.png"; "b.png"; "c.png"]%string /\
  deduplicate black_white ["a.png"; "b.png"; "c.png"]%string 0.9375%float
  = Ok [].
Proof.
  assert (Ht : in_unit_interval 0.9375%float)
    by in_unit.
  assert (Hall : Forall (fun q => readable black_white q = false)
                   ["a.png"; "b.png"; "c.png"]%string)
    by (repeat constructor).
  split; [exact Ht|]. split; [exact Hall|].
  destruct (unreadable_frames_skipped black_white
              ["a.png"; "b.png"; "c.png"]%string _ Ht)
    as (m & out & records & _ & E & _ & _ & _ & Hempty & _).
  rewrite E. f_equal. apply Hempty, Hall.
Defined.

(** C7 (counterexample).  The thresholds 1.5 and -1.0 lie outside
    [0.0, 1.0]; [deduplicate] raises nothing and returns, with every
    frame kept for the first and only the first frame for the second. *)
Lemma threshold_out_of_range_accepted :
  PrimFloat.ltb 1%float 1.5%float = true /\
  deduplicate four_slides four_paths 1.5%float = Ok four_paths /\
  PrimFloat.ltb (-1)%float 0%float = true /\
  deduplicate four_slides four_paths (-1)%float
  = Ok ["slide_000001.png"%string].
Proof. repeat split; vm_compute; reflexivity. Qed.

(** C7 (amended).  [deduplicate] does not check the range of the
    threshold and has no error of its own.  For a threshold outside
    [0.0, 1.0] it raises, before any candidate is looked at, only what
    [int] raises: [ValueError] for NaN and [OverflowError] when the
    product [(1.0 - threshold) * 256] is infinite.  Otherwise the pass
    runs over all candidates with the cutoff obtained: for a threshold
    above 1.0 the cutoff is zero or negative, and a negative cutoff
    keeps every readable candidate; for a threshold below 0.0 the
    cutoff is 256 or more and only the first readable candidate is
    kept. *)
Theorem no_threshold_validation (P : pillow) (paths : list string) (t : float) :
  ~ in_unit_interval t ->
  (Prim2SF t = S754_nan /\ deduplicate P paths t = Raise ValueError) \/
  deduplicate P paths t = Raise OverflowError \/
  (exists m,
     max_dist_of t = Ok m /\
     deduplicate P paths t = Ok (dedup_with P m paths) /\
     ((PrimFloat.ltb 1%float t = true /\ m <= 0 /\
       (m < 0 -> dedup_with P m paths = filter (readable P) paths)) \/
      (PrimFloat.ltb t 0%float = true /\ hash_bits <= m /\
       dedup_with P m paths = firstn 1 (filter (readable P) paths)))).
Proof.
  intros Hout. unfold deduplicate.
  destruct (outside_unit_cases t Hout) as [Hnan|[Habove|Hbelow]].
  - left. rewrite (max_dist_of_nan t Hnan). auto.
  - right. destruct (max_dist_of_above_one t Habove) as [E|(m & E & Hm)];
      rewrite E; [left; reflexivity|right].
    exists m. split; [reflexivity|]. split; [reflexivity|]. left.
    split; [exact Habove|]. split; [exact Hm|].
    intros Hneg. rewrite dedup_with_reduce. apply reduce_negative, Hneg.
  - right. destruct (max_dist_of_below_zero t Hbelow) as [E|(m & E & Hm)];
      rewrite E; [left; reflexivity|right].
    exists m. split; [reflexivity|]. split; [reflexivity|]. right.
    split; [exact Hbelow|]. split; [exact Hm|].
    rewrite dedup_with_reduce. apply reduce_far_first, Hm.
Qed.

Lemma no_threshold_validation_witness :
  ~ in_unit_interval 1.5%float /\
  ((Prim2SF 1.5%float = S754_nan /\
    deduplicate four_slides four_paths 1.5%float = Raise ValueError) \/
   deduplicate four_slides four_paths 1.5%float = Raise OverflowError \/
   (exists m,
      max_dist_of 1.5%float = Ok m /\
      deduplicate four_slides four_paths 1.5%float
      = Ok (dedup_with four_slides m four_paths) /\
      ((PrimFloat.ltb 1%float 1.5%float = true /\ m <= 0 /\
        (m < 0 ->
         dedup_with four_slides m four_paths
         = filter (readable four_slides) four_paths)) \/
       (PrimFloat.ltb 1.5%float 0%float = true /\ hash_bits <= m /\
        dedup_with four_slides m four_paths
        = firstn 1 (filter (readable four_slides) four_paths))))).
Proof.
  assert (Hout : ~ in_unit_interval 1.5%float).
  { intros [_ H]. vm_compute in H. discriminate H. }
  split; [exact Hout|].
  apply (no_threshold_validation four_slides four_paths _ Hout).
Defined.

(** C8.  For an image that Pillow decodes, [_phash] asks for the
    luminance of the image resampled to 17 columns by 16 rows, whatever
    the size of the image, and returns a number below [2 ^ 256] whose
    bit [r * 16 + c], counted from the most significant of the 256
    bits in row-major order, is 1 exactly when the luminance at
    [(r, c)] is strictly greater than the one at [(r, c + 1)].  Every
    fingerprint [_phash] returns has these 256 bits. *)
Theorem phash_bit_layout (P : pillow) (img : image P) (pixels : list Z) :
  L_resized P img ((_HASH_SIZE + 1)%nat, _HASH_SIZE) = Some pixels ->
  List.length pixels = ((_HASH_SIZE + 1) * _HASH_SIZE)%nat ->
  (exists bits,
     _phash P img = Some bits /\ 0 <= bits < 2 ^ hash_bits /\
     forall r c, (r < _HASH_SIZE)%nat -> (c < _HASH_SIZE)%nat ->
       Z.testbit bits (hash_bits - 1 - Z.of_nat (r * _HASH_SIZE + c))
       = (luminance pixels r c >? luminance pixels r (c + 1))) /\
  (forall img' h, _phash P img' = Some h -> 0 <= h < 2 ^ hash_bits).
Proof.
  intros Eres Hlen. split; [|apply phash_range].
  destruct (phash_pixels_bits pixels Hlen) as (bits & E & Hpos & Hhigh & Hbits).
  exists bits. unfold _phash. rewrite Eres.
  split; [exact E|]. split; [|exact Hbits].
  exact (phash_pixels_range _ _ E).
Qed.

Lemma phash_bit_layout_witness :
  L_resized four_slides img_7 ((_HASH_SIZE + 1)%nat, _HASH_SIZE) = Some img_7 /\
  List.length img_7 = ((_HASH_SIZE + 1) * _HASH_SIZE)%nat /\
  exists bits,
    _phash four_slides img_7 = Some bits /\ 0 <= bits < 2 ^ hash_bits /\
    forall r c, (r < _HASH_SIZE)%nat -> (c < _HASH_SIZE)%nat ->
      Z.testbit bits (hash_bits - 1 - Z.of_nat (r * _HASH_SIZE + c))
      = (luminance img_7 r c >? luminance img_7 r (c + 1)).
Proof.
  assert (E : L_resized four_slides img_7 ((_HASH_SIZE + 1)%nat, _HASH_SIZE)
              = Some img_7) by reflexivity.
  assert (L : List.length img_7 = ((_HASH_SIZE + 1) * _HASH_SIZE)%nat)
    by reflexivity.
  split; [exact E|]. split; [exact L|].
  apply (phash_bit_layout four_slides img_7 img_7 E L).
Defined.

(** C9 (counterexample).  Two copies of an all-black image followed by
    an all-white one, threshold 0.9375: the white image is another
    image but has the same fingerprint, and one frame is kept, not
    two. *)
Lemma distinct_image_not_kept :
  black <> white /\
  PrimFloat.ltb 0.9375%float 1%float = true /\
  map (Image_open black_white) three_paths
  = [Some black; Some black; Some white] /\
  deduplicate black_white three_paths 0.9375%float
  = Ok ["slide_000001.png"%string].
Proof.
  split; [discriminate|]. repeat split; vm_compute; reflexivity.
Qed.

(** C9 (amended).  For every threshold in [0.0, 1.0], on one or more
    copies of an image X followed by one image Y, all decodable, the
    first copy of X is kept and the other copies are dropped; Y is kept
    as well, two paths in all, exactly when the fingerprints of Y and X
    are at Hamming distance strictly greater than the cutoff, and
    otherwise the first copy of X is the whole result. *)
Theorem copies_then_other (P : pillow) (x0 y : string) (xs : list string)
    (X Y : image P) (hx hy : Z) (t : float) :
  Forall (fun q => Image_open P q = Some X) (x0 :: xs) ->
  Image_open P y = Some Y ->
  _phash P X = Some hx -> _phash P Y = Some hy ->
  in_unit_interval t ->
  exists m,
    max_dist_of t = Ok m /\
    deduplicate P (x0 :: xs ++ [y]) t
    = Ok (if _hamming hy hx >? m then [x0; y] else [x0]).
Proof.
  intros Hxs Hy HX HY Ht.
  destruct (max_dist_of_unit t Ht) as (m & Em & Hm).
  exists m. split; [exact Em|]. unfold deduplicate. rewrite Em. f_equal.
  assert (Hfp : Forall (fun q => try_phash P q = Some hx) (x0 :: xs)).
  { eapply Forall_impl; [|exact Hxs]. intros q Hq. unfold try_phash.
    rewrite Hq. exact HX. }
  inversion Hfp as [|? ? H0 Hrest]; subst.
  rewrite dedup_with_reduce, (reduce_first _ _ _ _ _ H0).
  rewrite (reduce_copies P m hx xs [y] ltac:(lia) Hrest).
  cbn [reduce]. unfold try_phash. rewrite Hy, HY.
  destruct (_hamming hy hx >? m); reflexivity.
Qed.

Lemma copies_then_other_witness :
  in_unit_interval 0.9375%float /\
  exists m,
    max_dist_of 0.9375%float = Ok m /\
    deduplicate black_white three_paths 0.9375%float
    = Ok (if _hamming 0 0 >? m
          then ["slide_000001.png"; "slide_000003.png"]%string
          else ["slide_000001.png"%string]).
Proof.
  assert (Ht : in_unit_interval 0.9375%float)
    by in_unit.
  split; [exact Ht|].
  apply (copies_then_other black_white "slide_000001.png" "slide_000003.png"
           ["slide_000002.png"%string] black white 0 0 0.9375%float).
  - repeat constructor.
  - reflexivity.
  - vm_compute. reflexivity.
  - vm_compute. reflexivity.
  - exact Ht.
Defined.

(** * Further properties of the code *)

(** ** [_hamming] as a count of bits *)

Lemma bin_count_step (z : Z) :
  0 <= z ->
  str_count "1" (bin z)
  = (if Z.odd z then 1 else 0) + str_count "1" (bin (Z.div2 z)).
Proof.
  intros Hz. destruct z as [|p|p]; [reflexivity| |lia].
  destruct p as [p|p|]; cbn [bin bin_digits Z.odd Z.div2 Pos.div2].
  - rewrite !str_count_app. change (str_count "1" "1") with 1. lia.
  - rewrite !str_count_app. change (str_count "1" "0") with 0. lia.
  - reflexivity.
Qed.

Lemma filter_shift_length (f : nat -> bool) (n : nat) :
  List.length (filter f (seq 1 n))
  = List.length (filter (fun i => f (S i)) (seq 0 n)).
Proof.
  rewrite <- seq_shift. generalize (seq 0 n). intros l.
  induction l as [|x l IH]; [reflexivity|].
  cbn [map filter]. destruct (f (S x)); cbn [List.length]; rewrite IH; reflexivity.
Qed.

(** The ones in [bin(z)] are the bits set in [z]. *)
Lemma bin_count_bits (n : nat) (z : Z) :
  0 <= z < 2 ^ Z.of_nat n ->
  str_count "1" (bin z)
  = Z.of_nat (List.length
                (filter (fun i => Z.testbit z (Z.of_nat i)) (seq 0 n))).
Proof.
  revert z. induction n as [|n IH]; intros z Hz.
  - cbn in Hz. assert (z = 0) by lia. subst z. reflexivity.
  - rewrite bin_count_step by lia.
    assert (Hhalf : 0 <= Z.div2 z < 2 ^ Z.of_nat n).
    { rewrite Nat2Z.inj_succ, Z.pow_succ_r in Hz by lia.
      rewrite Z.div2_div. split; [apply Z.div_pos; lia|].
      apply Z.div_lt_upper_bound; lia. }
    rewrite (IH _ Hhalf). cbn [seq filter].
    assert (Hrest : List.length
                      (filter (fun i => Z.testbit z (Z.of_nat i)) (seq 1 n))
                    = List.length
                        (filter (fun i => Z.testbit (Z.div2 z) (Z.of_nat i))
                                (seq 0 n))).
    { rewrite filter_shift_length. f_equal. apply filter_ext. intros i.
      rewrite Nat2Z.inj_succ, Z.div2_div, Z.div2_bits by lia. reflexivity. }
    change (Z.of_nat 0) with 0. rewrite Z.bit0_odd.
    destruct (Z.odd z); cbn [List.length]; rewrite Hrest; lia.
Qed.

Lemma lxor_below (n : nat) (a b : Z) :
  0 <= a < 2 ^ Z.of_nat n -> 0 <= b < 2 ^ Z.of_nat n ->
  0 <= Z.lxor a b < 2 ^ Z.of_nat n.
Proof.
  intros Ha Hb.
  assert (Hx : 0 <= Z.lxor a b) by (apply Z.lxor_nonneg; lia).
  split; [exact Hx|]. apply high_bits_zero_lt; [lia|exact Hx|].
  intros i Hi. rewrite Z.lxor_spec.
  rewrite (lt_pow2_high_bits a _ i Ha Hi), (lt_pow2_high_bits b _ i Hb Hi).
  reflexivity.
Qed.

Lemma hamming_differing (n : nat) (a b : Z) :
  0 <= a < 2 ^ Z.of_nat n -> 0 <= b < 2 ^ Z.of_nat n ->
  _hamming a b = Z.of_nat (List.length (differing_bits n a b)).
Proof.
  intros Ha Hb. unfold _hamming, differing_bits.
  rewrite (bin_count_bits n) by (apply lxor_below; assumption).
  do 2 f_equal. apply filter_ext. intros i. apply Z.lxor_spec.
Qed.

Lemma filter_length_union {A : Type} (f g h : A -> bool) (l : list A) :
  (forall x, f x = true -> g x = true \/ h x = true) ->
  (List.length (filter f l)
   <= List.length (filter g l) + List.length (filter h l))%nat.
Proof.
  intros Hfgh. induction l as [|x l IH]; [cbn; lia|].
  cbn [filter]. specialize (Hfgh x).
  destruct (f x), (g x), (h x); cbn [List.length]; try lia;
    destruct (Hfgh eq_refl); discriminate.
Qed.

Lemma below_pow2_self (a : Z) : 0 <= a -> a < 2 ^ a.
Proof. intros Ha. apply Z.pow_gt_lin_r; lia. Qed.

(** X1.  For two numbers of at most [n] bits, fingerprints for
    [n = 256], [_hamming] is the number of bit positions below [n] at
    which they differ. *)
Theorem hamming_counts_differing_bits (n : nat) (a b : Z) :
  0 <= a < 2 ^ Z.of_nat n -> 0 <= b < 2 ^ Z.of_nat n ->
  _hamming a b = Z.of_nat (List.length (differing_bits n a b)) /\
  0 <= _hamming a b <= Z.of_nat n.
Proof.
  intros Ha Hb. rewrite (hamming_differing n a b Ha Hb). split; [reflexivity|].
  split; [lia|]. apply inj_le. unfold differing_bits.
  eapply Nat.le_trans; [apply filter_length_le|]. rewrite length_seq. lia.
Qed.

Lemma hamming_counts_differing_bits_witness :
  0 <= 7 < 2 ^ Z.of_nat 256 /\ 0 <= 24 < 2 ^ Z.of_nat 256 /\
  _hamming 7 24 = Z.of_nat (List.length (differing_bits 256 7 24)).
Proof.
  assert (H7 : 0 <= 7 < 2 ^ Z.of_nat 256) by (vm_compute; split; congruence).
  assert (H24 : 0 <= 24 < 2 ^ Z.of_nat 256) by (vm_compute; split; congruence).
  split; [exact H7|]. split; [exact H24|].
  apply (hamming_counts_differing_bits 256 7 24 H7 H24).
Defined.

(** X2.  [_hamming] is a metric on non-negative integers: it is
    symmetric, it is zero exactly on equal arguments, and it obeys the
    triangle inequality. *)
Theorem hamming_metric (a b c : Z) :
  0 <= a -> 0 <= b -> 0 <= c ->
  _hamming a b = _hamming b a /\
  (_hamming a b = 0 <-> a = b) /\
  _hamming a c <= _hamming a b + _hamming b c.
Proof.
  intros Ha Hb Hc. split; [|split].
  - unfold _hamming. rewrite Z.lxor_comm. reflexivity.
  - split; [apply hamming_zero_eq|intros ->; apply hamming_self].
  - set (n := Z.to_nat (a + b + c)).
    assert (Hn : a + b + c < 2 ^ Z.of_nat n).
    { subst n. rewrite Z2Nat.id by lia. apply below_pow2_self. lia. }
    rewrite (hamming_differing n a c), (hamming_differing n a b),
      (hamming_differing n b c) by lia.
    rewrite <- Nat2Z.inj_add. apply inj_le. unfold differing_bits.
    apply filter_length_union. intros i.
    destruct (Z.testbit a (Z.of_nat i)), (Z.testbit b (Z.of_nat i)),
      (Z.testbit c (Z.of_nat i)); cbn; auto.
Qed.

Lemma hamming_metric_witness :
  _hamming 7 96 <= _hamming 7 24 + _hamming 24 96.
Proof.
  apply (hamming_metric 7 24 96); lia.
Defined.

(** ** [_phash]: what it reads and what it keeps *)

Lemma for_each_ext {A S : Type} (f g : A -> S -> option S) (xs : list A) :
  (forall x, In x xs -> forall acc, f x acc = g x acc) ->
  forall acc, for_each f xs acc = for_each g xs acc.
Proof.
  induction xs as [|x xs IH]; intros Hfg acc; [reflexivity|].
  cbn [for_each]. rewrite (Hfg x (or_introl eq_refl)).
  destruct (g x acc); [|reflexivity].
  apply IH. intros y Hy. apply Hfg. right. exact Hy.
Qed.

(** A loop that ends normally ran every iteration normally. *)
Lemma for_each_some {A S : Type} (body : A -> S -> option S) (xs : list A)
    (acc r : S) (x : A) :
  for_each body xs acc = Some r -> In x xs ->
  exists a a', body x a = Some a'.
Proof.
  revert acc. induction xs as [|y xs IH]; intros acc E Hin; [contradiction|].
  cbn [for_each] in E. destruct (body y acc) as [acc'|] eqn:Ey; [|discriminate].
  destruct Hin as [->|Hin]; [eauto|exact (IH _ E Hin)].
Qed.

Lemma phash_pixels_ext (px px' : list Z) :
  (forall row col b, (row < _HASH_SIZE)%nat -> (col < _HASH_SIZE)%nat ->
     phash_cell px row col b = phash_cell px' row col b) ->
  phash_pixels px = phash_pixels px'.
Proof.
  intros Hcell. unfold phash_pixels, range.
  apply for_each_ext. intros row Hrow acc.
  apply for_each_ext. intros col Hcol acc'.
  apply in_seq in Hrow, Hcol. apply Hcell; lia.
Qed.

(** Only the first 17 * 16 entries of the pixel list are read. *)
Lemma phash_pixels_firstn (px : list Z) :
  phash_pixels (firstn ((_HASH_SIZE + 1) * _HASH_SIZE) px) = phash_pixels px.
Proof.
  apply phash_pixels_ext. unfold phash_cell, _HASH_SIZE.
  intros row col b Hrow Hcol. rewrite !nth_error_firstn.
  destruct (Nat.ltb_spec (row * (16 + 1) + col) ((16 + 1) * 16)); [|lia].
  destruct (Nat.ltb_spec (row * (16 + 1) + col + 1) ((16 + 1) * 16)); [|lia].
  reflexivity.
Qed.

(** X3.  [_phash] runs into [IndexError] exactly when the pixel list
    has fewer than 17 * 16 entries; entries beyond these are ignored. *)
Theorem phash_index_error (pixels : list Z) :
  (phash_pixels pixels = None <->
   (List.length pixels < (_HASH_SIZE + 1) * _HASH_SIZE)%nat) /\
  phash_pixels (firstn ((_HASH_SIZE + 1) * _HASH_SIZE) pixels)
  = phash_pixels pixels.
Proof.
  split; [|apply phash_pixels_firstn]. split.
  - intros Hnone.
    destruct (Nat.lt_ge_cases (List.length pixels) ((_HASH_SIZE + 1) * _HASH_SIZE))
      as [Hlt|Hge]; [exact Hlt|exfalso].
    rewrite <- phash_pixels_firstn in Hnone.
    destruct (phash_pixels_bits (firstn ((_HASH_SIZE + 1) * _HASH_SIZE) pixels))
      as (bits & E & _).
    + apply firstn_length_le, Hge.
    + congruence.
  - intros Hlt. destruct (phash_pixels pixels) as [bits|] eqn:E; [|reflexivity].
    exfalso. unfold phash_pixels, range in E.
    destruct (for_each_some _ _ _ _ 15%nat E) as (a & a' & Erow).
    { apply in_seq. unfold _HASH_SIZE. lia. }
    destruct (for_each_some _ _ _ _ 15%nat Erow) as (b & b' & Ecell).
    { apply in_seq. unfold _HASH_SIZE. lia. }
    unfold phash_cell, _HASH_SIZE in Ecell, Hlt.
    destruct (nth_error pixels (15 * (16 + 1) + 15)); [|discriminate].
    destruct (nth_error pixels (15 * (16 + 1) + 15 + 1)) eqn:En; [|discriminate].
    assert (Hsome : nth_error pixels (15 * (16 + 1) + 15 + 1) <> None)
      by congruence.
    apply nth_error_Some in Hsome. lia.
Qed.

(** X4.  The fingerprint depends on the order of neighbouring
    luminance values only: re-mapping all values by a strictly
    increasing function, a change of brightness or contrast, leaves it
    as it is. *)
Theorem phash_monotone_invariant (f : Z -> Z) (pixels : list Z) :
  (forall p q, p < q -> f p < f q) ->
  phash_pixels (map f pixels) = phash_pixels pixels.
Proof.
  intros Hf. apply phash_pixels_ext. intros row col b _ _.
  unfold phash_cell. rewrite !nth_error_map.
  destruct (nth_error pixels _) as [p|]; [|reflexivity].
  destruct (nth_error pixels _) as [q|]; [|reflexivity].
  cbn [option_map]. do 2 f_equal.
  destruct (Z.gtb_spec p q) as [Hgt|Hle]; destruct (Z.gtb_spec (f p) (f q));
    try reflexivity.
  - specialize (Hf q p ltac:(lia)). lia.
  - destruct (Z.eq_dec p q) as [->|Hne]; [lia|].
    specialize (Hf p q ltac:(lia)). lia.
Qed.

Lemma phash_monotone_invariant_witness :
  phash_pixels (map (fun p => 2 * p + 10) img_7) = phash_pixels img_7.
Proof.
  apply (phash_monotone_invariant (fun p => 2 * p + 10) img_7).
  intros p q Hpq. lia.
Defined.

Lemma rev_seq (n : nat) : rev (seq 0 n) = map (fun k => (n - 1 - k)%nat) (seq 0 n).
Proof.
  induction n as [|n IH]; [reflexivity|].
  rewrite (seq_S n 0) at 1. rewrite rev_app_distr, IH.
  change (seq 0 (S n)) with (0%nat :: seq 1 n). cbn [rev app map].
  rewrite <- seq_shift, map_map. f_equal; [lia|].
  apply map_ext. intros k. lia.
Qed.

(** Counting downwards or upwards counts the same positions. *)
Lemma filter_seq_reverse (g : nat -> bool) (n : nat) :
  List.length (filter g (seq 0 n))
  = List.length (filter (fun k => g (n - 1 - k)%nat) (seq 0 n)).
Proof.
  rewrite <- (length_rev (filter g (seq 0 n))), <- filter_rev, rev_seq.
  rewrite filter_map_swap, length_map. reflexivity.
Qed.

(** Bit [255 - k] of a fingerprint is the comparison of cell [k]. *)
Lemma phash_pixels_cell_bits (pixels : list Z) (bits : Z) (k : nat) :
  List.length pixels = ((_HASH_SIZE + 1) * _HASH_SIZE)%nat ->
  phash_pixels pixels = Some bits -> (k < _HASH_SIZE * _HASH_SIZE)%nat ->
  Z.testbit bits (Z.of_nat (_HASH_SIZE * _HASH_SIZE - 1 - k)) = cell_bit pixels k.
Proof.
  intros Hlen E Hk.
  destruct (phash_pixels_bits pixels Hlen) as (bits' & E' & _ & _ & Hbits).
  assert (bits' = bits) by congruence. subst bits'.
  unfold cell_bit. unfold _HASH_SIZE in Hk.
  rewrite <- (Hbits (k / _HASH_SIZE)%nat (k mod _HASH_SIZE)%nat).
  - f_equal. unfold hash_bits.
    pose proof (Nat.div_mod_eq k _HASH_SIZE) as Hdm.
    unfold _HASH_SIZE in *. lia.
  - unfold _HASH_SIZE. apply Nat.Div0.div_lt_upper_bound. lia.
  - unfold _HASH_SIZE. apply Nat.mod_upper_bound. lia.
Qed.

(** X5.  Two fingerprints of 17 x 16 pixel lists are equal exactly when
    all 256 comparisons agree, and their Hamming distance is the number
    of grid cells whose comparison differs. *)
Theorem phash_distance_counts_cells (px px' : list Z) (h h' : Z) :
  List.length px = ((_HASH_SIZE + 1) * _HASH_SIZE)%nat ->
  List.length px' = ((_HASH_SIZE + 1) * _HASH_SIZE)%nat ->
  phash_pixels px = Some h -> phash_pixels px' = Some h' ->
  (h = h' <->
   forall k, (k < _HASH_SIZE * _HASH_SIZE)%nat -> cell_bit px k = cell_bit px' k) /\
  _hamming h h'
  = Z.of_nat (List.length
                (filter (fun k => xorb (cell_bit px k) (cell_bit px' k))
                        (seq 0 (_HASH_SIZE * _HASH_SIZE)))).
Proof.
  intros Hlen Hlen' E E'.
  pose proof (phash_pixels_range _ _ E) as Hr.
  pose proof (phash_pixels_range _ _ E') as Hr'.
  split; [split|].
  - intros <- k Hk.
    rewrite <- (phash_pixels_cell_bits px h k Hlen E Hk).
    apply (phash_pixels_cell_bits px' h k Hlen' E' Hk).
  - intros Hcells. apply Z.bits_inj'. intros i Hi.
    destruct (Z_lt_le_dec i hash_bits) as [Hlt|Hge].
    + unfold hash_bits in Hlt.
      replace i with (Z.of_nat (_HASH_SIZE * _HASH_SIZE - 1 - Z.to_nat (hash_bits - 1 - i)))
        by (unfold hash_bits, _HASH_SIZE in *; lia).
      rewrite (phash_pixels_cell_bits px h _ Hlen E),
        (phash_pixels_cell_bits px' h' _ Hlen' E');
        try (unfold hash_bits, _HASH_SIZE in *; lia).
      apply Hcells. unfold hash_bits, _HASH_SIZE in *. lia.
    + rewrite (lt_pow2_high_bits h _ i Hr Hge), (lt_pow2_high_bits h' _ i Hr' Hge).
      reflexivity.
  - rewrite (hamming_differing (_HASH_SIZE * _HASH_SIZE) h h' Hr Hr').
    f_equal. unfold differing_bits. rewrite filter_seq_reverse.
    f_equal. apply filter_ext_in. intros k Hk. apply in_seq in Hk.
    rewrite (phash_pixels_cell_bits px h k Hlen E),
      (phash_pixels_cell_bits px' h' k Hlen' E') by lia.
    reflexivity.
Qed.

Lemma phash_distance_counts_cells_witness :
  _hamming 7 24
  = Z.of_nat (List.length
                (filter (fun k => xorb (cell_bit img_7 k) (cell_bit img_24 k))
                        (seq 0 (_HASH_SIZE * _HASH_SIZE)))).
Proof.
  apply (phash_distance_counts_cells img_7 img_24 7 24);
    vm_compute; reflexivity.
Defined.

(** ** What [deduplicate] returns *)

Lemma reduce_spaced (P : pillow) (m : Z) (paths : list string) (b : option Z) :
  spaced P m b (reduce P m b paths).
Proof.
  revert b. induction paths as [|p ps IH]; intros b; cbn [reduce]; [exact I|].
  destruct (try_phash P p) as [h|] eqn:E; [|apply IH].
  destruct b as [h0|].
  - destruct (Z.gtb_spec (_hamming h h0) m) as [Hgt|Hle]; [|apply IH].
    cbn [spaced]. exists h. repeat split; [exact E|lia|apply IH].
  - cbn [spaced]. exists h. repeat split; [exact E|apply IH].
Qed.

(** A spaced list passes through the pass untouched. *)
Lemma reduce_of_spaced (P : pillow) (m : Z) (out : list string) (b : option Z) :
  spaced P m b out -> reduce P m b out = out.
Proof.
  revert b. induction out as [|q rest IH]; intros b Hs; [reflexivity|].
  cbn [spaced] in Hs. destruct Hs as (h & E & Hfar & Hrest).
  cbn [reduce]. rewrite E.
  replace (match b with None => true | Some h0 => _hamming h h0 >? m end)
    with true.
  - f_equal. apply IH, Hrest.
  - destruct b as [h0|]; [|reflexivity]. symmetry. apply Z.gtb_lt. lia.
Qed.

Lemma spaced_adjacent (P : pillow) (m : Z) (out : list string) (b : option Z)
    (i : nat) :
  spaced P m b out -> (S i < List.length out)%nat ->
  exists h1 h2,
    try_phash P (nth i out EmptyString) = Some h1 /\
    try_phash P (nth (S i) out EmptyString) = Some h2 /\
    _hamming h2 h1 > m.
Proof.
  revert b i. induction out as [|q rest IH]; intros b i Hs Hi; [cbn in Hi; lia|].
  cbn [spaced] in Hs. destruct Hs as (h & E & _ & Hrest).
  destruct i as [|i].
  - destruct rest as [|q2 rest2]; [cbn in Hi; lia|].
    cbn [spaced] in Hrest. destruct Hrest as (h2 & E2 & Hfar & _).
    exists h, h2. cbn [nth]. auto.
  - cbn [nth]. apply (IH (Some h) i Hrest). cbn in Hi. lia.
Qed.

(** X6.  In the list [deduplicate] returns, each path has a fingerprint
    and any two neighbours have fingerprints at Hamming distance
    strictly greater than the cutoff: no two consecutive kept frames
    are near-duplicates of one another. *)
Theorem kept_neighbours_far_apart (P : pillow) (m : Z) (paths : list string)
    (i : nat) :
  (S i < List.length (dedup_with P m paths))%nat ->
  exists h1 h2,
    try_phash P (nth i (dedup_with P m paths) EmptyString) = Some h1 /\
    try_phash P (nth (S i) (dedup_with P m paths) EmptyString) = Some h2 /\
    _hamming h2 h1 > m.
Proof.
  rewrite dedup_with_reduce. apply spaced_adjacent with (b := None).
  apply reduce_spaced.
Qed.

Lemma kept_neighbours_far_apart_witness :
  (1 < List.length (dedup_with four_slides 3 four_paths))%nat /\
  exists h1 h2,
    try_phash four_slides (nth 0 (dedup_with four_slides 3 four_paths) EmptyString)
    = Some h1 /\
    try_phash four_slides (nth 1 (dedup_with four_slides 3 four_paths) EmptyString)
    = Some h2 /\
    _hamming h2 h1 > 3.
Proof.
  assert (H : (1 < List.length (dedup_with four_slides 3 four_paths))%nat)
    by (vm_compute; lia).
  split; [exact H|].
  apply (kept_neighbours_far_apart four_slides 3 four_paths 0 H).
Defined.

(** X7.  Running the pass on its own result changes nothing:
    [deduplicate] is idempotent for a fixed threshold. *)
Theorem deduplicate_idempotent (P : pillow) (paths out : list string)
    (t : float) :
  deduplicate P paths t = Ok out -> deduplicate P out t = Ok out.
Proof.
  unfold deduplicate. destruct (max_dist_of t) as [m|]; [|discriminate].
  intros E. injection E as <-. f_equal.
  rewrite !dedup_with_reduce. apply reduce_of_spaced, reduce_spaced.
Qed.

Lemma deduplicate_idempotent_witness :
  deduplicate four_slides four_paths 0.98828125%float
  = Ok ["slide_000001.png"; "slide_000003.png"; "slide_000004.png"]%string /\
  deduplicate four_slides
    ["slide_000001.png"; "slide_000003.png"; "slide_000004.png"]%string
    0.98828125%float
  = Ok ["slide_000001.png"; "slide_000003.png"; "slide_000004.png"]%string.
Proof.
  assert (E : deduplicate four_slides four_paths 0.98828125%float
              = Ok ["slide_000001.png"; "slide_000003.png";
                    "slide_000004.png"]%string)
    by (vm_compute; reflexivity).
  split; [exact E|].
  apply (deduplicate_idempotent four_slides four_paths _ _ E).
Defined.

Lemma reduce_covers (P : pillow) (m : Z) (paths : list string) (p : string)
    (h : Z) (b : option Z) :
  0 <= m -> In p paths -> try_phash P p = Some h ->
  (exists q hq, In q (reduce P m b paths) /\ try_phash P q = Some hq /\
                _hamming h hq <= m) \/
  (exists h0, b = Some h0 /\ _hamming h h0 <= m).
Proof.
  intros Hm. revert b. induction paths as [|x rest IH]; intros b Hin Ep;
    [contradiction|].
  cbn [reduce]. destruct Hin as [->|Hin].
  - rewrite Ep. destruct b as [h0|].
    + destruct (Z.gtb_spec (_hamming h h0) m) as [Hgt|Hle].
      * left. exists p, h. rewrite hamming_self. cbn. auto.
      * right. eauto.
    + left. exists p, h. rewrite hamming_self. cbn. auto.
  - destruct (try_phash P x) as [hx|] eqn:Ex; [|apply IH; assumption].
    destruct (match b with None => true | Some h0 => _hamming hx h0 >? m end).
    + destruct (IH (Some hx) Hin Ep) as [(q & hq & Hq & Eq & Hd)|(h0 & E0 & Hd)].
      * left. exists q, hq. cbn. auto.
      * injection E0 as <-. left. exists x, hx. cbn. auto.
    + destruct (IH b Hin Ep) as [(q & hq & Hq & Eq & Hd)|Hb]; [|auto].
      left. exists q, hq. auto.
Qed.

(** X8.  With a non-negative cutoff no readable candidate is lost
    without a stand-in: each one is kept itself or lies within the
    cutoff of a frame that is kept. *)
Theorem every_frame_represented (P : pillow) (m : Z) (paths : list string)
    (p : string) (h : Z) :
  0 <= m -> In p paths -> try_phash P p = Some h ->
  exists q hq,
    In q (dedup_with P m paths) /\ try_phash P q = Some hq /\
    _hamming h hq <= m.
Proof.
  intros Hm Hin Ep. rewrite dedup_with_reduce.
  destruct (reduce_covers P m paths p h None Hm Hin Ep)
    as [Hq|(h0 & E0 & _)]; [exact Hq|discriminate].
Qed.

Lemma every_frame_represented_witness :
  exists q hq,
    In q (dedup_with four_slides 3 four_paths) /\
    try_phash four_slides q = Some hq /\ _hamming 0 hq <= 3.
Proof.
  apply (every_frame_represented four_slides 3 four_paths "slide_000002.png" 0).
  - lia.
  - cbn. auto.
  - vm_compute. reflexivity.
Defined.

Lemma reduce_app (P : pillow) (m : Z) (a b : list string) (b0 : option Z) :
  exists b1,
    reduce P m b0 (a ++ b) = reduce P m b0 a ++ reduce P m b1 b.
Proof.
  revert b0. induction a as [|x a IH]; intros b0; [exists b0; reflexivity|].
  cbn [app reduce]. destruct (try_phash P x) as [hx|]; [|apply IH].
  destruct (match b0 with None => true | Some h0 => _hamming hx h0 >? m end).
  - destruct (IH (Some hx)) as [b1 ->]. exists b1. reflexivity.
  - apply IH.
Qed.

(** X9.  The pass is a single forward sweep: the result for a prefix of
    the candidates is a prefix of the result for all of them, and what
    follows it is chosen among the later candidates only. *)
Theorem deduplicate_prefix (P : pillow) (m : Z) (a b : list string) :
  exists tail,
    dedup_with P m (a ++ b) = dedup_with P m a ++ tail /\ subseq tail b.
Proof.
  rewrite !dedup_with_reduce.
  destruct (reduce_app P m a b None) as [b1 ->].
  exists (reduce P m b1 b). split; [reflexivity|apply reduce_subseq].
Qed.

(** The log of the loop: one warning for each unreadable path. *)
Lemma run_loop_log (P : pillow) (m : Z) (paths : list string) (st : loop_state) :
  log (run_loop P m st paths)
  = log st ++ map Warning_skipping
                  (filter (fun q => negb (readable P q)) paths).
Proof.
  revert st. induction paths as [|p ps IH]; intros st.
  - cbn. symmetry. apply app_nil_r.
  - rewrite run_loop_cons, IH. cbn [filter]. unfold readable at 2.
    destruct (loop_body_cases P m st p)
      as [(E & _ & _ & L)|[(h & E & _ & _ & _ & L)|(h & E & _ & S)]];
      rewrite E; cbn [negb map].
    + rewrite L, <- app_assoc. reflexivity.
    + rewrite L. reflexivity.
    + rewrite S. reflexivity.
Qed.

(** X10.  The log of a call that returns is: the number of candidates
    with the cutoff, then one warning for each unreadable candidate in
    order, then the number of paths returned; kept and skipped frames
    together never exceed the candidates. *)
Theorem deduplicate_log_complete (P : pillow) (paths : list string) (t : float)
    (m : Z) :
  max_dist_of t = Ok m ->
  deduplicate_log P paths t
  = Ok (Info_frames_in (List.length paths) m
        :: map Warning_skipping (filter (fun q => negb (readable P q)) paths)
        ++ [Info_kept (List.length (dedup_with P m paths))]) /\
  deduplicate P paths t = Ok (dedup_with P m paths) /\
  (List.length (dedup_with P m paths)
   + List.length (filter (fun q => negb (readable P q)) paths)
   <= List.length paths)%nat.
Proof.
  intros Em. unfold deduplicate_log, deduplicate. rewrite Em.
  split; [|split; [reflexivity|]].
  - unfold dedup_with, final_state. rewrite run_loop_log. reflexivity.
  - rewrite dedup_with_reduce, reduce_filter.
    pose proof (subseq_length _ _
                  (reduce_subseq P m (filter (readable P) paths) None)) as Hle.
    pose proof (filter_length (readable P) paths) as Hsum. lia.
Qed.

Lemma deduplicate_log_complete_witness :
  max_dist_of 0.9375%float = Ok 16 /\
  deduplicate_log black_white ("nope.png" :: three_paths)%string 0.9375%float
  = Ok [Info_frames_in 4 16; Warning_skipping "nope.png"; Info_kept 1].
Proof.
  assert (Em : max_dist_of 0.9375%float = Ok 16) by (vm_compute; reflexivity).
  split; [exact Em|].
  destruct (deduplicate_log_complete black_white
              ("nope.png" :: three_paths)%string _ _ Em) as (E & _).
  rewrite E. vm_compute. reflexivity.
Defined.

(** ** [export_images]: names *)

Lemma of_uint_pad_zeros (k : nat) (d : Decimal.uint) :
  Nat.of_uint (pad_zeros k d) = Nat.of_uint d.
Proof. induction k as [|k IH]; [reflexivity|exact IH]. Qed.

(** Digits followed by a dot-suffix split in one way only. *)
Lemma digits_then_dot (d d' : Decimal.uint) (e e' : string) :
  (DecimalString.NilEmpty.string_of_uint d ++ String "." e
   = DecimalString.NilEmpty.string_of_uint d' ++ String "." e')%string ->
  d = d' /\ e = e'.
Proof.
  revert d'. induction d as [|d IH|d IH|d IH|d IH|d IH|d IH|d IH|d IH|d IH|d IH];
    intros d' H; destruct d'; cbn in H; try discriminate;
    try (injection H as H; destruct (IH _ H) as [-> ->]; split; reflexivity).
  injection H as ->. split; reflexivity.
Qed.

Lemma slide_file_name_inj (i j : nat) (e e' : string) :
  slide_file_name i (String "." e) = slide_file_name j (String "." e') ->
  i = j /\ e = e'.
Proof.
  unfold slide_file_name, format_03d. intros H.
  cbn [String.append] in H. injection H as H.
  apply digits_then_dot in H. destruct H as [Hd ->]. split; [|reflexivity].
  apply (f_equal Nat.of_uint) in Hd.
  rewrite !of_uint_pad_zeros, !DecimalNat.Unsigned.of_to in Hd. exact Hd.
Qed.

Lemma compare_app_lt (a b x y : string) :
  String.compare a b = Lt -> String.length a = String.length b ->
  String.compare (a ++ x) (b ++ y) = Lt.
Proof.
  revert b. induction a as [|c a IH]; intros b Hab Hlen; destruct b as [|c' b];
    cbn in *; try discriminate.
  destruct (Ascii.compare c c'); try discriminate; [|reflexivity].
  apply IH; [exact Hab|lia].
Qed.

Lemma strictly_increasing_nth (l : list string) (i j : nat) :
  strictly_increasing l = true -> (i < j < List.length l)%nat ->
  String.ltb (nth i l EmptyString) (nth j l EmptyString) = true.
Proof.
  revert i j. induction l as [|s l IH]; intros i j Hs Hij; [cbn in Hij; lia|].
  cbn [strictly_increasing] in Hs. apply andb_true_iff in Hs.
  destruct Hs as [Hhead Htail]. destruct j as [|j]; [lia|].
  destruct i as [|i].
  - cbn [nth]. rewrite forallb_forall in Hhead. apply Hhead, nth_In.
    cbn in Hij. lia.
  - cbn [nth]. apply IH; [exact Htail|]. cbn in Hij. lia.
Qed.

Lemma three_digit_names_sorted :
  strictly_increasing (map format_03d (seq 0 1000)) = true /\
  forallb (fun s => (String.length s =? 3)%nat) (map format_03d (seq 0 1000))
  = true.
Proof. split; vm_compute; reflexivity. Qed.

Lemma format_03d_upto (i : nat) :
  (i < 1000)%nat ->
  nth i (map format_03d (seq 0 1000)) EmptyString = format_03d i.
Proof.
  intros Hi.
  rewrite (nth_indep _ EmptyString (format_03d 0)) by (rewrite length_map, length_seq; exact Hi).
  rewrite map_nth, seq_nth by exact Hi. reflexivity.
Qed.

(** X11.  The names [export_images] gives are told apart by the number
    alone, whatever the extensions; and up to 999 images with one
    extension they sort, as strings, in the order of the numbers, which
    the thousandth image breaks. *)
Theorem slide_names_distinct_and_sorted (i j : nat) (e e' : string) :
  (slide_file_name i (String "." e) = slide_file_name j (String "." e') ->
   i = j /\ e = e') /\
  ((i < j <= 999)%nat ->
   String.ltb (slide_file_name i (String "." e))
              (slide_file_name j (String "." e)) = true) /\
  String.ltb (slide_file_name 1000 (String "." e))
             (slide_file_name 999 (String "." e)) = true.
Proof.
  split; [apply slide_file_name_inj|]. split; [|reflexivity].
  intros Hij. destruct three_digit_names_sorted as [Hsorted Hlen].
  pose proof (strictly_increasing_nth _ i j Hsorted) as Hlt.
  rewrite length_map, length_seq, !format_03d_upto in Hlt by lia.
  specialize (Hlt ltac:(lia)).
  rewrite forallb_forall in Hlen.
  assert (Hli : String.length (format_03d i) = 3%nat).
  { apply Nat.eqb_eq, Hlen. rewrite <- (format_03d_upto i) by lia.
    apply nth_In. rewrite length_map, length_seq. lia. }
  assert (Hlj : String.length (format_03d j) = 3%nat).
  { apply Nat.eqb_eq, Hlen. rewrite <- (format_03d_upto j) by lia.
    apply nth_In. rewrite length_map, length_seq. lia. }
  clear Hsorted Hlen. unfold String.ltb in Hlt. unfold String.ltb, slide_file_name.
  destruct (String.compare (format_03d i) (format_03d j)) eqn:Ec;
    [discriminate Hlt| |discriminate Hlt].
  change (String.compare ("slide_" ++ format_03d i ++ String "." e)
                         ("slide_" ++ format_03d j ++ String "." e))
    with (String.compare (format_03d i ++ String "." e)
                         (format_03d j ++ String "." e)).
  rewrite (compare_app_lt _ _ _ _ Ec) by congruence. reflexivity.
Qed.

Lemma slide_names_distinct_and_sorted_witness :
  (2 < 10 <= 999)%nat /\
  String.ltb (slide_file_name 2 ".png") (slide_file_name 10 ".png") = true.
Proof.
  assert (H : (2 < 10 <= 999)%nat) by lia.
  split; [exact H|].
  destruct (slide_names_distinct_and_sorted 2 10 "png" "png") as (_ & Hlt & _).
  exact (Hlt H).
Defined.

(** ** [export_images]: what it does to the files *)

Section ExportImages.
Variable O : file_system.

(** What the code relies on: [shutil.copy2] gives the destination the
    content of the source and touches no other file, also when it
    fails; [os.makedirs] changes no file; [os.path.join] keeps two
    slide names in one folder apart; a suffix is empty or starts with a
    dot. *)
Hypothesis copy2_spec : forall st src dest,
  match copy2 O st src dest with
  | Returned st' =>
      read O st' dest = read O st src /\
      forall p, p <> dest -> read O st' p = read O st p
  | Failed _ st' => forall p, p <> dest -> read O st' p = read O st p
  end.
Hypothesis makedirs_spec : forall st folder,
  match makedirs O st folder with
  | Returned st' | Failed _ st' => forall p, read O st' p = read O st p
  end.
Hypothesis path_join_spec : forall folder i j e e',
  path_join O folder (slide_file_name i e)
  = path_join O folder (slide_file_name j e') ->
  slide_file_name i e = slide_file_name j e'.
Hypothesis path_suffix_spec : forall src,
  path_suffix O src = EmptyString \/
  exists rest, path_suffix O src = String "." rest.

Lemma suffix_or_png_dotted (src : string) :
  exists rest, suffix_or_png O src = String "." rest.
Proof.
  unfold suffix_or_png.
  destruct (path_suffix_spec src) as [E|[rest E]]; rewrite E; cbn; eauto.
Qed.

Lemma export_dest_number (folder : string) (i j : nat) (src src' : string) :
  export_dest O folder i src = export_dest O folder j src' -> i = j.
Proof.
  unfold export_dest. intros H. apply path_join_spec in H.
  destruct (suffix_or_png_dotted src) as [e E].
  destruct (suffix_or_png_dotted src') as [e' E'].
  rewrite E, E' in H. apply slide_file_name_inj in H. tauto.
Qed.

Lemma export_dests_numbers (folder : string) (paths : list string) (i : nat)
    (p : string) :
  In p (export_dests O folder i paths) ->
  exists j src, (i <= j)%nat /\ p = export_dest O folder j src.
Proof.
  revert i. induction paths as [|src rest IH]; intros i Hin; [contradiction|].
  cbn [export_dests] in Hin. destruct Hin as [<-|Hin].
  - exists i, src. split; [lia|reflexivity].
  - destruct (IH (S i) Hin) as (j & src' & Hj & E).
    exists j, src'. split; [lia|exact E].
Qed.

Lemma export_dests_NoDup (folder : string) (paths : list string) (i : nat) :
  NoDup (export_dests O folder i paths).
Proof.
  revert i. induction paths as [|src rest IH]; intros i; cbn [export_dests];
    constructor; [|apply IH].
  intros Hin. destruct (export_dests_numbers _ _ _ _ Hin) as (j & src' & Hj & E).
  apply export_dest_number in E. lia.
Qed.

Lemma export_dests_length (folder : string) (paths : list string) (i : nat) :
  List.length (export_dests O folder i paths) = List.length paths.
Proof.
  revert i. induction paths as [|src rest IH]; intros i; [reflexivity|].
  cbn [export_dests List.length]. rewrite IH. reflexivity.
Qed.

(** The loop writes to its destinations only, however it ends. *)
Lemma export_loop_untouched (folder : string) (paths : list string) (i : nat)
    (st : fs O) (p : string) :
  ~ In p (export_dests O folder i paths) ->
  read O (fst (export_loop O folder i paths st)) p = read O st p.
Proof.
  revert i st. induction paths as [|src rest IH]; intros i st Hnot;
    [reflexivity|].
  cbn [export_loop export_dests] in *.
  pose proof (copy2_spec st src (export_dest O folder i src)) as Hc.
  destruct (copy2 O st src (export_dest O folder i src)) as [st'|msg st'].
  - rewrite IH by (intros H; apply Hnot; right; exact H).
    apply Hc. intros ->. apply Hnot. left. reflexivity.
  - cbn [fst]. apply Hc. intros ->. apply Hnot. left. reflexivity.
Qed.

Lemma export_loop_copies (folder : string) (paths : list string) (i : nat)
    (st st' : fs O) (k : nat) :
  export_loop O folder i paths st = (st', None) ->
  (forall src, In src paths -> ~ In src (export_dests O folder i paths)) ->
  (k < List.length paths)%nat ->
  read O st' (nth k (export_dests O folder i paths) EmptyString)
  = read O st (nth k paths EmptyString).
Proof.
  revert i st k. induction paths as [|src rest IH]; intros i st k E Hsrc Hk;
    [cbn in Hk; lia|].
  cbn [export_loop export_dests] in *.
  pose proof (copy2_spec st src (export_dest O folder i src)) as Hc.
  destruct (copy2 O st src (export_dest O folder i src)) as [st1|msg st1];
    [|discriminate].
  destruct Hc as [Hdest Hother].
  pose proof (export_dests_NoDup folder (src :: rest) i) as Hnd.
  cbn [export_dests] in Hnd. inversion Hnd as [|? ? Hfresh _]; subst.
  destruct k as [|k]; cbn [nth].
  - rewrite <- Hdest.
    rewrite <- (export_loop_untouched folder rest (S i) st1 _ Hfresh).
    rewrite E. reflexivity.
  - rewrite (IH (S i) st1 k E).
    + apply Hother. intros Heq.
      apply (Hsrc (nth k rest EmptyString)).
      * right. apply nth_In. cbn in Hk. lia.
      * left. symmetry. exact Heq.
    + intros s Hs Hin. apply (Hsrc s); [right; exact Hs|right; exact Hin].
    + cbn in Hk. lia.
Qed.

(** X12.  [export_images] refuses an empty selection before it touches
    anything.  Otherwise its destinations are pairwise different, one
    for each image, and whether it returns or stops at an exception
    every file that is not a destination keeps its content.  When it
    returns, and no image lies at one of the destinations, the k-th
    destination holds what the k-th image held. *)
Theorem export_images_effect (st : fs O) (image_paths : list string)
    (dest_folder : string) :
  let dests := export_dests O dest_folder 1 image_paths in
  let st' := fst (export_images O st image_paths dest_folder) in
  (image_paths = [] ->
   export_images O st image_paths dest_folder = (st, Some No_images_selected)) /\
  NoDup dests /\ List.length dests = List.length image_paths /\
  (forall p, ~ In p dests -> read O st' p = read O st p) /\
  (snd (export_images O st image_paths dest_folder) = None ->
   image_paths <> [] /\
   ((forall src, In src image_paths -> ~ In src dests) ->
    forall k, (k < List.length image_paths)%nat ->
      read O st' (nth k dests EmptyString)
      = read O st (nth k image_paths EmptyString))).
Proof.
  intros dests st'. subst dests st'.
  split; [intros ->; reflexivity|].
  split; [apply export_dests_NoDup|]. split; [apply export_dests_length|].
  unfold export_images. destruct image_paths as [|src rest]; cbn [fst snd].
  - split; [reflexivity|discriminate].
  - pose proof (makedirs_spec st dest_folder) as Hm.
    destruct (makedirs O st dest_folder) as [st1|msg st1]; cbn [fst snd].
    + split.
      * intros p Hp. rewrite export_loop_untouched by exact Hp. apply Hm.
      * intros Hnone. split; [discriminate|]. intros Hsrc k Hk.
        destruct (export_loop O dest_folder 1 (src :: rest) st1)
          as [st2 e] eqn:E. cbn [fst snd] in *. subst e.
        rewrite (export_loop_copies _ _ _ _ _ k E Hsrc Hk). apply Hm.
    + split; [intros p _; apply Hm|discriminate].
Qed.

End ExportImages.

Lemma append_inj_l (a b c : string) : (a ++ b = a ++ c)%string -> b = c.
Proof.
  induction a as [|x a IH]; cbn; intros H; [exact H|].
  injection H as H. exact (IH H).
Qed.

Lemma list_fs_copy2 : forall st src dest,
  match copy2 list_fs st src dest with
  | Returned st' =>
      read list_fs st' dest = read list_fs st src /\
      forall p, p <> dest -> read list_fs st' p = read list_fs st p
  | Failed _ st' => forall p, p <> dest -> read list_fs st' p = read list_fs st p
  end.
Proof.
  intros st src dest. cbn. destruct (lookup_file st src) as [c|] eqn:E.
  - cbn. rewrite String.eqb_refl. split; [reflexivity|].
    intros p Hp. apply not_eq_sym, String.eqb_neq in Hp. rewrite Hp. reflexivity.
  - reflexivity.
Qed.

Lemma list_fs_makedirs : forall st folder,
  match makedirs list_fs st folder with
  | Returned st' | Failed _ st' =>
      forall p, read list_fs st' p = read list_fs st p
  end.
Proof. intros st folder p. reflexivity. Qed.

Lemma list_fs_join : forall folder i j e e',
  path_join list_fs folder (slide_file_name i e)
  = path_join list_fs folder (slide_file_name j e') ->
  slide_file_name i e = slide_file_name j e'.
Proof.
  intros folder i j e e' H. cbn in H.
  apply append_inj_l in H. apply (append_inj_l "/") in H. exact H.
Qed.

Lemma list_fs_suffix : forall src,
  path_suffix list_fs src = EmptyString \/
  exists rest, path_suffix list_fs src = String "." rest.
Proof.
  intros src. cbn.
  destruct (String.eqb (substring (String.length src - 4) 4 src) ".png");
    [right; exists "png"%string; reflexivity|left; reflexivity].
Qed.

Lemma export_images_effect_witness :
  let st := [("/tmp/a.png", "first"); ("/tmp/b", "second")]%string in
  let st' := fst (export_images list_fs st ["/tmp/b"; "/tmp/a.png"]%string
                    "/home/out"%string) in
  read list_fs st' "/home/out/slide_001.png" = Some "second"%string /\
  read list_fs st' "/home/out/slide_002.png" = Some "first"%string.
Proof.
  intros st st'.
  destruct (export_images_effect list_fs list_fs_copy2 list_fs_makedirs
              list_fs_join list_fs_suffix
              st ["/tmp/b"; "/tmp/a.png"]%string "/home/out"%string)
    as (_ & _ & _ & _ & Hok).
  destruct (Hok eq_refl) as [_ Hcopy].
  assert (Hsrc : forall src, In src ["/tmp/b"; "/tmp/a.png"]%string ->
            ~ In src (export_dests list_fs "/home/out" 1
                        ["/tmp/b"; "/tmp/a.png"]%string)).
  { intros src [<-|[<-|[]]] [H|[H|[]]]; discriminate H. }
  split.
  - exact (Hcopy Hsrc 0%nat (Nat.lt_0_succ 1)).
  - exact (Hcopy Hsrc 1%nat (Nat.lt_succ_diag_r 1)).
Defined.

(** ** The review window *)

Lemma sum_selected_count (cards : list SlideCard) :
  sum_selected cards = List.length (filter selected cards).
Proof.
  unfold sum_selected.
  assert (H : forall acc,
             fold_left (fun a c => (a + (if selected c then 1 else 0))%nat)
                       cards acc
             = (acc + List.length (filter selected cards))%nat).
  { induction cards as [|c cards IH]; intros acc; cbn [fold_left filter].
    - cbn. lia.
    - rewrite IH. destruct (selected c); cbn [List.length]; lia. }
  rewrite H. reflexivity.
Qed.

Lemma make_cards_paths (i : nat) (paths : list string) :
  map img_path (make_cards i paths) = paths.
Proof.
  revert i. induction paths as [|p ps IH]; intros i; [reflexivity|].
  cbn. rewrite IH. reflexivity.
Qed.

Lemma make_cards_selected (i : nat) (paths : list string) :
  filter selected (make_cards i paths) = make_cards i paths.
Proof.
  revert i. induction paths as [|p ps IH]; intros i; [reflexivity|].
  cbn. rewrite IH. reflexivity.
Qed.

Lemma perform_paths (w : ReviewWindow) (a : user_action) :
  map img_path (_cards (perform w a)) = map img_path (_cards w) /\
  _image_paths (perform w a) = _image_paths w.
Proof.
  destruct a as [k| |]; cbn; rewrite map_map; split; try reflexivity;
    apply map_ext; intros c; try reflexivity.
  destruct (index c =? k)%nat; reflexivity.
Qed.

Lemma perform_label (w : ReviewWindow) (a : user_action) :
  _count_label (perform w a)
  = count_text (List.length (selected_paths (perform w a)))
               (List.length (_cards (perform w a))).
Proof.
  unfold selected_paths. rewrite length_map, <- sum_selected_count.
  destruct a; reflexivity.
Qed.

Lemma filter_map_subseq {A B : Type} (f : A -> B) (g : A -> bool) (l : list A) :
  subseq (map f (filter g l)) (map f l).
Proof.
  induction l as [|x l IH]; cbn; [constructor|].
  destruct (g x); cbn; [apply subseq_take|apply subseq_skip]; exact IH.
Qed.

(** X13.  Whatever the user clicks in the review window, the cards stay
    the detected slides in their order, the selection is a subsequence
    of them in playback order, and the count label shows the number of
    selected cards out of all cards.  The window opens with every slide
    selected. *)
Theorem review_selection_invariant (image_paths : list string)
    (video_path : string) (actions : list user_action) :
  let w := fold_left perform actions (new_window image_paths video_path) in
  map img_path (_cards w) = image_paths /\
  subseq (selected_paths w) image_paths /\
  _count_label w
  = count_text (List.length (selected_paths w)) (List.length image_paths) /\
  selected_paths (new_window image_paths video_path) = image_paths.
Proof.
  intros w.
  assert (Hinit : selected_paths (new_window image_paths video_path)
                  = image_paths).
  { unfold selected_paths. cbn. rewrite make_cards_selected.
    apply make_cards_paths. }
  assert (Hinv : map img_path (_cards w) = image_paths /\
                 _count_label w
                 = count_text (List.length (selected_paths w))
                              (List.length (_cards w))).
  { subst w. induction actions as [|a actions IH] using rev_ind.
    - cbn [fold_left]. split; [apply make_cards_paths|].
      unfold selected_paths. rewrite length_map, <- sum_selected_count.
      reflexivity.
    - rewrite fold_left_app. cbn [fold_left]. destruct IH as [IHp _].
      split; [|apply perform_label].
      etransitivity; [apply perform_paths|exact IHp]. }
  destruct Hinv as [Hpaths Hlabel].
  split; [exact Hpaths|]. split; [|split; [|exact Hinit]].
  - rewrite <- Hpaths. apply filter_map_subseq.
  - rewrite Hlabel, <- Hpaths, length_map. reflexivity.
Qed.

(** X14.  The buttons hand [build_pdf] and [export_images] a non-empty
    list only, so neither can raise its "No images selected" error from
    the window; after "Deselect All" both buttons only warn, and after
    "Select All" they pass on every detected slide. *)
Theorem buttons_pass_nonempty_selection (O : file_system) (st : fs O)
    (w : ReviewWindow) (answer : string) :
  (forall sel path,
     _generate_pdf w answer = Call_build_pdf sel path ->
     sel = selected_paths w /\ sel <> [] /\ path = answer /\
     path <> EmptyString) /\
  (forall sel folder,
     _save_images w answer = Call_export_images sel folder ->
     sel = selected_paths w /\ sel <> [] /\
     snd (export_images O st sel folder) <> Some No_images_selected) /\
  _generate_pdf (_deselect_all w) answer = Warn_nothing_selected /\
  _save_images (_deselect_all w) answer = Warn_nothing_selected /\
  selected_paths (_select_all w) = map img_path (_cards w).
Proof.
  split; [|split; [|split; [|split]]].
  - unfold _generate_pdf. intros sel path H.
    destruct (selected_paths w) as [|s rest] eqn:E; [discriminate|].
    destruct (String.eqb_spec answer EmptyString) as [|Hne]; [discriminate|].
    injection H as <- <-. repeat split; [discriminate|exact Hne].
  - unfold _save_images. intros sel folder H.
    destruct (selected_paths w) as [|s rest] eqn:E; [discriminate|].
    destruct (String.eqb answer EmptyString); [discriminate|].
    injection H as <- <-. repeat split; [discriminate|].
    unfold export_images.
    destruct (makedirs O st answer); [|discriminate].
    assert (Hloop : forall paths i st0,
               snd (export_loop O answer i paths st0)
               <> Some No_images_selected).
    { induction paths as [|src ps IH]; intros i st0; cbn [export_loop];
        [discriminate|].
      destruct (copy2 O st0 src _); [apply IH|discriminate]. }
    apply Hloop.
  - unfold _generate_pdf, selected_paths. cbn [_deselect_all _update_count _cards].
    replace (filter selected (map (set_selected false) (_cards w)))
      with (@nil SlideCard); [reflexivity|].
    induction (_cards w) as [|c cs IH]; [reflexivity|exact IH].
  - unfold _save_images, selected_paths. cbn [_deselect_all _update_count _cards].
    replace (filter selected (map (set_selected false) (_cards w)))
      with (@nil SlideCard); [reflexivity|].
    induction (_cards w) as [|c cs IH]; [reflexivity|exact IH].
  - unfold selected_paths. cbn [_select_all _update_count _cards].
    induction (_cards w) as [|c cs IH]; [reflexivity|].
    cbn. rewrite IH. reflexivity.
Qed.

(** X15.  Clicking a card twice restores the window: the selection and
    the count label are as before. *)
Theorem toggle_twice (image_paths : list string) (video_path : string)
    (actions : list user_action) (k : nat) :
  let w := fold_left perform actions (new_window image_paths video_path) in
  _toggle k (_toggle k w) = w.
Proof.
  intros w.
  assert (Hlabel : _count_label w
                   = count_text (sum_selected (_cards w))
                                (List.length (_cards w))).
  { subst w. induction actions as [|a actions _] using rev_ind;
      [reflexivity|].
    rewrite fold_left_app. cbn [fold_left]. destruct a; reflexivity. }
  assert (Hcards : map (fun c => if (index c =? k)%nat
                                 then set_selected (negb (selected c)) c else c)
                     (map (fun c => if (index c =? k)%nat
                                    then set_selected (negb (selected c)) c
                                    else c) (_cards w))
                   = _cards w).
  { rewrite map_map. rewrite <- (map_id (_cards w)) at 2.
    apply map_ext. intros [p i s]. cbn.
    destruct (i =? k)%nat eqn:E; cbn; [|rewrite E; reflexivity].
    rewrite E. cbn. rewrite negb_involutive. reflexivity. }
  destruct w as [paths video cards label]. cbn in *.
  unfold _toggle, _update_count. cbn. rewrite Hcards. subst label.
  reflexivity.
Qed.

(** X16.  A thumbnail that fits the 220 x 140 frame is pasted inside
    it and centred: the margins on opposite sides differ by at most one
    pixel. *)
Theorem thumbnail_centred (width height : Z) :
  0 <= width <= THUMB_W -> 0 <= height <= THUMB_H ->
  let (x, y) := thumb_offset width height in
  0 <= x /\ x + width <= THUMB_W /\ 0 <= THUMB_W - width - x - x <= 1 /\
  0 <= y /\ y + height <= THUMB_H /\ 0 <= THUMB_H - height - y - y <= 1.
Proof.
  unfold thumb_offset, THUMB_W, THUMB_H. intros Hw Hh.
  pose proof (Z.div_mod (220 - width) 2 ltac:(lia)) as Hx.
  pose proof (Z.mod_pos_bound (220 - width) 2 ltac:(lia)) as Hxm.
  pose proof (Z.div_mod (140 - height) 2 ltac:(lia)) as Hy.
  pose proof (Z.mod_pos_bound (140 - height) 2 ltac:(lia)) as Hym.
  lia.
Qed.

Lemma thumbnail_centred_witness :
  0 <= 209 <= THUMB_W /\ 0 <= 140 <= THUMB_H /\
  let (x, y) := thumb_offset 209 140 in
  0 <= x /\ x + 209 <= THUMB_W /\ 0 <= THUMB_W - 209 - x - x <= 1 /\
  0 <= y /\ y + 140 <= THUMB_H /\ 0 <= THUMB_H - 140 - y - y <= 1.
Proof.
  assert (Hw : 0 <= 209 <= THUMB_W) by (unfold THUMB_W; lia).
  assert (Hh : 0 <= 140 <= THUMB_H) by (unfold THUMB_H; lia).
  split; [exact Hw|]. split; [exact Hh|].
  apply (thumbnail_centred 209 140 Hw Hh).
Defined.

(** X17.  The cards fill the grid row by row, four to a row: different
    cards get different cells, and a card's number is recovered from
    its cell. *)
Theorem grid_cells_distinct (i j : nat) :
  (snd (grid_cell i) < GRID_COLS)%nat /\
  (fst (grid_cell i) * GRID_COLS + snd (grid_cell i) = i)%nat /\
  (grid_cell i = grid_cell j -> i = j).
Proof.
  unfold grid_cell, GRID_COLS. cbn [fst snd].
  pose proof (Nat.div_mod_eq i 4) as Hi. pose proof (Nat.div_mod_eq j 4) as Hj.
  pose proof (Nat.mod_upper_bound i 4 ltac:(lia)) as Hmi.
  split; [exact Hmi|]. split; [lia|].
  intros H. assert (Hd : (i / 4 = j / 4)%nat) by congruence.
  assert (Hm : (i mod 4 = j mod 4)%nat) by congruence.
  congruence.
Qed.

(** ** Extraction and the main window *)

Lemma run_shape (P : pillow) (E : extraction_env) (t : float) :
  exists progress images error,
    (forall progress_cb done_cb,
       run P E t progress_cb done_cb
       = (if progress_cb then map Progress progress else [])
         ++ call done_cb (Done images error)) /\
    (error = None <->
     makedirs_raised E = None /\
     (exists err, ffmpeg E = Completed 0 err) /\
     glob_frames E <> [] /\
     deduplicate P (glob_frames E) t = Ok images) /\
    (error <> None -> images = []) /\
    (error = Some EmptyString ->
     makedirs_raised E = Some EmptyString \/
     ffmpeg E = Run_raised EmptyString).
Proof.
  unfold run.
  destruct (makedirs_raised E) as [msg|] eqn:Emk.
  { exists [], [], (Some msg).
    split; [intros [] d; reflexivity|].
    split; [split; [discriminate|intros [H _]; discriminate]|].
    split; [reflexivity|]. intros H. left. congruence. }
  destruct (ffmpeg E) as [msg|rc err] eqn:Eff.
  { exists [Pass_1_of_2], [], (Some msg).
    split; [intros [] d; reflexivity|].
    split; [split; [discriminate|intros (_ & [e He] & _); discriminate]|].
    split; [reflexivity|]. intros H. right. congruence. }
  destruct (Z.eqb_spec rc 0) as [->|Hrc]; cbn [negb].
  2:{ eexists [Pass_1_of_2], [], (Some _).
      split; [intros [] d; reflexivity|].
      split; [split; [discriminate|
                      intros (_ & [e He] & _); congruence]|].
      split; [reflexivity|]. intros H. discriminate H. }
  destruct (glob_frames E) as [|f fs0] eqn:Egl.
  { exists [Pass_1_of_2], [], (Some no_frames_message).
    split; [intros [] d; reflexivity|].
    split; [split; [discriminate|intros (_ & _ & Hne & _); congruence]|].
    split; [reflexivity|]. intros H. discriminate H. }
  destruct (deduplicate P (f :: fs0) t) as [unique|e] eqn:Ed.
  - exists [Pass_1_of_2; Pass_2_of_2 (List.length (f :: fs0));
            Done_unique (List.length unique)], unique, None.
    split; [intros [] d; reflexivity|].
    split; [split; [intros _; repeat split;
                    [exists err; reflexivity|discriminate]
                   |reflexivity]|].
    split; [congruence|discriminate].
  - exists [Pass_1_of_2; Pass_2_of_2 (List.length (f :: fs0))], [],
           (Some (str_of_exn e)).
    split; [intros [] d; reflexivity|].
    split; [split; [discriminate|intros (_ & _ & _ & H); discriminate]|].
    split; [reflexivity|]. intros H. destruct e; discriminate H.
Qed.

Lemma deduplicate_subseq (P : pillow) (paths out : list string) (t : float) :
  deduplicate P paths t = Ok out ->
  subseq out paths /\ Forall (fun q => readable P q = true) out /\
  (out = [] -> Forall (fun q => readable P q = false) paths).
Proof.
  unfold deduplicate. destruct (max_dist_of t) as [m|e]; [|discriminate].
  intros H. assert (Hout : out = reduce P m None paths).
  { rewrite <- dedup_with_reduce. congruence. }
  subst out. split; [apply reduce_subseq|]. split; [apply reduce_readable|].
  intros Hnil. pose proof (reduce_first_readable P m paths) as Hfirst.
  rewrite Hnil in Hfirst. cbn [List.length] in Hfirst.
  apply Forall_forall. intros q Hq.
  destruct (readable P q) eqn:Er; [|reflexivity].
  assert (Hin : In q (filter (readable P) paths))
    by (apply filter_In; split; assumption).
  destruct (filter (readable P) paths); [destruct Hin|].
  cbn in Hfirst. lia.
Qed.


Lemma process_cases (P : pillow) (E : extraction_env) (path : string)
    (t : float) :
  path <> EmptyString ->
  exists o,
    _process P E path true t = Finished [o] /\
    match o with
    | Open_review w =>
        exists images,
          deduplicate P (glob_frames E) t = Ok images /\
          images <> [] /\ subseq images (glob_frames E) /\
          Forall (fun q => readable P q = true) images /\
          w = new_window images path /\
          selected_paths w = images
    | Show_error e => e <> EmptyString
    | No_slides_detected =>
        makedirs_raised E = Some EmptyString \/
        ffmpeg E = Run_raised EmptyString \/
        (deduplicate P (glob_frames E) t = Ok [] /\
         glob_frames E <> [] /\
         Forall (fun q => readable P q = false) (glob_frames E))
    end.
Proof.
  intros Hpath. unfold _process.
  destruct (String.eqb_spec path EmptyString) as [|_]; [contradiction|].
  cbn [negb orb].
  destruct (run_shape P E t)
    as (progress & images & error & Hrun & Hok & Hfail & Hempty).
  rewrite Hrun. cbn [call]. rewrite flat_map_app.
  replace (flat_map _ (map Progress progress)) with (@nil finish_outcome)
    by (clear; induction progress as [|x l IH]; [reflexivity|exact IH]).
  cbn [flat_map app]. eexists. split; [reflexivity|].
  unfold finish. destruct error as [[|c rest]|].
  - rewrite (Hfail ltac:(discriminate)).
    destruct (Hempty eq_refl) as [H|H]; [left|right; left]; exact H.
  - discriminate.
  - destruct (proj1 Hok eq_refl) as (_ & _ & Hne & Hd).
    destruct (deduplicate_subseq _ _ _ _ Hd) as (Hsub & Hread & Hnil).
    destruct images as [|i rest].
    + right. right. split; [exact Hd|]. split; [exact Hne|].
      apply Hnil. reflexivity.
    + exists (i :: rest). split; [exact Hd|]. split; [discriminate|].
      split; [exact Hsub|]. split; [exact Hread|]. split; [reflexivity|].
      unfold selected_paths. cbn [new_window _update_count _cards].
      rewrite make_cards_selected. apply make_cards_paths.
Qed.

(** X19.  Pressing "Extract Slides" on a valid file ends in exactly one
    of three ways.  The review window opens only on the non-empty result
    of the reduction, a subsequence of the frames FFmpeg wrote, all
    readable and all selected; an error dialog always has a text; and
    "No slides detected" is shown only when no frame could be read, or
    when creating the folder or starting FFmpeg failed with an exception
    whose text is empty, which is then reported as if no slide had been
    found. *)
Theorem process_ends_one_of_three (P : pillow) (E : extraction_env)
    (path : string) (t : float) :
  path <> EmptyString ->
  _process P E EmptyString true t = Warn_no_file /\
  _process P E path false t = Warn_no_file /\
  (makedirs_raised E = Some EmptyString \/
   (makedirs_raised E = None /\ ffmpeg E = Run_raised EmptyString) ->
   _process P E path true t = Finished [No_slides_detected]) /\
  exists o,
    _process P E path true t = Finished [o] /\
    match o with
    | Open_review w =>
        exists images,
          deduplicate P (glob_frames E) t = Ok images /\
          images <> [] /\ subseq images (glob_frames E) /\
          Forall (fun q => readable P q = true) images /\
          w = new_window images path /\
          selected_paths w = images
    | Show_error e => e <> EmptyString
    | No_slides_detected =>
        makedirs_raised E = Some EmptyString \/
        ffmpeg E = Run_raised EmptyString \/
        (deduplicate P (glob_frames E) t = Ok [] /\
         glob_frames E <> [] /\
         Forall (fun q => readable P q = false) (glob_frames E))
    end.
Proof.
  intros Hpath. split; [reflexivity|].
  split; [unfold _process; rewrite orb_true_r; reflexivity|].
  split; [|apply process_cases; exact Hpath].
  unfold _process.
  destruct (String.eqb_spec path EmptyString) as [|_]; [contradiction|].
  cbn [negb orb]. unfold run.
  intros [Hmk|[Hmk Hff]]; [rewrite Hmk|rewrite Hmk, Hff]; reflexivity.
Qed.

Lemma process_ends_one_of_three_witness :
  "talk.mp4"%string <> EmptyString /\
  _process black_white three_frames_env "talk.mp4" false 0.9375
  = Warn_no_file /\
  exists o,
    _process black_white three_frames_env "talk.mp4" true 0.9375
    = Finished [o].
Proof.
  assert (Hpath : "talk.mp4"%string <> EmptyString) by discriminate.
  split; [exact Hpath|].
  destruct (process_ends_one_of_three black_white three_frames_env
              "talk.mp4" 0.9375 Hpath) as (_ & Hno & _ & o & Ho & _).
  split; [exact Hno|]. exists o. exact Ho.
Defined.

(** X20.  With a threshold between 0 and 1, once the folder is made,
    FFmpeg returns code 0 and at least one of its frames can be read,
    the review window opens, and its first card is the first readable
    frame. *)
Theorem review_opens_on_success (P : pillow) (E : extraction_env)
    (path : string) (t : float) (err : string) (first : string) :
  path <> EmptyString ->
  in_unit_interval t ->
  makedirs_raised E = None ->
  ffmpeg E = Completed 0 err ->
  hd_error (filter (readable P) (glob_frames E)) = Some first ->
  exists images,
    _process P E path true t
    = Finished [Open_review (new_window (first :: images) path)] /\
    deduplicate P (glob_frames E) t = Ok (first :: images).
Proof.
  intros Hpath Hunit Hmk Hff Hfirst.
  destruct (max_dist_of_unit t Hunit) as (m & Hm & _).
  assert (Hd : deduplicate P (glob_frames E) t
               = Ok (reduce P m None (glob_frames E))).
  { unfold deduplicate. rewrite Hm, dedup_with_reduce. reflexivity. }
  assert (Hred : exists images,
             reduce P m None (glob_frames E) = first :: images).
  { rewrite reduce_filter.
    destruct (filter (readable P) (glob_frames E)) as [|f l] eqn:Ef;
      [discriminate|].
    injection Hfirst as ->.
    assert (Hr : readable P first = true).
    { assert (Hin : In first (filter (readable P) (glob_frames E)))
        by (rewrite Ef; left; reflexivity).
      apply filter_In in Hin. apply Hin. }
    unfold readable in Hr. destruct (try_phash P first) as [h|] eqn:Eh;
      [|discriminate].
    rewrite (reduce_first P m first l h Eh). eexists. reflexivity. }
  destruct Hred as [images Hred]. exists images. rewrite Hred in Hd.
  split; [|exact Hd].
  unfold _process.
  destruct (String.eqb_spec path EmptyString) as [|_]; [contradiction|].
  cbn [negb orb]. unfold run. rewrite Hmk, Hff. cbn [Z.eqb negb].
  destruct (glob_frames E) as [|f l] eqn:Eg; [discriminate|].
  rewrite Hd. reflexivity.
Qed.

Lemma review_opens_on_success_witness :
  exists images,
    _process black_white three_frames_env "talk.mp4" true 0.9375
    = Finished [Open_review
                  (new_window ("slide_000001.png"%string :: images)
                              "talk.mp4")] /\
    deduplicate black_white (glob_frames three_frames_env) 0.9375
    = Ok ("slide_000001.png"%string :: images).
Proof.
  apply (review_opens_on_success black_white three_frames_env "talk.mp4"
           0.9375 EmptyString "slide_000001.png").
  - discriminate.
  - in_unit.
  - reflexivity.
  - reflexivity.
  - vm_compute. reflexivity.
Defined.

Lemma substring_all (n : nat) (s : string) :
  (String.length s <= n)%nat -> substring 0 n s = s.
Proof.
  revert n. induction s as [|c s IH]; intros n Hn.
  - destruct n; reflexivity.
  - destruct n as [|n]; [cbn in Hn; lia|].
    cbn. rewrite IH; [reflexivity|cbn in Hn; lia].
Qed.

Lemma substring_suffix (k n : nat) (s : string) :
  (String.length s <= k + n)%nat ->
  exists pre, s = (pre ++ substring k n s)%string /\
              String.length pre = Nat.min k (String.length s).
Proof.
  revert s. induction k as [|k IH]; intros s Hs.
  - exists EmptyString. rewrite substring_all by exact Hs.
    split; reflexivity.
  - destruct s as [|c s].
    + exists EmptyString. split; reflexivity.
    + destruct (IH s ltac:(cbn in Hs; lia)) as (pre & Hpre & Hlen).
      exists (String c pre). cbn. rewrite <- Hpre, Hlen.
      split; reflexivity.
Qed.

Lemma length_append (a b : string) :
  String.length (a ++ b) = (String.length a + String.length b)%nat.
Proof. induction a as [|c a IH]; cbn; [reflexivity|rewrite IH; reflexivity]. Qed.

Lemma last_chars_tail (n : nat) (s : string) :
  (exists pre, s = (pre ++ last_chars n s)%string) /\
  String.length (last_chars n s) = Nat.min n (String.length s).
Proof.
  unfold last_chars.
  destruct (substring_suffix (String.length s - n) n s ltac:(lia))
    as (pre & Hpre & Hlen).
  split; [exists pre; exact Hpre|].
  apply (f_equal String.length) in Hpre. rewrite length_append in Hpre. lia.
Qed.

(** X21.  Every failure of the worker that has a text ends in the error
    dialog with that text: an exception of [os.makedirs] or of starting
    FFmpeg, a non-zero return code (the dialog then shows "FFmpeg
    failed:" and the last 2000 characters of FFmpeg's standard error,
    or all of it when shorter), an empty frame folder, and what [int()]
    raises for the threshold. *)
Theorem failures_show_error_dialog (P : pillow) (E : extraction_env)
    (path : string) (t : float) :
  path <> EmptyString ->
  (forall message,
     message <> EmptyString ->
     makedirs_raised E = Some message \/
     (makedirs_raised E = None /\ ffmpeg E = Run_raised message) ->
     _process P E path true t = Finished [Show_error message]) /\
  (forall returncode stderr,
     makedirs_raised E = None ->
     ffmpeg E = Completed returncode stderr -> returncode <> 0 ->
     exists tail,
       _process P E path true t
       = Finished [Show_error ("FFmpeg failed:" ++ newline ++ tail)%string] /\
       (exists pre, stderr = (pre ++ tail)%string) /\
       String.length tail = Nat.min 2000 (String.length stderr)) /\
  (forall stderr,
     makedirs_raised E = None -> ffmpeg E = Completed 0 stderr ->
     (glob_frames E = [] ->
      _process P E path true t = Finished [Show_error no_frames_message]) /\
     (forall e,
        glob_frames E <> [] -> max_dist_of t = Raise e ->
        _process P E path true t = Finished [Show_error (str_of_exn e)])).
Proof.
  intros Hpath. unfold _process.
  destruct (String.eqb_spec path EmptyString) as [|_]; [contradiction|].
  cbn [negb orb]. unfold run.
  split; [|split].
  - intros message Hne [Hmk|[Hmk Hff]].
    + rewrite Hmk. destruct message; [contradiction|reflexivity].
    + rewrite Hmk, Hff. destruct message; [contradiction|reflexivity].
  - intros rc err Hmk Hff Hrc. rewrite Hmk, Hff.
    destruct (Z.eqb_spec rc 0) as [|_]; [contradiction|]. cbn [negb].
    exists (last_chars 2000 err). split; [reflexivity|].
    apply last_chars_tail.
  - intros err Hmk Hff. rewrite Hmk, Hff. cbn [Z.eqb negb]. split.
    + intros ->. reflexivity.
    + intros e Hne Hraise. destruct (glob_frames E) as [|f l]; [contradiction|].
      unfold deduplicate. rewrite Hraise. destruct e; reflexivity.
Qed.

Lemma failures_show_error_dialog_witness :
  "talk.mp4"%string <> EmptyString /\
  exists tail,
    _process black_white
      {| makedirs_raised := None;
         ffmpeg := Completed 1 "talk.mp4: No such file or directory";
         glob_frames := [] |} "talk.mp4" true 0.9375
    = Finished [Show_error ("FFmpeg failed:" ++ newline ++ tail)%string] /\
    (exists pre,
       "talk.mp4: No such file or directory"%string = (pre ++ tail)%string) /\
    String.length tail
    = Nat.min 2000 (String.length "talk.mp4: No such file or directory").
Proof.
  assert (Hpath : "talk.mp4"%string <> EmptyString) by discriminate.
  split; [exact Hpath|].
  destruct (failures_show_error_dialog black_white
              {| makedirs_raised := None;
                 ffmpeg := Completed 1 "talk.mp4: No such file or directory";
                 glob_frames := [] |} "talk.mp4" 0.9375 Hpath)
    as (_ & Hrc & _).
  apply (Hrc 1); [reflexivity|reflexivity|discriminate].
Defined.

(** ** Exact evaluation of the cutoff between 0.5 and 1.0 *)

Lemma digits_of_bounds (m : positive) (k : Z) :
  2 ^ (k - 1) <= Zpos m < 2 ^ k -> Zpos (digits2_pos m) = k.
Proof.
  intros [Hl Hu].
  pose proof (digits2_pos_lower m) as Hdl.
  pose proof (digits2_pos_upper m) as Hdu.
  assert (Hk : 0 < k).
  { destruct (Z_lt_le_dec 0 k) as [|Hle]; [assumption|].
    exfalso. destruct (Z.eq_dec k 0) as [->|Hne].
    - cbn in Hu. lia.
    - rewrite (Z.pow_neg_r 2 k) in Hu by lia. lia. }
  assert (H1 : Zpos (digits2_pos m) - 1 < k).
  { apply (Z.pow_lt_mono_r_iff 2); [lia|lia|].
    eapply Z.le_lt_trans; [exact Hdl|exact Hu]. }
  assert (H2 : k - 1 < Zpos (digits2_pos m)).
  { apply (Z.pow_lt_mono_r_iff 2); [lia|lia|].
    eapply Z.le_lt_trans; [exact Hl|exact Hdu]. }
  lia.
Qed.

Lemma shr_nonpos (mrs : shr_record) (e n : Z) : n <= 0 -> shr mrs e n = (mrs, e).
Proof. intros Hn. unfold shr. destruct n as [|p|p]; [reflexivity|lia|reflexivity]. Qed.

(** Rounding a mantissa that is a 53-bit mantissa times a power of two
    loses nothing. *)
Lemma binary_round_aux_exact (mz m' : positive) (ez j : Z) :
  2 ^ 52 <= Zpos m' < 2 ^ 53 -> 0 <= j -> Zpos mz = Zpos m' * 2 ^ j ->
  -1074 <= ez + j <= 971 ->
  binary_round_aux prec emax false (Zpos mz) ez loc_Exact
  = S754_finite false m' (ez + j).
Proof.
  intros Hm' Hj Hmz Hrange.
  assert (Hp : 0 < 2 ^ j) by (apply pow2_pos; lia).
  assert (Hdz : Zpos (digits2_pos mz) = 53 + j).
  { apply digits_of_bounds. rewrite Hmz.
    replace (53 + j - 1) with (52 + j) by lia.
    rewrite !pow2_split by lia. split.
    - apply Z.mul_le_mono_nonneg_r; lia.
    - apply Z.mul_lt_mono_pos_r; lia. }
  assert (Hd' : Zpos (digits2_pos m') = 53) by (apply digits_of_bounds; exact Hm').
  unfold binary_round_aux, shr_fexp.
  set (n := fexp prec emax (Zdigits2 (Zpos mz) + ez) - ez).
  assert (Hn : n = j).
  { subst n. unfold fexp, SpecFloat.emin, prec, emax, Zdigits2.
    rewrite Hdz. lia. }
  destruct (shr_exact (Zpos mz) ez n ltac:(lia))
    as (j1 & Hj1 & Hjn & He1 & Hm1 & Hx1).
  assert (Hmax : j1 = j) by lia. clear Hjn. subst j1.
  destruct (shr (shr_record_of_loc (Zpos mz) loc_Exact) ez n) as [mrs1 e1].
  cbn [fst snd] in *. 
  assert (Hdiv : Zpos mz / 2 ^ j = Zpos m').
  { rewrite Hmz. apply Z.div_mul. lia. }
  assert (Hmod : Zpos mz mod 2 ^ j = 0).
  { rewrite Hmz. apply Z.mod_mul. lia. }
  rewrite (Hx1 Hmod), Hm1, Hdiv. cbn [round_nearest_even].
  rewrite shr_nonpos.
  - cbn [shr_m shr_record_of_loc].
    replace (e1 <=? emax - prec) with true; [subst e1; reflexivity|].
    symmetry. apply Z.leb_le. unfold emax, prec. lia.
  - unfold fexp, SpecFloat.emin, prec, emax, Zdigits2. rewrite Hd'. lia.
Qed.

Lemma binary_round_exact (p : positive) (e : Z) :
  Zpos p < 2 ^ 53 -> -1074 <= Zpos (digits2_pos p) + e - 53 <= 971 ->
  exists p',
    binary_round prec emax false p e
    = S754_finite false p' (Zpos (digits2_pos p) + e - 53) /\
    2 ^ 52 <= Zpos p' < 2 ^ 53 /\
    Zpos p' = Zpos p * 2 ^ (53 - Zpos (digits2_pos p)).
Proof.
  intros Hp Hrange.
  pose proof (digits2_pos_lower p) as Hdl.
  pose proof (digits2_pos_upper p) as Hdu.
  set (d := Zpos (digits2_pos p)) in *.
  assert (Hd : 1 <= d <= 53).
  { split; [subst d; lia|].
    assert (d - 1 < 53); [|lia].
    apply (Z.pow_lt_mono_r_iff 2); [lia|lia|].
    eapply Z.le_lt_trans; [exact Hdl|exact Hp]. }
  unfold binary_round. fold d.
  assert (He' : fexp prec emax (d + e) = d + e - 53).
  { unfold fexp, SpecFloat.emin, prec, emax. lia. }
  rewrite He'.
  destruct (shl_align_spec p e (d + e - 53)) as (_ & Hez & Hmz).
  rewrite Hez in Hmz by lia. specialize (Hez ltac:(lia)).
  destruct (shl_align p e (d + e - 53)) as [mz ez]. cbn [fst snd] in *.
  subst ez. replace (e - (d + e - 53)) with (53 - d) in Hmz by lia.
  assert (Hq : 0 < 2 ^ (53 - d)) by (apply pow2_pos; lia).
  assert (Hb : 2 ^ 52 <= Zpos mz < 2 ^ 53).
  { rewrite Hmz. split.
    - replace 52 with (d - 1 + (53 - d)) at 1 by lia.
      rewrite pow2_split by lia.
      apply Z.mul_le_mono_nonneg_r; [lia|exact Hdl].
    - replace 53 with (d + (53 - d)) at 2 by lia.
      rewrite pow2_split by lia.
      apply Z.mul_lt_mono_pos_r; [exact Hq|exact Hdu]. }
  exists mz. split; [|split; [exact Hb|exact Hmz]].
  rewrite <- (Z.add_0_r (d + e - 53)) at 2.
  apply binary_round_aux_exact; [exact Hb|lia| |lia].
  rewrite Z.pow_0_r, Z.mul_1_r. reflexivity.
Qed.

(** A float between 0.5 and 1.0: its mantissa and exponent. *)
Lemma half_to_one_form (t : float) :
  PrimFloat.leb 0.5 t = true -> PrimFloat.leb t 1 = true ->
  exists m e,
    Prim2SF t = S754_finite false m e /\ (e = -53 \/ e = -52) /\
    2 ^ 52 <= Zpos m /\ Zpos m <= 2 ^ (- e).
Proof.
  intros H0 H1. rewrite leb_spec in H0, H1.
  pose proof (Prim2SF_valid t) as Hv.
  change (Prim2SF 0.5%float) with (S754_finite false 4503599627370496 (-53)) in H0.
  change (Prim2SF 1%float) with (S754_finite false 4503599627370496 (-52)) in H1.
  destruct (Prim2SF t) as [s|s| |s m e].
  - discriminate H0.
  - destruct s; discriminate.
  - discriminate.
  - destruct s; [discriminate|].
    apply valid_binary_digits in Hv. destruct Hv as (Hm & He & Hnorm).
    unfold SFleb, SFcompare in H0, H1.
    exists m, e. split; [reflexivity|].
    destruct (Z.compare_spec (-53) e) as [Heq|Hlt|Hgt]; [| |discriminate].
    + subst e. split; [left; reflexivity|]. split; [apply Hnorm; lia|].
      apply Z.lt_le_incl. exact Hm.
    + destruct (Z.compare_spec e (-52)) as [->|Hlt2|Hgt2]; [| |discriminate].
      * split; [right; reflexivity|]. split; [apply Hnorm; lia|].
        rewrite Pos.compare_cont_spec in H1.
        change (2 ^ (- -52)) with 4503599627370496.
        destruct (Pos.compare_spec m 4503599627370496) as [Heq|Hl|Hg];
          cbn [Pos.switch_Eq] in H1; [| |discriminate H1].
        -- rewrite Heq. apply Z.le_refl.
        -- apply Z.lt_le_incl, Pos2Z.pos_lt_pos, Hl.
      * exfalso. lia.
Qed.

(** For a threshold between 0.5 and 1.0 neither the subtraction nor the
    product rounds: the cutoff is the exact quotient. *)
Lemma max_dist_of_form (t : float) (m : positive) (e : Z) :
  Prim2SF t = S754_finite false m e -> (e = -53 \/ e = -52) ->
  2 ^ 52 <= Zpos m -> Zpos m <= 2 ^ (- e) ->
  max_dist_of t = Ok ((2 ^ (- e) - Zpos m) / 2 ^ (- e - 8)).
Proof.
  intros Ht He Hlo Hhi. unfold max_dist_of, int_of_float.
  rewrite mul_spec, sub_spec, Ht.
  change (Prim2SF (float_of_nat (_HASH_SIZE * _HASH_SIZE)))
    with (S754_finite false 4503599627370496 (-44)).
  change (Prim2SF 1%float) with (S754_finite false 4503599627370496 (-52)).
  unfold SF64sub, SFsub, cond_Zopp.
  rewrite Z.min_r by lia.
  destruct (shl_align_spec 4503599627370496 (-52) e) as (_ & E1 & V1).
  destruct (shl_align_spec m e e) as (_ & E2 & V2).
  rewrite E1 in V1 by lia. rewrite E2, Z.sub_diag in V2 by lia.
  rewrite V1, V2.
  assert (Hone : 4503599627370496 * 2 ^ (-52 - e) = 2 ^ (- e)).
  { change 4503599627370496 with (2 ^ 52). rewrite <- pow2_split by lia.
    f_equal. lia. }
  rewrite Hone, Z.pow_0_r, Z.mul_1_r.
  assert (H53 : 2 ^ (- e) <= 2 ^ 53) by (apply Z.pow_le_mono_r; lia).
  assert (Hq : 0 < 2 ^ (- e - 8)) by (apply pow2_pos; lia).
  destruct (2 ^ (- e) - Zpos m) as [|p|p] eqn:Ed; cbn [binary_normalize];
    [| |exfalso; lia].
  - rewrite Z.div_0_l by lia. reflexivity.
  - assert (Hp : Zpos p < 2 ^ 53).
    { assert (0 < 2 ^ 52) by (apply pow2_pos; lia). lia. }
    pose proof (digits2_pos_lower p) as Hdl.
    assert (Hd : 1 <= Zpos (digits2_pos p) <= 53).
    { split; [lia|].
      assert (Zpos (digits2_pos p) - 1 < 53); [|lia].
      apply (Z.pow_lt_mono_r_iff 2); [lia|lia|].
      eapply Z.le_lt_trans; [exact Hdl|exact Hp]. }
    destruct (binary_round_exact p e Hp ltac:(lia)) as (p' & Hr & Hb & Hv).
    rewrite Hr. unfold SF64mul, SFmul. cbn [xorb].
    rewrite (binary_round_aux_exact _ p' _ 52 Hb ltac:(lia));
      [| rewrite Pos2Z.inj_mul; reflexivity | lia].
    f_equal. rewrite Z.shiftl_div_pow2 by lia. rewrite Hv.
    replace (- (Zpos (digits2_pos p) + e - 53 + -44 + 52))
      with (- e - 8 + (53 - Zpos (digits2_pos p))) by lia.
    rewrite pow2_split by lia.
    apply Z.div_mul_cancel_r.
    + lia.
    + assert (0 < 2 ^ (53 - Zpos (digits2_pos p))) by (apply pow2_pos; lia).
      lia.
Qed.

Lemma sfleb_positive (m1 m2 : positive) (e1 e2 : Z) :
  SFleb (S754_finite false m1 e1) (S754_finite false m2 e2) = true <->
  e1 < e2 \/ (e1 = e2 /\ Zpos m1 <= Zpos m2).
Proof.
  unfold SFleb, SFcompare.
  destruct (Z.compare_spec e1 e2) as [Heq|Hlt|Hgt].
  - rewrite Pos.compare_cont_spec.
    destruct (Pos.compare_spec m1 m2) as [Hm|Hm|Hm]; cbn [Pos.switch_Eq].
    + split; [intros _; right; split; [exact Heq|]|reflexivity].
      rewrite Hm. apply Z.le_refl.
    + split; [intros _; right; split; [exact Heq|]|reflexivity].
      apply Z.lt_le_incl, Pos2Z.pos_lt_pos, Hm.
    + split; [discriminate|]. intros [H|[_ H]]; [lia|].
      apply Pos2Z.pos_lt_pos in Hm. exfalso. apply (Z.lt_irrefl (Zpos m1)).
      eapply Z.le_lt_trans; [exact H|exact Hm].
  - split; [intros _; left; exact Hlt|reflexivity].
  - split; [discriminate|]. intros [H|[H _]]; lia.
Qed.

(** What lies above a positive finite float is positive and finite, or
    plus infinity. *)
Lemma leb_above_positive (a b : float) (ma : positive) (ea : Z) :
  Prim2SF a = S754_finite false ma ea -> PrimFloat.leb a b = true ->
  Prim2SF b = S754_infinity false \/
  exists mb eb, Prim2SF b = S754_finite false mb eb /\
                (ea < eb \/ (ea = eb /\ Zpos ma <= Zpos mb)).
Proof.
  intros Ha H. rewrite leb_spec, Ha in H.
  destruct (Prim2SF b) as [s|s| |s mb eb].
  - discriminate H.
  - destruct s; [discriminate H|left; reflexivity].
  - discriminate H.
  - destruct s; [discriminate H|]. right. exists mb, eb.
    split; [reflexivity|]. apply sfleb_positive, H.
Qed.

Lemma leb_transitive (a b c : float) (ma : positive) (ea : Z) :
  Prim2SF a = S754_finite false ma ea ->
  PrimFloat.leb a b = true -> PrimFloat.leb b c = true ->
  PrimFloat.leb a c = true.
Proof.
  intros Ha Hab Hbc.
  destruct (leb_above_positive a b ma ea Ha Hab)
    as [Hb|(mb & eb & Hb & Hle1)].
  - rewrite leb_spec, Hb in Hbc. rewrite leb_spec, Ha.
    destruct (Prim2SF c) as [s|s| |s mc ec]; try discriminate Hbc.
    destruct s; [discriminate Hbc|reflexivity].
  - destruct (leb_above_positive b c mb eb Hb Hbc)
      as [Hc|(mc & ec & Hc & Hle2)].
    + rewrite leb_spec, Ha, Hc. reflexivity.
    + rewrite leb_spec, Ha, Hc. apply sfleb_positive.
      destruct Hle1 as [H1|[H1 H1']], Hle2 as [H2|[H2 H2']].
      * left. lia.
      * left. lia.
      * left. lia.
      * right. split; [lia|]. eapply Z.le_trans; [exact H1'|exact H2'].
Qed.

Lemma cutoff_antitone (t1 t2 : float) :
  PrimFloat.leb 0.5 t1 = true -> PrimFloat.leb t1 t2 = true ->
  PrimFloat.leb t2 1 = true ->
  exists m1 m2,
    max_dist_of t1 = Ok m1 /\ max_dist_of t2 = Ok m2 /\ 0 <= m2 <= m1.
Proof.
  intros H0 H12 H1.
  assert (Hhalf : Prim2SF 0.5%float = S754_finite false 4503599627370496 (-53))
    by reflexivity.
  pose proof (leb_transitive _ _ _ _ _ Hhalf H0 H12) as H02.
  destruct (half_to_one_form t2 H02 H1) as (m2 & e2 & Ht2 & He2 & Hlo2 & Hhi2).
  destruct (leb_above_positive _ _ _ _ Hhalf H0)
    as [Hinf|(m1 & e1 & Ht1 & _)].
  { rewrite leb_spec, Hinf, Ht2 in H12. discriminate H12. }
  pose proof (leb_transitive _ _ _ _ _ Ht1 H12 H1) as H11.
  destruct (half_to_one_form t1 H0 H11) as (m1' & e1' & Ht1' & He1 & Hlo1 & Hhi1).
  rewrite Ht1 in Ht1'. injection Ht1' as <- <-.
  rewrite leb_spec, Ht1, Ht2 in H12. apply sfleb_positive in H12.
  exists ((2 ^ (- e1) - Zpos m1) / 2 ^ (- e1 - 8)),
         ((2 ^ (- e2) - Zpos m2) / 2 ^ (- e2 - 8)).
  split; [apply max_dist_of_form; assumption|].
  split; [apply max_dist_of_form; assumption|].
  assert (Hq1 : 0 < 2 ^ (- e1 - 8)) by (apply pow2_pos; lia).
  assert (Hq2 : 0 < 2 ^ (- e2 - 8)) by (apply pow2_pos; lia).
  split; [apply Z.div_pos; [|exact Hq2]; apply Zle_minus_le_0; exact Hhi2|].
  destruct H12 as [Hlt|[-> Hm]].
  - assert (e2 = -52) by lia. subst e2.
    assert (Heq : Zpos m2 = 2 ^ (- -52)).
    { apply Z.le_antisymm; [exact Hhi2|exact Hlo2]. }
    rewrite Heq, Z.sub_diag, Z.div_0_l.
    + apply Z.div_pos; [|exact Hq1]. apply Zle_minus_le_0; exact Hhi1.
    + cbn. discriminate.
  - apply Z.div_le_mono; [exact Hq2|].
    apply Z.sub_le_mono_l. exact Hm.
Qed.

(** X22.  For a threshold between 0.5 and 1.0 the float evaluation of
    [(1.0 - threshold) * 256] loses nothing: the cutoff is the floor of
    the exact product, where the threshold stands for a rational
    between one half and one. *)
Theorem cutoff_exact_above_half (t : float) :
  PrimFloat.leb 0.5 t = true -> PrimFloat.leb t 1 = true ->
  exists q,
    float_value t = Some q /\ (1 # 2 <= q <= 1)%Q /\
    max_dist_of t = Ok (exact_cutoff q).
Proof.
  intros H0 H1.
  destruct (half_to_one_form t H0 H1) as (m & e & Ht & He & Hlo & Hhi).
  assert (Hp : 0 < 2 ^ (- e)) by (apply pow2_pos; lia).
  assert (Hq : 0 < 2 ^ (- e - 8)) by (apply pow2_pos; lia).
  assert (H53 : 2 ^ (- e) <= 2 * 2 ^ 52).
  { change (2 * 2 ^ 52) with (2 ^ 53). apply Z.pow_le_mono_r; lia. }
  assert (Hsplit : 2 ^ (- e) = 256 * 2 ^ (- e - 8)).
  { change 256 with (2 ^ 8). rewrite <- pow2_split by lia. f_equal. lia. }
  exists (Qmake (Zpos m) (Z.to_pos (2 ^ (- e)))).
  split; [|split].
  - unfold float_value. rewrite Ht.
    replace (0 <=? e) with false by (symmetry; apply Z.leb_gt; lia).
    reflexivity.
  - unfold Qle. cbn [Qnum Qden]. rewrite Z2Pos.id by exact Hp.
    split.
    + rewrite Z.mul_1_l. change (Zpos 2) with 2.
      eapply Z.le_trans; [exact H53|]. rewrite (Z.mul_comm (Zpos m)).
      apply Z.mul_le_mono_nonneg_l; [lia|exact Hlo].
    + rewrite Z.mul_1_r, Z.mul_1_l. exact Hhi.
  - rewrite (max_dist_of_form t m e Ht He Hlo Hhi). f_equal.
    unfold exact_cutoff, Qfloor, Qminus, Qplus, Qopp, Qmult, inject_Z.
    cbn [Qnum Qden]. change hash_bits with 256.
    rewrite Pos.mul_1_l, Pos.mul_1_r, Z.mul_1_l, Z.mul_1_r.
    rewrite Z2Pos.id by exact Hp.
    change (Z.opp (Zpos m)) with (- Zpos m).
    replace (2 ^ (- e) + - Zpos m) with (2 ^ (- e) - Zpos m) by reflexivity.
    symmetry.
    transitivity ((2 ^ (- e) - Zpos m) * 256 / (2 ^ (- e - 8) * 256)).
    + f_equal. rewrite Z.mul_comm. exact Hsplit.
    + apply Z.div_mul_cancel_r; [|discriminate].
      intros Hz. rewrite Hz in Hq. exact (Z.lt_irrefl 0 Hq).
Qed.

(** X23.  Between 0.5 and 1.0 a higher threshold never gives a larger
    cutoff, so a candidate that one retention test keeps at the lower
    threshold is kept by the same test at the higher one. *)
Theorem higher_threshold_smaller_cutoff (t1 t2 : float) :
  PrimFloat.leb 0.5 t1 = true -> PrimFloat.leb t1 t2 = true ->
  PrimFloat.leb t2 1 = true ->
  exists m1 m2,
    max_dist_of t1 = Ok m1 /\ max_dist_of t2 = Ok m2 /\ 0 <= m2 <= m1 /\
    forall kept_hashes h,
      is_new_slide m1 kept_hashes h = true ->
      is_new_slide m2 kept_hashes h = true.
Proof.
  intros H0 H12 H1.
  destruct (cutoff_antitone t1 t2 H0 H12 H1) as (m1 & m2 & E1 & E2 & Hle).
  exists m1, m2. split; [exact E1|]. split; [exact E2|]. split; [exact Hle|].
  intros hs h. apply is_new_slide_mono. apply Hle.
Qed.

(** X24.  Every threshold the similarity slider can deliver, from 0.70
    to 0.99, gives a cutoff between 2 and 76 bits, and [deduplicate]
    returns for it. *)
Theorem slider_cutoff_range (t : float) :
  PrimFloat.leb similarity_from t = true ->
  PrimFloat.leb t similarity_to = true ->
  exists m,
    max_dist_of t = Ok m /\ 2 <= m <= 76 /\
    forall P paths, deduplicate P paths t = Ok (dedup_with P m paths).
Proof.
  intros Hfrom Hto.
  assert (Hf : Prim2SF similarity_from
               = S754_finite false 6305039478318694 (-53)) by reflexivity.
  assert (Hhalf : Prim2SF 0.5%float = S754_finite false 4503599627370496 (-53))
    by reflexivity.
  assert (H05 : PrimFloat.leb 0.5 similarity_from = true) by reflexivity.
  assert (H99 : PrimFloat.leb similarity_to 1 = true) by reflexivity.
  destruct (leb_above_positive _ _ _ _ Hf Hfrom) as [Hinf|(mt & et & Ht & _)].
  { rewrite leb_spec, Hinf in Hto. discriminate Hto. }
  pose proof (leb_transitive t similarity_to 1%float mt et Ht Hto H99) as Ht1.
  pose proof (leb_transitive 0.5%float similarity_from t _ _ Hhalf H05 Hfrom) as Ht0.
  destruct (cutoff_antitone similarity_from t H05 Hfrom Ht1)
    as (a & m & Ea & Em & Hlo & Hhi).
  destruct (cutoff_antitone t similarity_to Ht0 Hto H99)
    as (m' & b & Em' & Eb & Hlo' & Hhi').
  rewrite Em in Em'. injection Em' as <-.
  assert (Ea' : max_dist_of similarity_from = Ok 76) by (vm_compute; reflexivity).
  assert (Eb' : max_dist_of similarity_to = Ok 2) by (vm_compute; reflexivity).
  rewrite Ea' in Ea. rewrite Eb' in Eb.
  injection Ea as <-. injection Eb as <-.
  exists m. split; [exact Em|]. split; [split; assumption|].
  intros P paths. unfold deduplicate. rewrite Em. reflexivity.
Qed.

Lemma cutoff_exact_above_half_witness :
  exists q,
    float_value 0.9375 = Some q /\ (1 # 2 <= q <= 1)%Q /\
    max_dist_of 0.9375 = Ok (exact_cutoff q).
Proof.
  apply cutoff_exact_above_half; vm_compute; reflexivity.
Defined.

Lemma higher_threshold_smaller_cutoff_witness :
  exists m1 m2,
    max_dist_of 0.75 = Ok m1 /\ max_dist_of 0.9375 = Ok m2 /\
    0 <= m2 <= m1 /\
    forall kept_hashes h,
      is_new_slide m1 kept_hashes h = true ->
      is_new_slide m2 kept_hashes h = true.
Proof.
  apply higher_threshold_smaller_cutoff; vm_compute; reflexivity.
Defined.

Lemma slider_cutoff_range_witness :
  exists m,
    max_dist_of 0.9375 = Ok m /\ 2 <= m <= 76 /\
    forall P paths, deduplicate P paths 0.9375 = Ok (dedup_with P m paths).
Proof.
  apply slider_cutoff_range; vm_compute; reflexivity.
Defined.
